(** * Social-login PKCE flow of Mugimaru: SHA-256, Base64URL, callback parsing

    A shallow embedding of [lib/social-auth.ts] (the revision that carries its
    own SHA-256) and the properties its specification states about it.

    Conventions.
    - A JavaScript number that holds an integer is a [Z]; every integer that
      occurs below stays far under 2^53, so the double arithmetic of the
      source is exact and is written as arithmetic on [Z].  The 32-bit
      conversions that the bit operators perform are written out ([JS]).
    - A [Uint8Array] is a [list byte]; a [Uint32Array] and a [number[]] are
      [list Z].
    - A JavaScript string is the list of its UTF-16 code units ([jsstring]).
    - What the source takes from its host (environment, expo-linking, the
      text decoder, [JSON.parse], random bytes) is a record of functions
      ([Platform], [Rng]); the two sign-in flows are trees of the calls
      they await ([Flow]), run against a host that answers them ([World]).

    The standards the specification names are written down a second time,
    from their own text and not from the source: FIPS 180-4 ([FIPS]), RFC
    4648 ([RFC4648]) and UTF-8 ([Utf8]).  The definitions come first, then
    the lemmas, then the properties of the specification, each under its
    number (C1 to C10), then further properties of the code (X1 onwards).
*)

From Stdlib Require Import ZArith List Lia String Ascii Bool Setoid Morphisms.
From Stdlib.Strings Require Import Byte.
From stdpp Require Import base option list gmap strings.

Local Open Scope Z_scope.

(** ** JavaScript integer operators *)

Module JS.

(** ECMAScript ToInt32 and ToUint32 on an integral number. *)
Definition ToInt32 (x : Z) : Z := (x + 2^31) mod 2^32 - 2^31.
Definition ToUint32 (x : Z) : Z := x mod 2^32.

(** [a | b], [a & b], [a ^ b], [~a]: both operands through ToInt32; the
    result of the bitwise operation on two's-complement integers is again
    a 32-bit signed integer. *)
Definition bor (a b : Z) : Z := Z.lor (ToInt32 a) (ToInt32 b).
Definition band (a b : Z) : Z := Z.land (ToInt32 a) (ToInt32 b).
Definition bxor (a b : Z) : Z := Z.lxor (ToInt32 a) (ToInt32 b).
Definition bnot (a : Z) : Z := Z.lnot (ToInt32 a).

(** [a << n], [a >> n], [a >>> n]: the shift count is taken modulo 32. *)
Definition shl (a n : Z) : Z := ToInt32 (Z.shiftl (ToInt32 a) (ToUint32 n mod 32)).
Definition sar (a n : Z) : Z := Z.shiftr (ToInt32 a) (ToUint32 n mod 32).
Definition shr (a n : Z) : Z := Z.shiftr (ToUint32 a) (ToUint32 n mod 32).

(** [Math.ceil(a / b)] for integers [a] and [b > 0]. *)
Definition ceil_div (a b : Z) : Z := - ((- a) / b).

End JS.

(** ** [for (let i = start; i < bound; i += step)] *)

Fixpoint for_fuel {S : Type} (fuel : nat) (i bound step : Z)
    (body : Z -> S -> S) (s : S) : S :=
  match fuel with
  | O => s
  | Datatypes.S fuel' =>
      if i <? bound then for_fuel fuel' (i + step) bound step body (body i s)
      else s
  end.

(** With [step >= 1] the loop leaves through its test after at most
    [bound - start] rounds (lemma [for_loop_unfold]). *)
Definition for_loop {S : Type} (start bound step : Z)
    (body : Z -> S -> S) (s : S) : S :=
  for_fuel (Z.to_nat (bound - start)) start bound step body s.

(** ** Typed arrays *)

Definition byte_val (b : byte) : Z := Z.of_N (Byte.to_N b).

(** Storing a number into a [Uint8Array] keeps it modulo 256. *)
Definition u8 (v : Z) : byte :=
  match Byte.of_N (Z.to_N (v mod 256)) with
  | Some b => b
  | None => x00
  end.

Definition Uint8Array_new (n : Z) : list byte := replicate (Z.to_nat n) x00.

(** [target.set(source)]: copy [source] over the start of [target]
    (the source throws a RangeError when [source] is longer; every use below
    copies into a longer array). *)
Definition Uint8Array_set (target source : list byte) : list byte :=
  source ++ drop (length source) target.

Definition Uint8Array_store (a : list byte) (i : Z) (v : Z) : list byte :=
  <[Z.to_nat i := u8 v]> a.

Definition Uint32Array_new (n : Z) : list Z := replicate (Z.to_nat n) 0.

Definition Uint32Array_store (a : list Z) (i : Z) (v : Z) : list Z :=
  <[Z.to_nat i := JS.ToUint32 v]> a.

(** [a[i]] for an index inside the array. *)
Definition rd (a : list Z) (i : Z) : Z := nth (Z.to_nat i) a 0.
Definition rd8 (a : list byte) (i : Z) : Z := byte_val (nth (Z.to_nat i) a x00).

(** [DataView.getUint32] and [DataView.setUint32], big-endian, on a view
    over the whole buffer and an offset that leaves four bytes. *)
Definition getUint32 (buf : list byte) (off : Z) : Z :=
  rd8 buf off * 2^24 + rd8 buf (off + 1) * 2^16 + rd8 buf (off + 2) * 2^8
  + rd8 buf (off + 3).

Definition setUint32 (buf : list byte) (off : Z) (v : Z) : list byte :=
  let u := JS.ToUint32 v in
  Uint8Array_store
    (Uint8Array_store
       (Uint8Array_store
          (Uint8Array_store buf off (u / 2^24))
          (off + 1) (u / 2^16))
       (off + 2) (u / 2^8))
    (off + 3) u.

(** ** SHA-256 as the source computes it *)

Module Sha256.

(** The table of round constants, row by row as the source lays it out. *)
Definition SHA256_K : list Z :=
     [ 0x428a2f98; 0x71374491; 0xb5c0fbcf; 0xe9b5dba5; 0x3956c25b; 0x59f111f1; 0x923f82a4; 0xab1c5ed5 ]
  ++ [ 0xd807aa98; 0x12835b01; 0x243185be; 0x550c7dc3; 0x72be5d74; 0x80deb1fe; 0x9bdc06a7; 0xc19bf174 ]
  ++ [ 0xe49b69c1; 0xefbe4786; 0x0fc19dc6; 0x240ca1cc; 0x2de92c6f; 0x4a7484aa; 0x5cb0a9dc; 0x76f988da ]
  ++ [ 0x983e5152; 0xa831c66d; 0xb00327c8; 0xbf597fc7; 0xc6e00bf3; 0xd5a79147; 0x06ca6351; 0x14292967 ]
  ++ [ 0x27b70a85; 0x2e1b2138; 0x4d2c6dfc; 0x53380d13; 0x650a7354; 0x766a0abb; 0x81c2c92e; 0x92722c85 ]
  ++ [ 0xa2bfe8a1; 0xa81a664b; 0xc24b8b70; 0xc76c51a3; 0xd192e819; 0xd6990624; 0xf40e3585; 0x106aa070 ]
  ++ [ 0x19a4c116; 0x1e376c08; 0x2748774c; 0x34b0bcb5; 0x391c0cb3; 0x4ed8aa4a; 0x5b9cca4f; 0x682e6ff3 ]
  ++ [ 0x748f82ee; 0x78a5636f; 0x84c87814; 0x8cc70208; 0x90befffa; 0xa4506ceb; 0xbef9a3f7; 0xc67178f2 ].

Definition rightRotate (value amount : Z) : Z :=
  JS.bor (JS.shr value amount) (JS.shl value (32 - amount)).

(** The eight chaining values [h0 .. h7]. *)
Record chain := Chain { h0 : Z; h1 : Z; h2 : Z; h3 : Z; h4 : Z; h5 : Z; h6 : Z; h7 : Z }.

(** The eight working variables [a .. h] of the round loop. *)
Record work := Work { wa : Z; wb : Z; wc : Z; wd : Z; we : Z; wf : Z; wg : Z; wh : Z }.

Definition initial_chain : chain :=
  Chain 0x6a09e667 0xbb67ae85 0x3c6ef372 0xa54ff53a
        0x510e527f 0x9b05688c 0x1f83d9ab 0x5be0cd19.

(** First inner loop: [w[i] = view.getUint32(offset + i * 4)]. *)
Definition load_words (view : list byte) (offset : Z) (w : list Z) : list Z :=
  for_loop 0 16 1
    (fun i w => Uint32Array_store w i (getUint32 view (offset + i * 4))) w.

(** Second inner loop: the message schedule. *)
Definition extend_words (w : list Z) : list Z :=
  for_loop 16 64 1
    (fun i w =>
       let s0 := JS.bxor (JS.bxor (rightRotate (rd w (i - 15)) 7)
                                  (rightRotate (rd w (i - 15)) 18))
                         (JS.shr (rd w (i - 15)) 3) in
       let s1 := JS.bxor (JS.bxor (rightRotate (rd w (i - 2)) 17)
                                  (rightRotate (rd w (i - 2)) 19))
                         (JS.shr (rd w (i - 2)) 10) in
       Uint32Array_store w i
         (JS.shr (JS.bor (rd w (i - 16) + s0) 0 + JS.bor (rd w (i - 7) + s1) 0) 0))
    w.

(** One pass of the round loop body. *)
Definition round (w : list Z) (i : Z) (v : work) : work :=
  let '(Work a b c d e f g h) := v in
  let S1 := JS.bxor (JS.bxor (rightRotate e 6) (rightRotate e 11)) (rightRotate e 25) in
  let ch := JS.bxor (JS.band e f) (JS.band (JS.bnot e) g) in
  let temp1 :=
    JS.shr (JS.bor (JS.bor (h + S1) 0 + JS.bor (ch + rd SHA256_K i) 0) 0 + rd w i) 0 in
  let S0 := JS.bxor (JS.bxor (rightRotate a 2) (rightRotate a 13)) (rightRotate a 22) in
  let maj := JS.bxor (JS.bxor (JS.band a b) (JS.band a c)) (JS.band b c) in
  let temp2 := JS.shr (S0 + maj) 0 in
  Work (JS.shr (temp1 + temp2) 0) a b c (JS.shr (d + temp1) 0) e f g.

(** The body of the block loop; [w] is the one [Uint32Array] allocated
    before the loop and overwritten by every block. *)
Definition block (view : list byte) (offset : Z) (st : chain * list Z) : chain * list Z :=
  let '(H, w) := st in
  let w := extend_words (load_words view offset w) in
  let v := for_loop 0 64 1 (round w)
             (Work (h0 H) (h1 H) (h2 H) (h3 H) (h4 H) (h5 H) (h6 H) (h7 H)) in
  (Chain (JS.shr (h0 H + wa v) 0) (JS.shr (h1 H + wb v) 0)
         (JS.shr (h2 H + wc v) 0) (JS.shr (h3 H + wd v) 0)
         (JS.shr (h4 H + we v) 0) (JS.shr (h5 H + wf v) 0)
         (JS.shr (h6 H + wg v) 0) (JS.shr (h7 H + wh v) 0), w).

Definition paddedLength (message : list byte) : Z :=
  let length := Z.of_nat (List.length message) in
  let withOneByte := length + 1 in
  JS.ceil_div (withOneByte + 8) 64 * 64.

(** The padded buffer built before the block loop. *)
Definition padded_buffer (message : list byte) : list byte :=
  let length := Z.of_nat (List.length message) in
  let bitLength := length * 8 in
  let paddedLength := paddedLength message in
  let padded := Uint8Array_new paddedLength in
  let padded := Uint8Array_set padded message in
  let padded := Uint8Array_store padded length 0x80 in
  let high := bitLength / 2^32 in
  let low := JS.shr bitLength 0 in
  let padded := setUint32 padded (paddedLength - 8) high in
  setUint32 padded (paddedLength - 4) low.

Definition sha256 (message : list byte) : list byte :=
  let view := padded_buffer message in
  let '(H, _) :=
    for_loop 0 (paddedLength message) 64 (block view)
      (initial_chain, Uint32Array_new 64) in
  let result := Uint8Array_new 32 in
  let result := setUint32 result 0 (h0 H) in
  let result := setUint32 result 4 (h1 H) in
  let result := setUint32 result 8 (h2 H) in
  let result := setUint32 result 12 (h3 H) in
  let result := setUint32 result 16 (h4 H) in
  let result := setUint32 result 20 (h5 H) in
  let result := setUint32 result 24 (h6 H) in
  setUint32 result 28 (h7 H).

End Sha256.

(** ** SHA-256 as FIPS 180-4 defines it

    Written from the standard, independently of the source: words are the
    integers [0 .. 2^32 - 1], addition is modulo 2^32 (section 3.2), the
    constants are derived from the primes as section 4.2.2 and 5.3.3
    describe them, and the message is the byte string it is in the source
    (so its bit length is a multiple of eight). *)

Module FIPS.

Definition w : Z := 32.
Definition add32 (x y : Z) : Z := (x + y) mod 2^w.
Definition not32 (x : Z) : Z := 2^w - 1 - x.

(** Section 3.2: [SHR] and [ROTR]; the left shift discards the bits that
    leave the word. *)
Definition SHR (n x : Z) : Z := Z.shiftr x n.
Definition ROTR (n x : Z) : Z :=
  Z.lor (Z.shiftr x n) (Z.shiftl x (w - n) mod 2^w).

(** Section 4.1.2. *)
Definition Ch (x y z : Z) : Z := Z.lxor (Z.land x y) (Z.land (not32 x) z).
Definition Maj (x y z : Z) : Z :=
  Z.lxor (Z.lxor (Z.land x y) (Z.land x z)) (Z.land y z).
Definition Sigma0 (x : Z) : Z := Z.lxor (Z.lxor (ROTR 2 x) (ROTR 13 x)) (ROTR 22 x).
Definition Sigma1 (x : Z) : Z := Z.lxor (Z.lxor (ROTR 6 x) (ROTR 11 x)) (ROTR 25 x).
Definition sigma0 (x : Z) : Z := Z.lxor (Z.lxor (ROTR 7 x) (ROTR 18 x)) (SHR 3 x).
Definition sigma1 (x : Z) : Z := Z.lxor (Z.lxor (ROTR 17 x) (ROTR 19 x)) (SHR 10 x).

(** The first primes, by trial division. *)
Definition is_prime (n : Z) : bool :=
  (1 <? n) && forallb (fun d => negb (n mod Z.of_nat d =? 0)) (seq 2 (Z.to_nat n - 2)).
Definition primes : list Z := filter (fun n => is_prime n) (map Z.of_nat (seq 0 312)).

(** Integer cube root of a number below 2^(3 * bits), one bit at a time. *)
Fixpoint cube_root_bits (bits : nat) (n r : Z) : Z :=
  match bits with
  | O => r
  | Datatypes.S b =>
      let c := r + 2 ^ Z.of_nat b in
      cube_root_bits b n (if c ^ 3 <=? n then c else r)
  end.
Definition cube_root (n : Z) : Z := cube_root_bits 48 n 0.

(** Section 4.2.2: the first 32 bits of the fractional part of the cube
    root of the [t]-th prime.  Section 5.3.3: the same of the square root
    of the [i]-th prime. *)
Definition K (t : nat) : Z := cube_root (nth t primes 0 * 2^96) mod 2^32.
Definition H0 (i : nat) : Z := Z.sqrt (nth i primes 0 * 2^64) mod 2^32.

(** Section 5.1.1: the bit 1, then [k] zero bits with [k] the least
    solution of [l + 1 + k = 448 (mod 512)], then [l] as a 64-bit number.
    On bytes: 0x80 carries the bit 1 and seven of the zero bits. *)
Definition zero_bits (l : Z) : Z := (448 - (l + 1)) mod 512.

Definition big_endian (n : nat) (v : Z) : list byte :=
  map (fun i => u8 (v / 2 ^ (8 * Z.of_nat (n - 1 - i)))) (seq 0 n).

Definition pad (message : list byte) : list byte :=
  let l := 8 * Z.of_nat (length message) in
  message ++ [u8 0x80] ++ replicate (Z.to_nat ((zero_bits l - 7) / 8)) x00
          ++ big_endian 8 l.

(** Section 5.2.1: word [t] of block [i] of the padded message. *)
Definition word_of (bs : list byte) : Z :=
  fold_left (fun acc b => acc * 256 + byte_val b) bs 0.
Definition M (padded : list byte) (i t : nat) : Z :=
  word_of (take 4 (drop (64 * i + 4 * t) padded)).

(** Section 6.2.2, step 1: the message schedule [W_0 .. W_63]. *)
Definition W_next (W : list Z) : Z :=
  let t := length W in
  add32 (add32 (add32 (sigma1 (nth (t - 2) W 0)) (nth (t - 7) W 0))
               (sigma0 (nth (t - 15) W 0)))
        (nth (t - 16) W 0).
Definition schedule (padded : list byte) (i : nat) : list Z :=
  Nat.iter 48 (fun W => W ++ [W_next W]) (map (M padded i) (seq 0 16)).

(** Section 6.2.2, step 3: one round on the working variables
    [(a, b, c, d, e, f, g, h)]. *)
Definition regs : Type := Z * Z * Z * Z * Z * Z * Z * Z.
Definition step (W : list Z) (v : regs) (t : nat) : regs :=
  let '(a, b, c, d, e, f, g, h) := v in
  let T1 := add32 (add32 (add32 (add32 h (Sigma1 e)) (Ch e f g)) (K t)) (nth t W 0) in
  let T2 := add32 (Sigma0 a) (Maj a b c) in
  (add32 T1 T2, a, b, c, add32 d T1, e, f, g).

(** Section 6.2.2, steps 2 to 4 for block [i]. *)
Definition compress (padded : list byte) (H : regs) (i : nat) : regs :=
  let '(a, b, c, d, e, f, g, h) :=
    fold_left (step (schedule padded i)) (seq 0 64) H in
  let '(H0, H1, H2, H3, H4, H5, H6, H7) := H in
  (add32 a H0, add32 b H1, add32 c H2, add32 d H3,
   add32 e H4, add32 f H5, add32 g H6, add32 h H7).

Definition SHA256 (message : list byte) : list byte :=
  let padded := pad message in
  let N := (length padded / 64)%nat in
  let '(H0, H1, H2, H3, H4, H5, H6, H7) :=
    fold_left (compress padded) (seq 0 N)
      (H0 0%nat, H0 1%nat, H0 2%nat, H0 3%nat, H0 4%nat, H0 5%nat, H0 6%nat, H0 7%nat) in
  concat (map (big_endian 4) [H0; H1; H2; H3; H4; H5; H6; H7]).

End FIPS.

(** ** JavaScript strings *)

Abbreviation jsstring := (list Z).

(** A string literal of the source (ASCII). *)
Definition js (s : string) : jsstring :=
  map (fun c => Z.of_nat (nat_of_ascii c)) (list_ascii_of_string s).

(** [s[i]] used as a string: the one-character string at [i], or what
    [undefined] concatenates as when [i] is outside the string. *)
Definition char_at (s : jsstring) (i : Z) : option Z :=
  if i <? 0 then None else s !! Z.to_nat i.

Definition index_str (s : jsstring) (i : Z) : jsstring :=
  match char_at s i with
  | Some c => [c]
  | None => js "undefined"
  end.

(** [s.indexOf(c)] for what [t[i]] evaluates to: the first position of the
    character, or -1; [undefined] is searched for as the text "undefined". *)
Fixpoint index_from (s : jsstring) (c : Z) (pos : Z) : Z :=
  match s with
  | [] => -1
  | x :: s' => if x =? c then pos else index_from s' c (pos + 1)
  end.

Fixpoint is_prefix (p s : jsstring) : bool :=
  match p, s with
  | [], _ => true
  | _ :: _, [] => false
  | a :: p', b :: s' => (a =? b) && is_prefix p' s'
  end.

Fixpoint index_of_text (s t : jsstring) (pos : Z) : Z :=
  if is_prefix t s then pos
  else match s with
       | [] => -1
       | _ :: s' => index_of_text s' t (pos + 1)
       end.

Definition indexOf (s : jsstring) (c : option Z) : Z :=
  match c with
  | Some c => index_from s c 0
  | None => index_of_text s (js "undefined") 0
  end.

(** [s.replace(/c/g, d)] for a single character [c]. *)
Definition replace_all (c d : Z) (s : jsstring) : jsstring :=
  map (fun x => if x =? c then d else x) s.

(** [s.replace(/c+$/g, '')]: the leftmost position from which the rest of
    the string is a non-empty run of [c] is where the only match starts. *)
Fixpoint remove_trailing (c : Z) (s : jsstring) : jsstring :=
  match s with
  | [] => []
  | x :: s' => if forallb (fun y => y =? c) (x :: s') then [] else x :: remove_trailing c s'
  end.

(** [s.padEnd(n, c)] for a single character [c]. *)
Definition padEnd (s : jsstring) (n : Z) (c : Z) : jsstring :=
  s ++ replicate (Z.to_nat (n - Z.of_nat (length s))) c.

Definition PKCE_CHARSET : jsstring :=
  js "ABCDEFGHIJKLMNOPQRSTUVWXYZabcdefghijklmnopqrstuvwxyz0123456789-._~".
Definition BASE64_CHARS : jsstring :=
  js "ABCDEFGHIJKLMNOPQRSTUVWXYZabcdefghijklmnopqrstuvwxyz0123456789+/".

Definition chr (c : ascii) : Z := Z.of_nat (nat_of_ascii c).

(** ** Base64URL *)

(** The body of the loop of [bytesToBase64]. *)
Definition encode_step (bytes : list byte) (i : Z) (result : jsstring) : jsstring :=
  let len := Z.of_nat (length bytes) in
  let a := rd8 bytes i in
  let b := if i + 1 <? len then rd8 bytes (i + 1) else 0 in
  let c := if i + 2 <? len then rd8 bytes (i + 2) else 0 in
  let triple := JS.bor (JS.bor (JS.shl a 16) (JS.shl b 8)) c in
  let result := result ++ index_str BASE64_CHARS (JS.band (JS.sar triple 18) 63) in
  let result := result ++ index_str BASE64_CHARS (JS.band (JS.sar triple 12) 63) in
  let result :=
    result ++ (if i + 1 <? len
               then index_str BASE64_CHARS (JS.band (JS.sar triple 6) 63)
               else js "=") in
  result ++ (if i + 2 <? len
             then index_str BASE64_CHARS (JS.band triple 63)
             else js "=").

Definition bytesToBase64 (bytes : list byte) : jsstring :=
  for_loop 0 (Z.of_nat (length bytes)) 3 (encode_step bytes) [].

Definition toBase64Url (base64 : jsstring) : jsstring :=
  remove_trailing (chr "=")
    (replace_all (chr "/") (chr "_") (replace_all (chr "+") (chr "-") base64)).

(** The body of the loop of [base64UrlToString]. *)
Definition decode_step (padded : jsstring) (i : Z) (bytes : list Z) : list Z :=
  let c1 := indexOf BASE64_CHARS (char_at padded i) in
  let c2 := indexOf BASE64_CHARS (char_at padded (i + 1)) in
  let c3 := if bool_decide (char_at padded (i + 2) = Some (chr "=")) then -1
            else indexOf BASE64_CHARS (char_at padded (i + 2)) in
  let c4 := if bool_decide (char_at padded (i + 3) = Some (chr "=")) then -1
            else indexOf BASE64_CHARS (char_at padded (i + 3)) in
  let chunk :=
    JS.bor (JS.bor (JS.bor (JS.shl c1 18) (JS.shl c2 12))
                   (JS.shl (if c3 <? 0 then 0 else c3) 6))
           (if c4 <? 0 then 0 else c4) in
  let bytes := bytes ++ [JS.band (JS.sar chunk 16) 0xff] in
  let bytes := if 0 <=? c3 then bytes ++ [JS.band (JS.sar chunk 8) 0xff] else bytes in
  if 0 <=? c4 then bytes ++ [JS.band chunk 0xff] else bytes.

(** [base64UrlToString] up to the array [bytes] it fills. *)
Definition base64UrlToBytes (input : jsstring) : list Z :=
  let base64 := replace_all (chr "_") (chr "/") (replace_all (chr "-") (chr "+") input) in
  let padded :=
    padEnd base64 (JS.ceil_div (Z.of_nat (length base64)) 4 * 4) (chr "=") in
  for_loop 0 (Z.of_nat (length padded)) 4 (decode_step padded) [].

(** [String.fromCharCode] of each element. *)
Definition fromCharCodes (bytes : list Z) : jsstring := map (fun b => b mod 2^16) bytes.

(** [base64UrlToString]; [decode] is what [new TextDecoder().decode] does on
    the platform, [None] when it throws. *)
Definition base64UrlToString (decode : list byte -> option jsstring) (input : jsstring) : jsstring :=
  let bytes := base64UrlToBytes input in
  let output := fromCharCodes bytes in
  match decode (map u8 bytes) with
  | Some text => text
  | None => output
  end.

(** Helpers for writing examples: a string of the source as text, the
    bytes of an ASCII text, and bytes in hexadecimal. *)
Definition to_string (s : jsstring) : string :=
  string_of_list_ascii (map (fun c => ascii_of_nat (Z.to_nat c)) s).
Definition bytes_of (s : string) : list byte := map (fun c => u8 (chr c)) (list_ascii_of_string s).
Definition hex_digit (d : Z) : ascii := nth (Z.to_nat d) (list_ascii_of_string "0123456789abcdef") "?"%char.
Definition hex_of_bytes (l : list byte) : string :=
  string_of_list_ascii
    (concat (map (fun b => [hex_digit (byte_val b / 16); hex_digit (byte_val b mod 16)]) l)).

(** ** The platform's UTF-8 codec

    [TextEncoder] and [TextDecoder] belong to the host, not to the
    repository.  The model below follows the WHATWG Encoding Standard: the
    UTF-8 decoder in replacement mode (the default of [new TextDecoder()]),
    with the leading byte order mark removed, and the UTF-8 encoder on the
    scalar values of the string. *)

Module Utf8.

Record state := State { code_point : Z; bytes_seen : Z; bytes_needed : Z; lower : Z; upper : Z }.

Definition initial : state := State 0 0 0 0x80 0xBF.

Definition between (lo hi b : Z) : bool := (lo <=? b) && (b <=? hi).

(** A byte read while no sequence is open. *)
Definition lead (b : Z) : state * list Z :=
  if between 0x00 0x7F b then (initial, [b])
  else if between 0xC2 0xDF b then (State (Z.land b 0x1F) 0 1 0x80 0xBF, [])
  else if between 0xE0 0xEF b then
    (State (Z.land b 0xF) 0 2 (if b =? 0xE0 then 0xA0 else 0x80)
           (if b =? 0xED then 0x9F else 0xBF), [])
  else if between 0xF0 0xF4 b then
    (State (Z.land b 0x7) 0 3 (if b =? 0xF0 then 0x90 else 0x80)
           (if b =? 0xF4 then 0x8F else 0xBF), [])
  else (initial, [0xFFFD]).

Definition step (st : state) (b : Z) : state * list Z :=
  if bytes_needed st =? 0 then lead b
  else if negb (between (lower st) (upper st) b) then
    let '(st', out) := lead b in (st', 0xFFFD :: out)
  else
    let cp := Z.lor (Z.shiftl (code_point st) 6) (Z.land b 0x3F) in
    if bytes_seen st + 1 =? bytes_needed st then (initial, [cp])
    else (State cp (bytes_seen st + 1) (bytes_needed st) 0x80 0xBF, []).

Fixpoint run (st : state) (bytes : list byte) : list Z :=
  match bytes with
  | [] => if bytes_needed st =? 0 then [] else [0xFFFD]
  | b :: bytes' => let '(st', out) := step st (byte_val b) in out ++ run st' bytes'
  end.

(** A code point as UTF-16 code units. *)
Definition utf16 (cp : Z) : jsstring :=
  if cp <? 0x10000 then [cp]
  else [0xD800 + Z.shiftr (cp - 0x10000) 10; 0xDC00 + Z.land (cp - 0x10000) 0x3FF].

Definition strip_bom (cps : list Z) : list Z :=
  match cps with
  | 0xFEFF :: rest => rest
  | _ => cps
  end.

Definition decode (bytes : list byte) : jsstring :=
  concat (map utf16 (strip_bom (run initial bytes))).

(** The scalar values of a string: surrogate pairs combine, a lone
    surrogate becomes U+FFFD. *)
Fixpoint scalars (pending : option Z) (s : jsstring) : list Z :=
  match s with
  | [] => match pending with Some _ => [0xFFFD] | None => [] end
  | c :: s' =>
      let alone :=
        if between 0xD800 0xDBFF c then scalars (Some c) s'
        else if between 0xDC00 0xDFFF c then 0xFFFD :: scalars None s'
        else c :: scalars None s' in
      match pending with
      | Some h =>
          if between 0xDC00 0xDFFF c
          then (0x10000 + Z.shiftl (h - 0xD800) 10 + (c - 0xDC00)) :: scalars None s'
          else 0xFFFD :: alone
      | None => alone
      end
  end.

Definition encode_scalar (cp : Z) : list byte :=
  if cp <? 0x80 then [u8 cp]
  else if cp <? 0x800 then
    [u8 (Z.lor 0xC0 (Z.shiftr cp 6)); u8 (Z.lor 0x80 (Z.land cp 0x3F))]
  else if cp <? 0x10000 then
    [u8 (Z.lor 0xE0 (Z.shiftr cp 12)); u8 (Z.lor 0x80 (Z.land (Z.shiftr cp 6) 0x3F));
     u8 (Z.lor 0x80 (Z.land cp 0x3F))]
  else
    [u8 (Z.lor 0xF0 (Z.shiftr cp 18)); u8 (Z.lor 0x80 (Z.land (Z.shiftr cp 12) 0x3F));
     u8 (Z.lor 0x80 (Z.land (Z.shiftr cp 6) 0x3F)); u8 (Z.lor 0x80 (Z.land cp 0x3F))].

Definition encode (s : jsstring) : list byte :=
  concat (map encode_scalar (scalars None s)).

End Utf8.

(** ** Base64 as RFC 4648 defines it

    Written from the standard (section 4 and, for the URL-safe alphabet,
    section 5): three bytes are four 6-bit digits, most significant first;
    a final group of one or two bytes is padded with zero bits and written
    with two or one ['='] characters. *)

Module RFC4648.

(** Table 1: the character that stands for a 6-bit digit. *)
Definition digit_char (d : Z) : Z :=
  if d <? 26 then chr "A" + d
  else if d <? 52 then chr "a" + (d - 26)
  else if d <? 62 then chr "0" + (d - 52)
  else if d =? 62 then chr "+"
  else chr "/".

Fixpoint encode (bytes : list byte) : jsstring :=
  match bytes with
  | [] => []
  | [x] =>
      let a := byte_val x in
      [digit_char (a / 4); digit_char (a mod 4 * 16); chr "="; chr "="]
  | [x; y] =>
      let a := byte_val x in
      let b := byte_val y in
      [digit_char (a / 4); digit_char (a mod 4 * 16 + b / 16);
       digit_char (b mod 16 * 4); chr "="]
  | x :: y :: z :: rest =>
      let a := byte_val x in
      let b := byte_val y in
      let c := byte_val z in
      [digit_char (a / 4); digit_char (a mod 4 * 16 + b / 16);
       digit_char (b mod 16 * 4 + c / 64); digit_char (c mod 64)] ++ encode rest
  end.

(** Section 5: the URL-safe alphabet differs in the characters for 62 and
    63. *)
Definition url_char (c : Z) : Z :=
  if c =? chr "+" then chr "-" else if c =? chr "/" then chr "_" else c.

(** Section 5 with the padding left out (section 3.2). *)
Fixpoint encode_url (bytes : list byte) : jsstring :=
  match bytes with
  | [] => []
  | [x] =>
      let a := byte_val x in
      map url_char [digit_char (a / 4); digit_char (a mod 4 * 16)]
  | [x; y] =>
      let a := byte_val x in
      let b := byte_val y in
      map url_char [digit_char (a / 4); digit_char (a mod 4 * 16 + b / 16);
                    digit_char (b mod 16 * 4)]
  | x :: y :: z :: rest =>
      let a := byte_val x in
      let b := byte_val y in
      let c := byte_val z in
      map url_char [digit_char (a / 4); digit_char (a mod 4 * 16 + b / 16);
                    digit_char (b mod 16 * 4 + c / 64); digit_char (c mod 64)]
      ++ encode_url rest
  end.

(** The characters [A-Za-z0-9-_]. *)
Definition url_safe (c : Z) : bool :=
  ((chr "A" <=? c) && (c <=? chr "Z")) || ((chr "a" <=? c) && (c <=? chr "z"))
  || ((chr "0" <=? c) && (c <=? chr "9")) || (c =? chr "-") || (c =? chr "_").

End RFC4648.

(** The unreserved characters of RFC 7636, section 4.1: [A-Za-z0-9-._~]. *)
Definition pkce_unreserved (c : Z) : bool :=
  ((chr "A" <=? c) && (c <=? chr "Z")) || ((chr "a" <=? c) && (c <=? chr "z"))
  || ((chr "0" <=? c) && (c <=? chr "9"))
  || (c =? chr "-") || (c =? chr ".") || (c =? chr "_") || (c =? chr "~").

(** ** Values, errors and the platform *)

(** A JavaScript value as far as the source looks at one: [typeof] and, for
    strings, the text. *)
Inductive jsval :=
| VUndefined
| VNull
| VBool (b : bool)
| VNumber (n : Z)
| VString (s : jsstring)
| VArray (items : list jsstring).

(** [throw new Error(message)]. *)
Inductive exn := Error (message : jsstring).

(** The truth value of a string: false exactly for the empty string. *)
Definition truthy (s : jsstring) : bool :=
  match s with
  | [] => false
  | _ :: _ => true
  end.

(** [value ?? fallback]. *)
Definition nullish {A : Type} (value : option A) (fallback : A) : A :=
  match value with
  | Some v => v
  | None => fallback
  end.

(** [String(n)] for an integer. *)
Fixpoint digits (fuel : nat) (n : Z) (acc : jsstring) : jsstring :=
  match fuel with
  | O => acc
  | Datatypes.S fuel' =>
      let acc := (chr "0" + n mod 10) :: acc in
      if n <? 10 then acc else digits fuel' (n / 10) acc
  end.
Definition Number_toString (n : Z) : jsstring :=
  if n <? 0 then chr "-" :: digits (Z.to_nat (- n)) (- n) []
  else digits (Datatypes.S (Z.to_nat n)) n [].

Record SocialAuthProfile := {
  externalId : jsstring;
  name : jsstring;
  email : option jsstring;
  avatarUrl : option jsstring
}.

Record OAuthSessionResult := { code : jsstring }.

Record LineTokenResponse := {
  line_access_token : jsstring;
  id_token : option jsstring;
  line_token_type : jsstring;
  line_expires_in : Z
}.

Record LineProfileResponse := {
  userId : option jsstring;
  displayName : option jsstring;
  pictureUrl : option jsstring
}.

Record XTokenResponse := {
  x_token_type : jsstring;
  x_expires_in : option Z;
  x_access_token : jsstring;
  refresh_token : option jsstring;
  scope : option jsstring
}.

(** The type declares [id] a string; the source still tests it, and a JSON
    body can lack it, so it is optional here. *)
Record XUser := {
  id : option jsstring;
  x_name : option jsstring;
  username : option jsstring;
  profile_image_url : option jsstring
}.

Record XMeResponse := { data : option XUser }.

Record JwtPayload := {
  sub : option jsstring;
  jwt_name : option jsstring;
  jwt_email : option jsstring
}.

(** What [Linking.parse] returns, as far as it is read. *)
Record ParsedURL := { queryParams : option (gmap string jsval) }.

(** The host: the environment and the library functions the source calls.
    - [process_env]: [process.env];
    - [Linking_createURL path scheme], [Linking_parse]: expo-linking;
    - [URLSearchParams_toString]: the form encoding of a parameter list;
    - [TextDecoder_decode]: [new TextDecoder().decode], [None] when it
      throws (also when there is no [TextDecoder]);
    - [JSON_parse]: [JSON.parse] read through the cast to [JwtPayload],
      [None] when it throws. *)
Record Platform := {
  process_env : gmap string jsstring;
  Linking_createURL : jsstring -> jsstring -> jsstring;
  Linking_parse : jsstring -> ParsedURL;
  URLSearchParams_toString : list (jsstring * jsstring) -> jsstring;
  TextDecoder_decode : list byte -> option jsstring;
  JSON_parse : jsstring -> option JwtPayload
}.

(** The source of random bytes: [secure] says whether
    [globalThis.crypto?.getRandomValues] exists; [draws i] is the value
    written at index [i] of the array, by [getRandomValues] or as
    [Math.floor(Math.random() * 256)]. *)
Record Rng := { secure : bool; draws : nat -> Z }.

Definition advance (n : nat) (rng : Rng) : Rng :=
  {| secure := secure rng; draws := fun i => draws rng (n + i)%nat |}.

(** ** Interactive flows

    An [async] function that awaits the browser session and [fetch]: a tree
    whose nodes are the calls and whose leaves are the value returned or
    the error thrown. *)

Record RequestInit := {
  method : option jsstring;
  headers : list (jsstring * jsstring);
  body : option jsstring
}.

Record AuthSessionResult := { type : jsstring; url : jsval }.

Record Response (T : Type) := {
  ok : bool;
  status : Z;
  text : jsstring;
  json : T
}.
Arguments ok {T}.
Arguments status {T}.
Arguments text {T}.
Arguments json {T}.

(** The type a response body is cast to where it is read. *)
Inductive Body := LineTokenBody | LineProfileBody | XTokenBody | XMeBody.

Definition body_type (b : Body) : Type :=
  match b with
  | LineTokenBody => LineTokenResponse
  | LineProfileBody => LineProfileResponse
  | XTokenBody => XTokenResponse
  | XMeBody => XMeResponse
  end.

Inductive Call : Type -> Type :=
| openAuthSessionAsync (authUrl redirectUri : jsstring) : Call AuthSessionResult
| fetch (b : Body) (url : jsstring) (init : RequestInit) : Call (Response (body_type b)).

Inductive Flow (A : Type) : Type :=
| Ret (a : A)
| Throw (e : exn)
| Vis (X : Type) (c : Call X) (k : X -> Flow A).
Arguments Ret {A}.
Arguments Throw {A}.
Arguments Vis {A X}.

Fixpoint bind {A B : Type} (m : Flow A) (f : A -> Flow B) : Flow B :=
  match m with
  | Ret a => f a
  | Throw e => Throw e
  | Vis c k => Vis c (fun x => bind (k x) f)
  end.

Definition await {X : Type} (c : Call X) : Flow X := Vis c Ret.

(** A synchronous call that returns or throws. *)
Definition lift {A : Type} (r : exn + A) : Flow A :=
  match r with
  | inl e => Throw e
  | inr a => Ret a
  end.

#[global] Instance Flow_bind : MBind Flow := fun A B f m => bind m f.
#[global] Instance Flow_ret : MRet Flow := fun A a => Ret a.

(** The calls a flow makes against a host that answers them, and its
    outcome. *)
Inductive Request :=
| AuthRequest (authUrl redirectUri : jsstring)
| FetchRequest (url : jsstring) (init : RequestInit).

Definition request_of {X : Type} (c : Call X) : Request :=
  match c with
  | openAuthSessionAsync authUrl redirectUri => AuthRequest authUrl redirectUri
  | fetch _ url init => FetchRequest url init
  end.

Definition World : Type := forall X : Type, Call X -> X.

Fixpoint run {A : Type} (w : World) (m : Flow A) : (exn + A) * list Request :=
  match m with
  | Ret a => (inr a, [])
  | Throw e => (inl e, [])
  | Vis c k => let '(r, log) := run w (k (w _ c)) in (r, request_of c :: log)
  end.

(** ** The source, function by function *)

Definition LINE_AUTHORIZE_URL : jsstring := js "https://access.line.me/oauth2/v2.1/authorize".
Definition LINE_TOKEN_URL : jsstring := js "https://api.line.me/oauth2/v2.1/token".
Definition LINE_PROFILE_URL : jsstring := js "https://api.line.me/v2/profile".
Definition X_AUTHORIZE_URL : jsstring := js "https://twitter.com/i/oauth2/authorize".
Definition X_TOKEN_URL : jsstring := js "https://api.twitter.com/2/oauth2/token".
Definition X_ME_URL : jsstring :=
  js "https://api.twitter.com/2/users/me?user.fields=name,username,profile_image_url".
Definition REDIRECT_PATH : jsstring := js "auth/callback".

(** White space as [String.prototype.trim] and the class [\s] have it. *)
Definition is_space (c : Z) : bool :=
  ((9 <=? c) && (c <=? 13)) || (c =? 32) || (c =? 0xA0) || (c =? 0x1680)
  || ((0x2000 <=? c) && (c <=? 0x200A)) || (c =? 0x2028) || (c =? 0x2029)
  || (c =? 0x202F) || (c =? 0x205F) || (c =? 0x3000) || (c =? 0xFEFF).

Fixpoint trimStart (s : jsstring) : jsstring :=
  match s with
  | c :: s' => if is_space c then trimStart s' else s
  | [] => []
  end.

Definition trim (s : jsstring) : jsstring := rev (trimStart (rev (trimStart s))).

Fixpoint strip_prefix (p s : jsstring) : option jsstring :=
  match p, s with
  | [], _ => Some s
  | a :: p', b :: s' => if a =? b then strip_prefix p' s' else None
  | _ :: _, [] => None
  end.

(** The test of the regular expression in [getRedirectUri] (the scheme
    https, then one or more characters that are none of slash, question
    mark, hash or white space, then any characters but white space, up to
    the end): after the scheme a first character of the first class, and no
    white space anywhere after it. *)
Definition is_https_url (s : jsstring) : bool :=
  match strip_prefix (js "https://") s with
  | Some (c :: rest) =>
      negb ((c =? chr "/") || (c =? chr "?") || (c =? chr "#") || is_space c)
      && forallb (fun x => negb (is_space x)) rest
  | _ => false
  end.

Definition getRequiredEnv (P : Platform) (name : string) : exn + jsstring :=
  match process_env P !! name with
  | Some value =>
      if truthy value then inr value
      else inl (Error (js "Missing environment variable: " ++ js name))
  | None => inl (Error (js "Missing environment variable: " ++ js name))
  end.

Definition getRedirectUri (P : Platform) : exn + jsstring :=
  let configured := option_map trim (process_env P !! "EXPO_PUBLIC_OAUTH_REDIRECT_URI"%string) in
  match configured with
  | Some configured =>
      if truthy configured then
        if negb (is_https_url configured) then
          inl (Error (js "EXPO_PUBLIC_OAUTH_REDIRECT_URI must be a valid https URL. Example: https://your-app.vercel.app/auth/callback"))
        else inr configured
      else inr (Linking_createURL P REDIRECT_PATH (js "mugimaru"))
  | None => inr (Linking_createURL P REDIRECT_PATH (js "mugimaru"))
  end.

Definition normalizeString (value : jsval) : jsstring :=
  match value with
  | VString s => s
  | _ => []
  end.

Definition toQueryString (P : Platform) (values : list (jsstring * jsstring)) : jsstring :=
  URLSearchParams_toString P values.

(** What [crypto.getRandomValues] throws when it is given more than 65536
    bytes to fill: the [DOMException] named QuotaExceededError (its message
    differs between platforms; nothing below depends on it). *)
Definition QuotaExceededError : exn := Error (js "QuotaExceededError").

(** [crypto.getRandomValues(array)]: an array of more than 65536 bytes is
    refused; otherwise byte [i] of the array becomes [draws rng i]. *)
Definition getRandomValues (rng : Rng) (array : list byte) : exn + list byte :=
  if 65536 <? Z.of_nat (List.length array) then inl QuotaExceededError
  else inr (map (fun i => u8 (draws rng i)) (seq 0 (List.length array))).

(** [randomString]: the array is filled by the platform, which can refuse,
    or byte by byte from [Math.random]; then one character of the set is
    taken for each element.  (A length for which [new Uint8Array] finds no
    memory is outside the model, as for every array here.) *)
Definition randomString (length : nat) (rng : Rng) : exn + (jsstring * Rng) :=
  let array := Uint8Array_new (Z.of_nat length) in
  let filled :=
    if secure rng then getRandomValues rng array
    else inr (for_loop 0 (Z.of_nat length) 1
                (fun i array => Uint8Array_store array i (draws rng (Z.to_nat i))) array) in
  match filled with
  | inl e => inl e
  | inr array =>
      let output :=
        for_loop 0 (Z.of_nat (List.length array)) 1
          (fun i output =>
             output ++ index_str PKCE_CHARSET
                         (rd8 array i mod Z.of_nat (List.length PKCE_CHARSET)))
          [] in
      inr (output, advance length rng)
  end.

(** [createCodeChallenge]; the promise it returns always resolves. *)
Definition createCodeChallenge (codeVerifier : jsstring) : jsstring :=
  let data := Utf8.encode codeVerifier in
  let digest := Sha256.sha256 data in
  toBase64Url (bytesToBase64 digest).

(** [obj[key]] on a record of query parameters. *)
Definition prop (obj : gmap string jsval) (key : string) : jsval :=
  match obj !! key with
  | Some v => v
  | None => VUndefined
  end.

Definition parseOAuthUrl (P : Platform) (url expectedState : jsstring)
    : exn + OAuthSessionResult :=
  let parsed := Linking_parse P url in
  let queryParams := nullish (queryParams parsed) ∅ in
  let error := normalizeString (prop queryParams "error") in
  let errorDescription := normalizeString (prop queryParams "error_description") in
  if truthy error then
    inl (Error (if truthy errorDescription
                then error ++ js ": " ++ errorDescription
                else error))
  else
    let state := normalizeString (prop queryParams "state") in
    if negb (truthy state) || negb (bool_decide (state = expectedState)) then
      inl (Error (js "Invalid OAuth state."))
    else
      let code := normalizeString (prop queryParams "code") in
      if negb (truthy code) then
        inl (Error (js "Authorization code was not returned by provider."))
      else inr {| code := code |}.

Record OAuthInput := {
  authorizeUrl : jsstring;
  authorizeParams : list (jsstring * jsstring);
  expectedState : jsstring
}.

Definition runOAuthCodeFlow (P : Platform) (input : OAuthInput) : Flow OAuthSessionResult :=
  redirectUri ← lift (getRedirectUri P);
  let query := toQueryString P (authorizeParams input) in
  let authUrl := authorizeUrl input ++ js "?" ++ query in
  result ← await (openAuthSessionAsync authUrl redirectUri);
  if negb (bool_decide (type result = js "success")) then
    Throw (Error (js "Authentication was cancelled."))
  else
    let returnUrl := normalizeString (url result) in
    if negb (truthy returnUrl) then
      Throw (Error (js "Provider did not return a callback URL."))
    else lift (parseOAuthUrl P returnUrl (expectedState input)).

(** [s.split('.')]. *)
Fixpoint split_on (sep : Z) (s : jsstring) : list jsstring :=
  match s with
  | [] => [[]]
  | c :: s' =>
      if c =? sep then [] :: split_on sep s'
      else match split_on sep s' with
           | part :: parts => (c :: part) :: parts
           | [] => [[c]]
           end
  end.

(** [try { body } catch { return fallback }]. *)
Definition try_catch {A : Type} (body : exn + A) (fallback : A) : exn + A :=
  match body with
  | inl _ => inr fallback
  | inr a => inr a
  end.

(** [JSON.parse(payload)], which throws on text that is not JSON. *)
Definition parse_json (P : Platform) (payload : jsstring) : exn + JwtPayload :=
  match JSON_parse P payload with
  | Some v => inr v
  | None => inl (Error (js "SyntaxError"))
  end.

Definition parseJwtPayload (P : Platform) (token : option jsstring)
    : exn + option JwtPayload :=
  match token with
  | None => inr None
  | Some token =>
      if negb (truthy token) then inr None
      else
        let parts := split_on (chr ".") token in
        if Z.of_nat (length parts) <? 2 then inr None
        else
          try_catch
            (let payload := base64UrlToString (TextDecoder_decode P) (nth 1 parts []) in
             match parse_json P payload with
             | inl e => inl e
             | inr v => inr (Some v)
             end)
            None
  end.

(** [!value] for an optional string. *)
Definition falsy (value : option jsstring) : bool :=
  match value with
  | Some s => negb (truthy s)
  | None => true
  end.

(** Lines 384 to 396 of [authenticateWithLine]: from the profile body and the
    token body to the profile returned. *)
Definition lineProfile (P : Platform) (profile : LineProfileResponse)
    (token : LineTokenResponse) : exn + SocialAuthProfile :=
  match parseJwtPayload P (id_token token) with
  | inl e => inl e
  | inr idPayload =>
      let externalId :=
        match userId profile with
        | Some u => Some u
        | None => idPayload ≫= sub
        end in
      if falsy externalId then inl (Error (js "LINE profile did not include user id."))
      else
        inr {| externalId := nullish externalId [];
               name := nullish (displayName profile)
                         (nullish (idPayload ≫= jwt_name) (js "LINE User"));
               email := idPayload ≫= jwt_email;
               avatarUrl := pictureUrl profile |}
  end.

Definition authenticateWithLine (P : Platform) (rng : Rng) : Flow SocialAuthProfile :=
  clientId ← lift (getRequiredEnv P "EXPO_PUBLIC_LINE_CHANNEL_ID");
  let channelSecret := process_env P !! "EXPO_PUBLIC_LINE_CHANNEL_SECRET"%string in
  redirectUri ← lift (getRedirectUri P);
  '(state, rng) ← lift (randomString 32 rng);
  '(codeVerifier, rng) ← lift (randomString 64 rng);
  let codeChallenge := createCodeChallenge codeVerifier in
  session ← runOAuthCodeFlow P
    {| authorizeUrl := LINE_AUTHORIZE_URL;
       authorizeParams :=
         [ (js "response_type", js "code");
           (js "client_id", clientId);
           (js "redirect_uri", redirectUri);
           (js "state", state);
           (js "scope", js "openid profile email");
           (js "code_challenge", codeChallenge);
           (js "code_challenge_method", js "S256") ];
       expectedState := state |};
  let tokenParams :=
    [ (js "grant_type", js "authorization_code");
      (js "code", code session);
      (js "redirect_uri", redirectUri);
      (js "client_id", clientId);
      (js "code_verifier", codeVerifier) ]
    ++ (if falsy channelSecret then []
        else [ (js "client_secret", nullish channelSecret []) ]) in
  tokenResponse ← await (fetch LineTokenBody LINE_TOKEN_URL
    {| method := Some (js "POST");
       headers := [ (js "Content-Type", js "application/x-www-form-urlencoded") ];
       body := Some (URLSearchParams_toString P tokenParams) |});
  if negb (ok tokenResponse) then
    Throw (Error (js "LINE token exchange failed (" ++ Number_toString (status tokenResponse)
                  ++ js "): " ++ text tokenResponse))
  else
    let token := json tokenResponse in
    profileResponse ← await (fetch LineProfileBody LINE_PROFILE_URL
      {| method := None;
         headers := [ (js "Authorization", js "Bearer " ++ line_access_token token) ];
         body := None |});
    if negb (ok profileResponse) then
      Throw (Error (js "LINE profile fetch failed (" ++ Number_toString (status profileResponse)
                    ++ js "): " ++ text profileResponse))
    else
      let profile := json profileResponse in
      lift (lineProfile P profile token).

(** Lines 457 to 468 of [authenticateWithX]. *)
Definition xProfile (me : XMeResponse) : exn + SocialAuthProfile :=
  let user := data me in
  if falsy (user ≫= id) then inl (Error (js "X profile did not include user id."))
  else
    inr {| externalId := nullish (user ≫= id) [];
           name := nullish (user ≫= x_name) (nullish (user ≫= username) (js "X User"));
           email := None;
           avatarUrl := user ≫= profile_image_url |}.

Definition authenticateWithX (P : Platform) (rng : Rng) : Flow SocialAuthProfile :=
  clientId ← lift (getRequiredEnv P "EXPO_PUBLIC_X_CLIENT_ID");
  let clientSecret := process_env P !! "EXPO_PUBLIC_X_CLIENT_SECRET"%string in
  redirectUri ← lift (getRedirectUri P);
  '(state, rng) ← lift (randomString 32 rng);
  '(codeVerifier, rng) ← lift (randomString 64 rng);
  let codeChallenge := createCodeChallenge codeVerifier in
  session ← runOAuthCodeFlow P
    {| authorizeUrl := X_AUTHORIZE_URL;
       authorizeParams :=
         [ (js "response_type", js "code");
           (js "client_id", clientId);
           (js "redirect_uri", redirectUri);
           (js "scope", js "tweet.read users.read offline.access");
           (js "state", state);
           (js "code_challenge", codeChallenge);
           (js "code_challenge_method", js "S256") ];
       expectedState := state |};
  let tokenParams :=
    [ (js "grant_type", js "authorization_code");
      (js "code", code session);
      (js "redirect_uri", redirectUri);
      (js "client_id", clientId);
      (js "code_verifier", codeVerifier) ]
    ++ (if falsy clientSecret then []
        else [ (js "client_secret", nullish clientSecret []) ]) in
  tokenResponse ← await (fetch XTokenBody X_TOKEN_URL
    {| method := Some (js "POST");
       headers := [ (js "Content-Type", js "application/x-www-form-urlencoded") ];
       body := Some (URLSearchParams_toString P tokenParams) |});
  if negb (ok tokenResponse) then
    Throw (Error (js "X token exchange failed (" ++ Number_toString (status tokenResponse)
                  ++ js "): " ++ text tokenResponse))
  else
    let token := json tokenResponse in
    meResponse ← await (fetch XMeBody X_ME_URL
      {| method := None;
         headers := [ (js "Authorization", js "Bearer " ++ x_access_token token) ];
         body := None |});
    if negb (ok meResponse) then
      Throw (Error (js "X profile fetch failed (" ++ Number_toString (status meResponse)
                    ++ js "): " ++ text meResponse))
    else
      let me := json meResponse in
      lift (xProfile me).

(** A host whose [Linking.parse] answers every URL with the given query
    parameters, for stating examples; nothing else of it is used there. *)
Definition host_with_query (params : gmap string jsval) : Platform :=
  {| process_env := ∅;
     Linking_createURL := fun path scheme => scheme ++ js "://" ++ path;
     Linking_parse := fun _ => {| queryParams := Some params |};
     URLSearchParams_toString := fun _ => [];
     TextDecoder_decode := fun bytes => Some (Utf8.decode bytes);
     JSON_parse := fun _ => None |}.

(** A host whose [JSON.parse] answers every text with the given payload. *)
Definition host_with_payload (payload : JwtPayload) : Platform :=
  {| process_env := ∅;
     Linking_createURL := fun path scheme => scheme ++ js "://" ++ path;
     Linking_parse := fun _ => {| queryParams := None |};
     URLSearchParams_toString := fun _ => [];
     TextDecoder_decode := fun bytes => Some (Utf8.decode bytes);
     JSON_parse := fun _ => Some payload |}.


(** A source of random bytes for examples. *)
Definition counting_rng : Rng := {| secure := true; draws := fun i => Z.of_nat (37 * i + 11) |}.

(** A host that refuses the browser session and every request. *)
Definition offline_world : World :=
  fun X c =>
    match c in Call X return X with
    | openAuthSessionAsync _ _ => {| type := js "cancel"; url := VUndefined |}
    | fetch b _ _ =>
        {| ok := false; status := 503; text := [];
           json := match b return body_type b with
                   | LineTokenBody =>
                       {| line_access_token := []; id_token := None;
                          line_token_type := []; line_expires_in := 0 |}
                   | LineProfileBody =>
                       {| userId := None; displayName := None; pictureUrl := None |}
                   | XTokenBody =>
                       {| x_token_type := []; x_expires_in := None; x_access_token := [];
                          refresh_token := None; scope := None |}
                   | XMeBody => {| data := None |}
                   end |}
    end.

(** A host and a provider that let the sign-in attempt of [counting_rng]
    through: the callback carries the state that was sent and a code, the
    token and profile requests answer 200. *)
Definition happy_host : Platform :=
  {| process_env :=
       {[ "EXPO_PUBLIC_LINE_CHANNEL_ID"%string := js "1650000000";
          "EXPO_PUBLIC_X_CLIENT_ID"%string := js "mugimaru-x" ]};
     Linking_createURL := fun path scheme => scheme ++ js "://" ++ path;
     Linking_parse := fun _ =>
       {| queryParams :=
            Some {[ "state"%string :=
                      match randomString 32 counting_rng with
                      | inr (state, _) => VString state
                      | inl _ => VUndefined
                      end;
                    "code"%string := VString (js "c0de") ]} |};
     URLSearchParams_toString := fun _ => [];
     TextDecoder_decode := fun bytes => Some (Utf8.decode bytes);
     JSON_parse := fun _ => Some {| sub := Some (js "U1"); jwt_name := None;
                                    jwt_email := Some (js "a@b.com") |} |}.

Definition happy_world : World :=
  fun X c =>
    match c in Call X return X with
    | openAuthSessionAsync _ _ =>
        {| type := js "success"; url := VString (js "mugimaru://auth/callback?q") |}
    | fetch b _ _ =>
        {| ok := true; status := 200; text := [];
           json := match b return body_type b with
                   | LineTokenBody =>
                       {| line_access_token := js "at"; id_token := Some (js "h.e30.s");
                          line_token_type := js "Bearer"; line_expires_in := 3600 |}
                   | LineProfileBody =>
                       {| userId := Some (js "U42"); displayName := None;
                          pictureUrl := None |}
                   | XTokenBody =>
                       {| x_token_type := js "bearer"; x_expires_in := None;
                          x_access_token := js "at"; refresh_token := None;
                          scope := None |}
                   | XMeBody =>
                       {| data := Some {| id := Some (js "42"); x_name := None;
                                          username := Some (js "mugi");
                                          profile_image_url := None |} |}
                   end |}
    end.

Definition outcome {A : Type} (w : World) (m : Flow A) : exn + A := fst (run w m).
Definition calls {A : Type} (w : World) (m : Flow A) : list Request := snd (run w m).

Definition is_string (v : jsval) : bool :=
  match v with
  | VString _ => true
  | _ => false
  end.

(** ** Invariants and relations of the proofs *)

Abbreviation U := JS.ToUint32.

(** Congruence modulo 2^32, sealed so that rewriting sees it as a relation. *)
Inductive eq32 (a b : Z) : Prop :=
| eq32_intro : U a = U b -> eq32 a b.

(** What a [Uint32Array] cell holds. *)
Definition word (x : Z) : Prop := 0 <= x < 2^32.

(** The working variables [a..h] of the source read as the registers of
    the standard, and the invariant of the round loop: after the [>>> 0] of
    the round each of them is a 32-bit word. *)
Definition regs_of_work (v : Sha256.work) : FIPS.regs :=
  (Sha256.wa v, Sha256.wb v, Sha256.wc v, Sha256.wd v,
   Sha256.we v, Sha256.wf v, Sha256.wg v, Sha256.wh v).

Definition work_ok (v : Sha256.work) : Prop :=
  word (Sha256.wa v) /\ word (Sha256.wb v) /\ word (Sha256.wc v) /\ word (Sha256.wd v) /\
  word (Sha256.we v) /\ word (Sha256.wf v) /\ word (Sha256.wg v) /\ word (Sha256.wh v).

(** The value the second loop stores at index [length W], read off the
    words [W] already in place. *)
Definition extend_value (W : list Z) : Z :=
  let i := Z.of_nat (length W) in
  let s0 := JS.bxor (JS.bxor (Sha256.rightRotate (rd W (i - 15)) 7)
                             (Sha256.rightRotate (rd W (i - 15)) 18))
                    (JS.shr (rd W (i - 15)) 3) in
  let s1 := JS.bxor (JS.bxor (Sha256.rightRotate (rd W (i - 2)) 17)
                             (Sha256.rightRotate (rd W (i - 2)) 19))
                    (JS.shr (rd W (i - 2)) 10) in
  U (JS.shr (JS.bor (rd W (i - 16) + s0) 0 + JS.bor (rd W (i - 7) + s1) 0) 0).

(** The same for the chaining values [h0..h7]. *)
Definition regs_of_chain (H : Sha256.chain) : FIPS.regs :=
  (Sha256.h0 H, Sha256.h1 H, Sha256.h2 H, Sha256.h3 H,
   Sha256.h4 H, Sha256.h5 H, Sha256.h6 H, Sha256.h7 H).

Definition chain_ok (H : Sha256.chain) : Prop :=
  word (Sha256.h0 H) /\ word (Sha256.h1 H) /\ word (Sha256.h2 H) /\ word (Sha256.h3 H) /\
  word (Sha256.h4 H) /\ word (Sha256.h5 H) /\ word (Sha256.h6 H) /\ word (Sha256.h7 H).

(** The state of the block loop (chaining values and the reused array [w])
    against the registers of the standard. *)
Definition block_rel (s : Sha256.chain * list Z) (r : FIPS.regs) : Prop :=
  regs_of_chain (fst s) = r /\ chain_ok (fst s) /\ length (snd s) = 64%nat.

(** The decoding loop of [base64UrlToString] on the padded text. *)
Definition decode_loop (padded : jsstring) : list Z :=
  for_loop 0 (Z.of_nat (length padded)) 4 (decode_step padded) [].

Abbreviation dc := RFC4648.digit_char.

(** A character of the standard Base64 alphabet. *)
Definition alpha (c : Z) : Prop := exists d, 0 <= d < 64 /\ c = dc d.

(** The messages of the errors that the source throws. *)
Definition invalid_state : exn := Error (js "Invalid OAuth state.").

Definition missing_code : exn := Error (js "Authorization code was not returned by provider.").

Definition missing_line_id : exn := Error (js "LINE profile did not include user id.").

Definition missing_x_id : exn := Error (js "X profile did not include user id.").

(** * More of the code *)

(** ** The requests of the two flows, piece by piece

    The values that [runOAuthCodeFlow], [authenticateWithLine] and
    [authenticateWithX] build on their way, under the names the source
    gives them, for stating what the flows send. *)

(** Lines 302 to 310 of [runOAuthCodeFlow]: from the answer of the browser
    session to the callback result. *)
Definition sessionOutcome (P : Platform) (result : AuthSessionResult)
    (expectedState : jsstring) : exn + OAuthSessionResult :=
  if negb (bool_decide (type result = js "success")) then
    inl (Error (js "Authentication was cancelled."))
  else
    let returnUrl := normalizeString (url result) in
    if negb (truthy returnUrl) then
      inl (Error (js "Provider did not return a callback URL."))
    else parseOAuthUrl P returnUrl expectedState.

(** [authorizeParams] of [authenticateWithLine] and of [authenticateWithX]. *)
Definition lineAuthorizeParams (clientId redirectUri state codeChallenge : jsstring)
    : list (jsstring * jsstring) :=
  [ (js "response_type", js "code");
    (js "client_id", clientId);
    (js "redirect_uri", redirectUri);
    (js "state", state);
    (js "scope", js "openid profile email");
    (js "code_challenge", codeChallenge);
    (js "code_challenge_method", js "S256") ].

Definition xAuthorizeParams (clientId redirectUri state codeChallenge : jsstring)
    : list (jsstring * jsstring) :=
  [ (js "response_type", js "code");
    (js "client_id", clientId);
    (js "redirect_uri", redirectUri);
    (js "scope", js "tweet.read users.read offline.access");
    (js "state", state);
    (js "code_challenge", codeChallenge);
    (js "code_challenge_method", js "S256") ].

(** [tokenParams], the same in both flows: the five parameters, and
    [client_secret] appended when the secret is configured and not empty. *)
Definition tokenParams (code redirectUri clientId codeVerifier : jsstring)
    (secret : option jsstring) : list (jsstring * jsstring) :=
  [ (js "grant_type", js "authorization_code");
    (js "code", code);
    (js "redirect_uri", redirectUri);
    (js "client_id", clientId);
    (js "code_verifier", codeVerifier) ]
  ++ (if falsy secret then [] else [ (js "client_secret", nullish secret []) ]).

(** The second argument of the token [fetch] and of the profile [fetch]. *)
Definition tokenRequestInit (P : Platform) (params : list (jsstring * jsstring))
    : RequestInit :=
  {| method := Some (js "POST");
     headers := [ (js "Content-Type", js "application/x-www-form-urlencoded") ];
     body := Some (URLSearchParams_toString P params) |}.

Definition bearerRequestInit (access_token : jsstring) : RequestInit :=
  {| method := None;
     headers := [ (js "Authorization", js "Bearer " ++ access_token) ];
     body := None |}.

(** The message of a response that is not [ok]. *)
Definition httpFailure {T : Type} (what : jsstring) (response : Response T) : exn :=
  Error (what ++ js " (" ++ Number_toString (status response) ++ js "): " ++ text response).

(** The query parameters [parseOAuthUrl] reads from a callback URL. *)
Definition callbackParams (P : Platform) (returnUrl : jsstring) : gmap string jsval :=
  nullish (queryParams (Linking_parse P returnUrl)) ∅.

(** A provider for examples: the browser session succeeds as in
    [happy_world]; the token request and the profile request answer with
    the given [ok] flags, a status and a text. *)
Definition answering_world (tokenOk profileOk : bool) : World :=
  fun X c =>
    match c in Call X return X with
    | openAuthSessionAsync _ _ =>
        {| type := js "success"; url := VString (js "mugimaru://auth/callback?q") |}
    | fetch b _ _ =>
        match b return Response (body_type b) with
        | LineTokenBody =>
            {| ok := tokenOk; status := if tokenOk then 200 else 400;
               text := js "invalid_grant";
               json := {| line_access_token := js "at"; id_token := None;
                          line_token_type := js "Bearer"; line_expires_in := 3600 |} |}
        | LineProfileBody =>
            {| ok := profileOk; status := if profileOk then 200 else 401;
               text := js "expired";
               json := {| userId := Some (js "U42"); displayName := None;
                          pictureUrl := None |} |}
        | XTokenBody =>
            {| ok := tokenOk; status := if tokenOk then 200 else 400;
               text := js "invalid_grant";
               json := {| x_token_type := js "bearer"; x_expires_in := None;
                          x_access_token := js "at"; refresh_token := None;
                          scope := None |} |}
        | XMeBody =>
            {| ok := profileOk; status := if profileOk then 200 else 401;
               text := js "expired";
               json := {| data := Some {| id := Some (js "42"); x_name := None;
                                          username := Some (js "mugi");
                                          profile_image_url := None |} |} |}
        end
    end.

(** ** The regular expression of [getRedirectUri]

    A regular expression without captures or look-around, as the source
    writes its pattern; [test] between [^] and [$] asks whether the whole
    string is in its language, which the derivatives decide. *)
Inductive regex : Type :=
| Void
| Eps
| Class (p : Z -> bool)
| Cat (r1 r2 : regex)
| Alt (r1 r2 : regex)
| Star (r : regex).

(** The text [s], [r+] and [(?:r)?]. *)
Definition lit (s : jsstring) : regex :=
  fold_right (fun c r => Cat (Class (Z.eqb c)) r) Eps s.
Definition plus (r : regex) : regex := Cat r (Star r).
Definition opt (r : regex) : regex := Alt r Eps.

Fixpoint nullable (r : regex) : bool :=
  match r with
  | Void => false
  | Eps => true
  | Class _ => false
  | Cat r1 r2 => nullable r1 && nullable r2
  | Alt r1 r2 => nullable r1 || nullable r2
  | Star _ => true
  end.

Fixpoint deriv (c : Z) (r : regex) : regex :=
  match r with
  | Void => Void
  | Eps => Void
  | Class p => if p c then Eps else Void
  | Cat r1 r2 =>
      if nullable r1 then Alt (Cat (deriv c r1) r2) (deriv c r2)
      else Cat (deriv c r1) r2
  | Alt r1 r2 => Alt (deriv c r1) (deriv c r2)
  | Star r => Cat (deriv c r) (Star r)
  end.

Definition test (r : regex) (s : jsstring) : bool :=
  nullable (fold_left (fun r c => deriv c r) s r).

(** The language of a regular expression. *)
Inductive matches : regex -> jsstring -> Prop :=
| matches_eps : matches Eps []
| matches_class (p : Z -> bool) (c : Z) : p c = true -> matches (Class p) [c]
| matches_cat (r1 r2 : regex) (s1 s2 : jsstring) :
    matches r1 s1 -> matches r2 s2 -> matches (Cat r1 r2) (s1 ++ s2)
| matches_alt_l (r1 r2 : regex) (s : jsstring) : matches r1 s -> matches (Alt r1 r2) s
| matches_alt_r (r1 r2 : regex) (s : jsstring) : matches r2 s -> matches (Alt r1 r2) s
| matches_star_nil (r : regex) : matches (Star r) []
| matches_star_cons (r : regex) (s1 s2 : jsstring) :
    matches r s1 -> matches (Star r) s2 -> matches (Star r) (s1 ++ s2).

(** The classes [[^/\s?#]] and [[^\s]], and the pattern between [^] and
    [$] of line 89: the scheme, one or more characters of the first class,
    then optionally any number of the second. *)
Definition host_char (c : Z) : bool :=
  negb ((c =? chr "/") || is_space c || (c =? chr "?") || (c =? chr "#")).
Definition not_space (c : Z) : bool := negb (is_space c).

Definition REDIRECT_URI_PATTERN : regex :=
  Cat (lit (js "https://"))
      (Cat (plus (Class host_char)) (opt (Star (Class not_space)))).

(** The error of [getRedirectUri]. *)
Definition invalid_redirect_uri : exn :=
  Error (js "EXPO_PUBLIC_OAUTH_REDIRECT_URI must be a valid https URL. Example: https://your-app.vercel.app/auth/callback").

(** A host with the client identifiers and the given redirect URI
    configured. *)
Definition host_with_redirect (uri : jsstring) : Platform :=
  {| process_env :=
       {[ "EXPO_PUBLIC_LINE_CHANNEL_ID"%string := js "1650000000";
          "EXPO_PUBLIC_X_CLIENT_ID"%string := js "mugimaru-x";
          "EXPO_PUBLIC_OAUTH_REDIRECT_URI"%string := uri ]};
     Linking_createURL := fun path scheme => scheme ++ js "://" ++ path;
     Linking_parse := fun _ => {| queryParams := None |};
     URLSearchParams_toString := fun _ => [];
     TextDecoder_decode := fun bytes => Some (Utf8.decode bytes);
     JSON_parse := fun _ => None |}.

(** ** The code challenge of the other revision

    [lib/social-auth.ts] asks the platform for the digest instead of
    computing it: [subtle] is what [globalThis.crypto?.subtle] offers, the
    digest function for ['SHA-256'] when there is one. *)
Module WebCrypto.

Definition createCodeChallenge (subtle : option (list byte -> list byte))
    (codeVerifier : jsstring) : exn + jsstring :=
  match subtle with
  | None => inl (Error (js "Web Crypto API is unavailable on this device."))
  | Some digest =>
      let data := Utf8.encode codeVerifier in
      inr (toBase64Url (bytesToBase64 (digest data)))
  end.

End WebCrypto.

(** ** The profile a social sign-in stores ([lib/auth-context.tsx]) *)

Module AuthContext.

(** ['line' | 'x' | 'email' | 'guest']. *)
Inductive AuthProvider := Line | X | Email | Guest.

Record UserProfile := {
  externalId : jsstring;
  name : jsstring;
  email : jsstring;
  avatarUrl : jsstring;
  bio : jsstring;
  dogName : jsstring;
  dogBreed : jsstring;
  provider : AuthProvider
}.

End AuthContext.

(** The text of a provider, as [createLocalExternalId(provider)] sees it. *)
Definition provider_text (provider : AuthContext.AuthProvider) : jsstring :=
  match provider with
  | AuthContext.Line => js "line"
  | AuthContext.X => js "x"
  | AuthContext.Email => js "email"
  | AuthContext.Guest => js "guest"
  end.

(** [createLocalExternalId]; [now] is the text of [Date.now()] and [random]
    that of [Math.random().toString(36).slice(2, 10)]. *)
Definition createLocalExternalId (now random : jsstring) (prefix : jsstring) : jsstring :=
  prefix ++ js ":" ++ now ++ js "-" ++ random.

(** Lines 106 to 115 of [loginWithSocial]: the profile built from what the
    flow returned; [toLowerCase] is [String.prototype.toLowerCase]. *)
Definition nextProfile (toLowerCase : jsstring -> jsstring) (now random : jsstring)
    (provider : AuthContext.AuthProvider) (socialProfile : SocialAuthProfile)
    : AuthContext.UserProfile :=
  {| AuthContext.externalId :=
       if truthy (externalId socialProfile) then externalId socialProfile
       else createLocalExternalId now random (provider_text provider);
     AuthContext.name :=
       if truthy (name socialProfile) then name socialProfile
       else match provider with
            | AuthContext.Line => js "LINE User"
            | _ => js "X User"
            end;
     AuthContext.email :=
       nullish (option_map (fun e => toLowerCase (trim e)) (email socialProfile)) [];
     AuthContext.avatarUrl := nullish (option_map trim (avatarUrl socialProfile)) [];
     AuthContext.bio := [];
     AuthContext.dogName := [];
     AuthContext.dogBreed := [];
     AuthContext.provider := provider |}.

(** ** The Supabase environment ([lib/supabase.ts]) *)

Definition SUPABASE_URL (P : Platform) : option jsstring :=
  process_env P !! "EXPO_PUBLIC_SUPABASE_URL"%string.

(** [process.env.EXPO_PUBLIC_SUPABASE_ANON_KEY ??
    process.env.EXPO_PUBLIC_SUPABASE_PUBLISHABLE_KEY]. *)
Definition SUPABASE_ANON_KEY (P : Platform) : option jsstring :=
  match process_env P !! "EXPO_PUBLIC_SUPABASE_ANON_KEY"%string with
  | Some key => Some key
  | None => process_env P !! "EXPO_PUBLIC_SUPABASE_PUBLISHABLE_KEY"%string
  end.

Definition requireSupabaseEnv (P : Platform) : exn + unit :=
  if falsy (SUPABASE_URL P) || falsy (SUPABASE_ANON_KEY P) then
    inl (Error (js "Missing Supabase env. Set EXPO_PUBLIC_SUPABASE_URL and EXPO_PUBLIC_SUPABASE_ANON_KEY."))
  else inr tt.

(** [Boolean(SUPABASE_URL && SUPABASE_ANON_KEY)]: [a && b] is [a] when
    [a] is falsy and [b] otherwise. *)
Definition hasSupabaseEnv (P : Platform) : bool :=
  negb (falsy (if falsy (SUPABASE_URL P) then SUPABASE_URL P else SUPABASE_ANON_KEY P)).

(** * Lemmas *)

(** ** Loops *)

Lemma for_fuel_enough {S : Type} (body : Z -> S -> S) (bound step : Z) :
  1 <= step ->
  forall (f1 f2 : nat) (i : Z) (s : S),
    bound - i <= step * Z.of_nat f1 -> bound - i <= step * Z.of_nat f2 ->
    for_fuel f1 i bound step body s = for_fuel f2 i bound step body s.
Proof.
  intros Hstep f1. induction f1 as [|f1 IH]; intros [|f2] i s H1 H2; simpl;
    destruct (Z.ltb_spec i bound); try reflexivity; try lia.
  apply IH; lia.
Qed.

Lemma for_loop_unfold {S : Type} (body : Z -> S -> S) (start bound step : Z) (s : S) :
  1 <= step ->
  for_loop start bound step body s
  = if start <? bound then for_loop (start + step) bound step body (body start s)
    else s.
Proof.
  intros Hstep. unfold for_loop.
  destruct (Z.ltb_spec start bound) as [Hlt|Hge].
  - rewrite (for_fuel_enough body bound step Hstep (Z.to_nat (bound - start))
               (Datatypes.S (Z.to_nat (bound - (start + step)))) start s) by nia.
    simpl. destruct (Z.ltb_spec start bound); [reflexivity | lia].
  - replace (Z.to_nat (bound - start)) with O by lia. reflexivity.
Qed.

(** A loop over [step * 0, step * 1, ..., step * (n - 1)] is a fold. *)
Lemma for_loop_fold {S : Type} (body : Z -> S -> S) (step : Z) (n : nat) :
  1 <= step ->
  forall (k : nat) (s : S),
    for_loop (step * Z.of_nat k) (step * Z.of_nat (k + n)) step body s
    = fold_left (fun s j => body (step * Z.of_nat j) s) (seq k n) s.
Proof.
  intros Hstep. induction n as [|n IH]; intros k s.
  - rewrite for_loop_unfold by lia. rewrite Nat.add_0_r.
    destruct (Z.ltb_spec (step * Z.of_nat k) (step * Z.of_nat k)); [lia | reflexivity].
  - rewrite for_loop_unfold by lia.
    destruct (Z.ltb_spec (step * Z.of_nat k) (step * Z.of_nat (k + Datatypes.S n))) as [_|Hge];
      [|nia].
    replace (step * Z.of_nat k + step) with (step * Z.of_nat (Datatypes.S k)) by lia.
    replace (k + Datatypes.S n)%nat with (Datatypes.S k + n)%nat by lia.
    rewrite IH. reflexivity.
Qed.

(** ** Bytes *)

Lemma byte_val_range (b : byte) : 0 <= byte_val b < 256.
Proof.
  unfold byte_val. pose proof (Byte.to_N_bounded b). lia.
Qed.


Lemma u8_byte_val (b : byte) : u8 (byte_val b) = b.
Proof.
  unfold u8, byte_val. rewrite Z.mod_small by (pose proof (Byte.to_N_bounded b); lia).
  rewrite N2Z.id, Byte.of_to_N. reflexivity.
Qed.

Lemma u8_mod (v : Z) : u8 (v mod 256) = u8 v.
Proof. unfold u8. rewrite Z.mod_mod by lia. reflexivity. Qed.

Lemma u8_eq (a b : Z) : a mod 256 = b mod 256 -> u8 a = u8 b.
Proof. intros H. unfold u8. rewrite H. reflexivity. Qed.

(** ** 32-bit words *)

Ltac zdiv := unfold JS.ToUint32, JS.ToInt32 in *; Z.to_euclidean_division_equations; lia.

Lemma U_range (x : Z) : 0 <= U x < 2^32.
Proof. apply Z.mod_pos_bound. lia. Qed.

Lemma U_small (x : Z) : 0 <= x < 2^32 -> U x = x.
Proof. apply Z.mod_small. Qed.

Lemma U_U (x : Z) : U (U x) = U x.
Proof. apply U_small, U_range. Qed.

Lemma U_ToInt32 (x : Z) : U (JS.ToInt32 x) = U x.
Proof. zdiv. Qed.

Lemma ToInt32_range (x : Z) : - 2^31 <= JS.ToInt32 x < 2^31.
Proof. zdiv. Qed.

Lemma ToInt32_small (x : Z) : - 2^31 <= x < 2^31 -> JS.ToInt32 x = x.
Proof. zdiv. Qed.

Lemma testbit_U (x i : Z) : 0 <= i -> Z.testbit (U x) i = (i <? 32) && Z.testbit x i.
Proof. intros _. unfold U. apply Z.testbit_mod_pow2. lia. Qed.

Lemma testbit_ToInt32 (x i : Z) : 0 <= i < 32 -> Z.testbit (JS.ToInt32 x) i = Z.testbit x i.
Proof.
  intros Hi. pose proof (testbit_U (JS.ToInt32 x) i) as H1.
  pose proof (testbit_U x i) as H2. rewrite U_ToInt32 in H1.
  destruct (Z.ltb_spec i 32); [|lia]. simpl in *. rewrite <- H1, H2 by lia. reflexivity.
Qed.

Lemma U_eq_bits (a b : Z) :
  (forall i, 0 <= i < 32 -> Z.testbit a i = Z.testbit b i) -> U a = U b.
Proof.
  intros H. apply Z.bits_inj'. intros i Hi. rewrite !testbit_U by lia.
  destruct (Z.ltb_spec i 32); simpl; [apply H; lia | reflexivity].
Qed.

Lemma U_lxor (a b : Z) : U (Z.lxor a b) = Z.lxor (U a) (U b).
Proof.
  apply Z.bits_inj'. intros i Hi. rewrite Z.lxor_spec, !testbit_U, Z.lxor_spec by lia.
  destruct (i <? 32); simpl; [reflexivity | reflexivity].
Qed.

Lemma U_land (a b : Z) : U (Z.land a b) = Z.land (U a) (U b).
Proof.
  apply Z.bits_inj'. intros i Hi. rewrite Z.land_spec, !testbit_U, Z.land_spec by lia.
  destruct (i <? 32); simpl; [reflexivity | reflexivity].
Qed.

Lemma U_lor (a b : Z) : U (Z.lor a b) = Z.lor (U a) (U b).
Proof.
  apply Z.bits_inj'. intros i Hi. rewrite Z.lor_spec, !testbit_U, Z.lor_spec by lia.
  destruct (i <? 32); simpl; [reflexivity | reflexivity].
Qed.

Lemma U_bxor (a b : Z) : U (JS.bxor a b) = Z.lxor (U a) (U b).
Proof. unfold JS.bxor. rewrite U_lxor, !U_ToInt32. reflexivity. Qed.

Lemma U_band (a b : Z) : U (JS.band a b) = Z.land (U a) (U b).
Proof. unfold JS.band. rewrite U_land, !U_ToInt32. reflexivity. Qed.

Lemma U_bnot (a : Z) : U (JS.bnot a) = FIPS.not32 (U a).
Proof.
  unfold JS.bnot, FIPS.not32, FIPS.w.
  replace (Z.lnot (JS.ToInt32 a)) with (- JS.ToInt32 a - 1) by (unfold Z.lnot; lia).
  zdiv.
Qed.

Lemma U_bor0 (a : Z) : U (JS.bor a 0) = U a.
Proof.
  unfold JS.bor. rewrite U_lor, !U_ToInt32.
  change (U 0) with 0. apply Z.lor_0_r.
Qed.

Lemma shr_small (a n : Z) : 0 <= n < 32 -> JS.shr a n = Z.shiftr (U a) n.
Proof.
  intros Hn. unfold JS.shr. rewrite (U_small n) by lia.
  rewrite (Z.mod_small n) by lia. reflexivity.
Qed.

Lemma shr0 (a : Z) : JS.shr a 0 = U a.
Proof. rewrite shr_small by lia. apply Z.shiftr_0_r. Qed.

Lemma shr_range (a n : Z) : 0 <= n < 32 -> 0 <= JS.shr a n < 2^32.
Proof.
  intros Hn. rewrite shr_small by lia. pose proof (U_range a) as Ha.
  rewrite Z.shiftr_div_pow2 by lia.
  assert (0 < 2 ^ n) by (apply Z.pow_pos_nonneg; lia).
  split; [apply Z.div_pos; lia|].
  apply Z.le_lt_trans with (U a); [|lia].
  apply Z.div_le_upper_bound; nia.
Qed.

Lemma U_rightRotate (v n : Z) :
  0 < n < 32 -> U (Sha256.rightRotate v n) = FIPS.ROTR n (U v).
Proof.
  intros Hn. unfold Sha256.rightRotate, FIPS.ROTR, FIPS.w, JS.bor, JS.shl.
  rewrite shr_small by lia.
  rewrite (U_small (32 - n)) by lia. rewrite (Z.mod_small (32 - n)) by lia.
  rewrite U_lor, !U_ToInt32.
  rewrite (U_small (Z.shiftr (U v) n)).
  2:{ rewrite <- shr_small by lia. apply shr_range; lia. }
  f_equal. fold (U (Z.shiftl (U v) (32 - n))).
  apply U_eq_bits. intros i Hi.
  rewrite !Z.shiftl_spec by lia.
  destruct (Z.ltb_spec (i - (32 - n)) 0) as [Hneg|Hpos].
  - rewrite !Z.testbit_neg_r by lia. reflexivity.
  - rewrite testbit_ToInt32, testbit_U by lia.
    destruct (Z.ltb_spec (i - (32 - n)) 32); [reflexivity | lia].
Qed.

Lemma ROTR_range (n x : Z) : 0 < n < 32 -> 0 <= x < 2^32 -> 0 <= FIPS.ROTR n x < 2^32.
Proof.
  intros Hn Hx. rewrite <- (U_small x) by lia. rewrite <- U_rightRotate by lia.
  apply U_range.
Qed.

(** ** Congruence modulo 2^32 *)

Lemma eq32_elim (a b : Z) : eq32 a b -> U a = U b.
Proof. intros [H]. exact H. Qed.

#[local] Instance eq32_equiv : Equivalence eq32.
Proof.
  split.
  - intros x. constructor. reflexivity.
  - intros x y [H]. constructor. congruence.
  - intros x y z [H1] [H2]. constructor. congruence.
Qed.

#[local] Instance eq32_add : Proper (eq32 ==> eq32 ==> eq32) Z.add.
Proof.
  intros a a' [Ha] b b' [Hb]. constructor. unfold U in *.
  rewrite (Z.add_mod a), (Z.add_mod a') by lia. rewrite Ha, Hb. reflexivity.
Qed.

Lemma eq32_U (a : Z) : eq32 (U a) a.
Proof. constructor. apply U_U. Qed.

Lemma eq32_bor0 (a : Z) : eq32 (JS.bor a 0) a.
Proof. constructor. apply U_bor0. Qed.

Lemma add32_U (a b : Z) : FIPS.add32 a b = U (a + b).
Proof. reflexivity. Qed.

Ltac solve_eq32 :=
  rewrite ?shr0, ?add32_U;
  apply eq32_elim;
  rewrite ?eq32_U, ?eq32_bor0;
  match goal with |- eq32 ?a ?b => replace a with b by ring; reflexivity end.

(** ** The mixing functions *)

Lemma code_Sigma (e n1 n2 n3 : Z) :
  word e -> 0 < n1 < 32 -> 0 < n2 < 32 -> 0 < n3 < 32 ->
  U (JS.bxor (JS.bxor (Sha256.rightRotate e n1) (Sha256.rightRotate e n2))
             (Sha256.rightRotate e n3))
  = Z.lxor (Z.lxor (FIPS.ROTR n1 e) (FIPS.ROTR n2 e)) (FIPS.ROTR n3 e).
Proof.
  intros He H1 H2 H3. rewrite !U_bxor, !U_rightRotate by lia.
  rewrite (U_small e) by exact He. reflexivity.
Qed.

Lemma code_sigma (x n1 n2 n3 : Z) :
  word x -> 0 < n1 < 32 -> 0 < n2 < 32 -> 0 <= n3 < 32 ->
  U (JS.bxor (JS.bxor (Sha256.rightRotate x n1) (Sha256.rightRotate x n2))
             (JS.shr x n3))
  = Z.lxor (Z.lxor (FIPS.ROTR n1 x) (FIPS.ROTR n2 x)) (FIPS.SHR n3 x).
Proof.
  intros Hx H1 H2 H3. rewrite !U_bxor, !U_rightRotate by lia.
  rewrite (U_small (JS.shr x n3)) by (apply shr_range; lia).
  rewrite shr_small by lia. rewrite (U_small x) by exact Hx. reflexivity.
Qed.

Lemma code_Ch (e f g : Z) :
  word e -> word f -> word g ->
  U (JS.bxor (JS.band e f) (JS.band (JS.bnot e) g)) = FIPS.Ch e f g.
Proof.
  intros He Hf Hg. unfold FIPS.Ch.
  rewrite U_bxor, !U_band, U_bnot, !U_small by assumption. reflexivity.
Qed.

Lemma code_Maj (a b c : Z) :
  word a -> word b -> word c ->
  U (JS.bxor (JS.bxor (JS.band a b) (JS.band a c)) (JS.band b c)) = FIPS.Maj a b c.
Proof.
  intros Ha Hb Hc. unfold FIPS.Maj.
  rewrite !U_bxor, !U_band, !U_small by assumption. reflexivity.
Qed.

Lemma K_table (t : nat) : (t < 64)%nat -> nth t Sha256.SHA256_K 0 = FIPS.K t.
Proof.
  intros Ht.
  do 64 (destruct t as [|t]; [vm_compute; reflexivity|]). lia.
Qed.

Lemma H0_table :
  Sha256.initial_chain
  = Sha256.Chain (FIPS.H0 0) (FIPS.H0 1) (FIPS.H0 2) (FIPS.H0 3)
                 (FIPS.H0 4) (FIPS.H0 5) (FIPS.H0 6) (FIPS.H0 7).
Proof. vm_compute. reflexivity. Qed.

(** ** One round *)

Lemma round_core (a b c d e f g h k wt : Z) :
  word a -> word b -> word c -> word e -> word f -> word g ->
  forall S1 ch S0 maj temp1 : Z,
    S1 = JS.bxor (JS.bxor (Sha256.rightRotate e 6) (Sha256.rightRotate e 11))
                 (Sha256.rightRotate e 25) ->
    ch = JS.bxor (JS.band e f) (JS.band (JS.bnot e) g) ->
    S0 = JS.bxor (JS.bxor (Sha256.rightRotate a 2) (Sha256.rightRotate a 13))
                 (Sha256.rightRotate a 22) ->
    maj = JS.bxor (JS.bxor (JS.band a b) (JS.band a c)) (JS.band b c) ->
    temp1 = JS.shr (JS.bor (JS.bor (h + S1) 0 + JS.bor (ch + k) 0) 0 + wt) 0 ->
    let T1 := FIPS.add32 (FIPS.add32 (FIPS.add32 (FIPS.add32 h (FIPS.Sigma1 e))
                                                 (FIPS.Ch e f g)) k) wt in
    let T2 := FIPS.add32 (FIPS.Sigma0 a) (FIPS.Maj a b c) in
    JS.shr (temp1 + JS.shr (S0 + maj) 0) 0 = FIPS.add32 T1 T2
    /\ JS.shr (d + temp1) 0 = FIPS.add32 d T1.
Proof.
  intros Ha Hb Hc He Hf Hg S1 ch S0 maj temp1 ES1 Ech ES0 Emaj Etemp1 T1 T2.
  assert (E1 : FIPS.Sigma1 e = U S1)
    by (subst S1; symmetry; apply code_Sigma; (assumption || lia)).
  assert (E2 : FIPS.Ch e f g = U ch) by (subst ch; symmetry; apply code_Ch; assumption).
  assert (E3 : FIPS.Sigma0 a = U S0)
    by (subst S0; symmetry; apply code_Sigma; (assumption || lia)).
  assert (E4 : FIPS.Maj a b c = U maj) by (subst maj; symmetry; apply code_Maj; assumption).
  clear ES1 Ech ES0 Emaj.
  subst T1 T2. rewrite E1, E2, E3, E4. clear E1 E2 E3 E4.
  assert (ET : temp1
               = FIPS.add32 (FIPS.add32 (FIPS.add32 (FIPS.add32 h (U S1)) (U ch)) k) wt)
    by (subst temp1; solve_eq32).
  clear Etemp1. rewrite <- ET. clear ET.
  split; solve_eq32.
Qed.

Lemma round_step (W : list Z) (t : nat) (v : Sha256.work) :
  (t < 64)%nat -> work_ok v ->
  regs_of_work (Sha256.round W (Z.of_nat t) v) = FIPS.step W (regs_of_work v) t
  /\ work_ok (Sha256.round W (Z.of_nat t) v).
Proof.
  intros Ht Hv. destruct v as [a b c d e f g h].
  destruct Hv as (Ha & Hb & Hc & Hd & He & Hf & Hg & Hh).
  unfold Sha256.round, FIPS.step, regs_of_work, work_ok, rd.
  cbn [Sha256.wa Sha256.wb Sha256.wc Sha256.wd Sha256.we Sha256.wf Sha256.wg Sha256.wh] in *.
  rewrite Nat2Z.id, K_table by exact Ht.
  destruct (round_core a b c d e f g h (FIPS.K t) (nth t W 0) Ha Hb Hc He Hf Hg
              _ _ _ _ _ eq_refl eq_refl eq_refl eq_refl eq_refl) as [EA EE].
  split.
  - rewrite EA, EE. reflexivity.
  - rewrite !shr0.
    repeat (split; [first [apply U_range | assumption]|]). assumption.
Qed.

(** ** Loops that fill an array from left to right *)

Lemma fold_fill (body : nat -> list Z -> list Z) (G : list Z -> Z) (lo : nat) :
  (forall j w, (lo <= j < length w)%nat -> body j w = <[j := G (take j w)]> w) ->
  forall (n k : nat) (w : list Z),
    (lo <= k)%nat -> (k + n <= length w)%nat ->
    length (fold_left (fun w j => body j w) (seq k n) w) = length w
    /\ take (k + n) (fold_left (fun w j => body j w) (seq k n) w)
       = Nat.iter n (fun W => W ++ [G W]) (take k w).
Proof.
  intros Hbody n. induction n as [|n IH]; intros k w Hk Hlen.
  - simpl. rewrite Nat.add_0_r. split; reflexivity.
  - cbn [seq fold_left]. rewrite Nat.iter_succ_r.
    rewrite Hbody by lia.
    destruct (IH (Datatypes.S k) (<[k := G (take k w)]> w)) as [IH1 IH2];
      [lia | rewrite length_insert; lia |].
    rewrite length_insert in IH1. split; [exact IH1|].
    replace (k + Datatypes.S n)%nat with (Datatypes.S k + n)%nat by lia.
    rewrite IH2. f_equal.
    rewrite (take_S_r _ k (G (take k w))) by (apply list_lookup_insert_eq; lia).
    rewrite take_insert_ge by lia. reflexivity.
Qed.

Lemma iter_snoc_ext (G G' : list Z -> Z) (P : list Z -> Prop) :
  (forall W, P W -> G W = G' W /\ P (W ++ [G W])) ->
  forall (n : nat) (W : list Z), P W ->
    Nat.iter n (fun W => W ++ [G W]) W = Nat.iter n (fun W => W ++ [G' W]) W
    /\ P (Nat.iter n (fun W => W ++ [G W]) W).
Proof.
  intros HG n. induction n as [|n IH]; intros W HW; [split; [reflexivity|exact HW]|].
  rewrite !Nat.iter_succ_r.
  destruct (HG W HW) as [E HP]. rewrite <- E.
  apply IH. exact HP.
Qed.

Lemma rd_take (w : list Z) (j i : nat) :
  (i < j)%nat -> (j <= length w)%nat -> rd w (Z.of_nat i) = nth i (take j w) 0.
Proof.
  intros Hi Hj. unfold rd. rewrite Nat2Z.id, !nth_lookup.
  rewrite lookup_take_lt by lia. reflexivity.
Qed.

(** ** Reading a big-endian word *)

Lemma rd8_drop (l : list byte) (k j : nat) :
  rd8 l (Z.of_nat k + Z.of_nat j) = byte_val (nth j (drop k l) x00).
Proof.
  unfold rd8. rewrite <- Nat2Z.inj_add, Nat2Z.id, !nth_lookup, lookup_drop.
  reflexivity.
Qed.

Lemma getUint32_M (padded : list byte) (k : nat) :
  (k + 4 <= length padded)%nat ->
  getUint32 padded (Z.of_nat k) = FIPS.word_of (take 4 (drop k padded))
  /\ word (getUint32 padded (Z.of_nat k)).
Proof.
  intros Hk.
  assert (E : getUint32 padded (Z.of_nat k)
              = byte_val (nth 0 (drop k padded) x00) * 2^24
                + byte_val (nth 1 (drop k padded) x00) * 2^16
                + byte_val (nth 2 (drop k padded) x00) * 2^8
                + byte_val (nth 3 (drop k padded) x00)).
  { unfold getUint32. rewrite <- !rd8_drop. repeat f_equal; lia. }
  rewrite E. clear E.
  assert (Hd : (4 <= length (drop k padded))%nat) by (rewrite length_drop; lia).
  destruct (drop k padded) as [|b0 [|b1 [|b2 [|b3 rest]]]]; simpl in Hd; try lia.
  cbn [nth]. unfold FIPS.word_of. rewrite !firstn_cons, take_0. cbn [fold_left].
  pose proof (byte_val_range b0). pose proof (byte_val_range b1).
  pose proof (byte_val_range b2). pose proof (byte_val_range b3).
  unfold word.
  change (2 ^ 24) with 16777216. change (2 ^ 16) with 65536.
  change (2 ^ 8) with 256. change (2 ^ 32) with 4294967296.
  split; lia.
Qed.

(** ** The message schedule *)

Lemma iter_snoc_length (g : nat -> Z) (n : nat) (W0 : list Z) :
  Nat.iter n (fun W => W ++ [g (length W)]) W0 = W0 ++ map g (seq (length W0) n).
Proof.
  revert W0. induction n as [|n IH]; intros W0.
  - simpl. rewrite app_nil_r. reflexivity.
  - rewrite Nat.iter_succ_r, IH, length_app. simpl length.
    rewrite <- app_assoc. simpl.
    replace (length W0 + 1)%nat with (Datatypes.S (length W0)) by lia. reflexivity.
Qed.

Lemma load_words_spec (padded : list byte) (i : nat) (w : list Z) :
  length w = 64%nat -> (64 * i + 64 <= length padded)%nat ->
  length (Sha256.load_words padded (Z.of_nat (64 * i)) w) = 64%nat
  /\ take 16 (Sha256.load_words padded (Z.of_nat (64 * i)) w)
     = map (FIPS.M padded i) (seq 0 16).
Proof.
  intros Hw Hp. unfold Sha256.load_words.
  change (for_loop 0 16 1) with (for_loop (S := list Z) (1 * Z.of_nat 0) (1 * Z.of_nat (0 + 16)) 1).
  rewrite for_loop_fold by lia.
  set (g := fun j : nat => U (getUint32 padded (Z.of_nat (64 * i + 4 * j)))).
  destruct (fold_fill
              (fun j w => Uint32Array_store w (1 * Z.of_nat j)
                            (getUint32 padded (Z.of_nat (64 * i) + 1 * Z.of_nat j * 4)))
              (fun W => g (length W)) 0) with (n := 16%nat) (k := 0%nat) (w := w)
    as [L T].
  - intros j w0 Hj. unfold Uint32Array_store, g.
    rewrite length_take, Nat.min_l by lia.
    replace (Z.to_nat (1 * Z.of_nat j)) with j by lia.
    do 3 f_equal. lia.
  - lia.
  - lia.
  - split; [rewrite L; exact Hw|].
    change (0 + 16)%nat with 16%nat in T. rewrite T.
    rewrite take_0, iter_snoc_length.
    change ([] ++ map g (seq (length (@nil Z)) 16)) with (map g (seq 0 16)).
    apply map_ext_in. intros j Hj. apply in_seq in Hj. unfold g, FIPS.M.
    destruct (getUint32_M padded (64 * i + 4 * j)) as [E R]; [lia|].
    rewrite U_small by exact R. exact E.
Qed.

Lemma schedule_core (w16 w15 w7 w2 s0 s1 : Z) :
  word w15 -> word w2 ->
  s0 = JS.bxor (JS.bxor (Sha256.rightRotate w15 7) (Sha256.rightRotate w15 18))
               (JS.shr w15 3) ->
  s1 = JS.bxor (JS.bxor (Sha256.rightRotate w2 17) (Sha256.rightRotate w2 19))
               (JS.shr w2 10) ->
  U (JS.shr (JS.bor (w16 + s0) 0 + JS.bor (w7 + s1) 0) 0)
  = FIPS.add32 (FIPS.add32 (FIPS.add32 (FIPS.sigma1 w2) w7) (FIPS.sigma0 w15)) w16.
Proof.
  intros H15 H2 E0 E1.
  assert (F0 : FIPS.sigma0 w15 = U s0)
    by (subst s0; symmetry; apply code_sigma; (assumption || lia)).
  assert (F1 : FIPS.sigma1 w2 = U s1)
    by (subst s1; symmetry; apply code_sigma; (assumption || lia)).
  clear E0 E1. rewrite F0, F1. rewrite shr0, U_U. solve_eq32.
Qed.

Lemma rd_take_Z (w : list Z) (j : nat) (i : Z) :
  0 <= i < Z.of_nat j -> (j <= length w)%nat -> rd w i = rd (take j w) i.
Proof.
  intros Hi Hj. unfold rd. rewrite !nth_lookup, lookup_take_lt by lia. reflexivity.
Qed.

Lemma extend_value_W_next (W : list Z) :
  (16 <= length W)%nat -> Forall word W ->
  extend_value W = FIPS.W_next W /\ word (extend_value W).
Proof.
  intros HL HW. split; [|apply U_range].
  unfold extend_value, FIPS.W_next. cbv zeta.
  assert (R : forall d : nat, (0 < d <= 16)%nat ->
                rd W (Z.of_nat (length W) - Z.of_nat d) = nth (length W - d) W 0
                /\ word (nth (length W - d) W 0)).
  { intros d Hd. unfold rd.
    replace (Z.to_nat (Z.of_nat (length W) - Z.of_nat d)) with (length W - d)%nat by lia.
    split; [reflexivity|].
    destruct (nth_lookup_or_length W (length W - d) 0) as [E|E]; [|lia].
    rewrite List.Forall_forall in HW. apply HW.
    apply list_elem_of_In. eapply list_elem_of_lookup_2. exact E. }
  destruct (R 15%nat ltac:(lia)) as [E15 R15]. destruct (R 2%nat ltac:(lia)) as [E2 R2].
  destruct (R 16%nat ltac:(lia)) as [E16 _]. destruct (R 7%nat ltac:(lia)) as [E7 _].
  change (Z.of_nat 15) with 15 in E15. change (Z.of_nat 2) with 2 in E2.
  change (Z.of_nat 16) with 16 in E16. change (Z.of_nat 7) with 7 in E7.
  rewrite E15, E2, E16, E7.
  apply schedule_core; (assumption || reflexivity).
Qed.

Lemma extend_words_spec (w : list Z) :
  length w = 64%nat -> Forall word (take 16 w) ->
  Sha256.extend_words w = Nat.iter 48 (fun W => W ++ [FIPS.W_next W]) (take 16 w).
Proof.
  intros Hw H16. unfold Sha256.extend_words.
  change (for_loop 16 64 1) with (for_loop (S := list Z) (1 * Z.of_nat 16) (1 * Z.of_nat (16 + 48)) 1).
  rewrite for_loop_fold by lia.
  match goal with
  | |- fold_left ?F _ _ = _ =>
      destruct (fold_fill (fun j w => F w j) extend_value 16)
        with (n := 48%nat) (k := 16%nat) (w := w) as [L T]
  end.
  - intros j w0 Hj. unfold Uint32Array_store, extend_value. cbv zeta.
    rewrite length_take, Nat.min_l by lia.
    replace (Z.to_nat (1 * Z.of_nat j)) with j by lia.
    replace (1 * Z.of_nat j) with (Z.of_nat j) by lia.
    rewrite <- !(rd_take_Z w0 j) by lia.
    rewrite (U_U (JS.shr _ 0)) || rewrite U_small by (apply shr_range; lia).
    reflexivity.
  - lia.
  - lia.
  - change (16 + 48)%nat with 64%nat in T.
    rewrite take_ge in T by lia. rewrite T.
    apply (iter_snoc_ext extend_value FIPS.W_next
             (fun W => (16 <= length W)%nat /\ Forall word W)).
    + intros W [HL HW]. destruct (extend_value_W_next W HL HW) as [E R].
      split; [exact E|]. split; [rewrite length_app; lia|].
      apply Forall_app. split; [exact HW|]. constructor; [exact R|constructor].
    + split; [rewrite length_take; lia | exact H16].
Qed.

Lemma M_word (padded : list byte) (i j : nat) :
  (64 * i + 4 * j + 4 <= length padded)%nat -> word (FIPS.M padded i j).
Proof.
  intros H. unfold FIPS.M.
  destruct (getUint32_M padded (64 * i + 4 * j)) as [E R]; [lia|].
  rewrite <- E. exact R.
Qed.

Lemma schedule_spec (padded : list byte) (i : nat) (w : list Z) :
  length w = 64%nat -> (64 * i + 64 <= length padded)%nat ->
  Sha256.extend_words (Sha256.load_words padded (Z.of_nat (64 * i)) w)
  = FIPS.schedule padded i.
Proof.
  intros Hw Hp. destruct (load_words_spec padded i w Hw Hp) as [L T].
  rewrite extend_words_spec; [|exact L|].
  - rewrite T. unfold FIPS.schedule. reflexivity.
  - rewrite T. apply Forall_forall. intros x Hx.
    apply list_elem_of_In, in_map_iff in Hx. destruct Hx as (j & <- & Hj).
    apply in_seq in Hj. apply M_word. lia.
Qed.

Lemma schedule_length (padded : list byte) (i : nat) :
  length (FIPS.schedule padded i) = 64%nat.
Proof.
  unfold FIPS.schedule.
  assert (H : forall n (W0 : list Z),
             length (Nat.iter n (fun W => W ++ [FIPS.W_next W]) W0) = (length W0 + n)%nat).
  { induction n as [|n IH]; intros W0; [simpl; lia|].
    rewrite Nat.iter_succ_r, IH, length_app. simpl. lia. }
  rewrite H, length_map, length_seq. reflexivity.
Qed.

(** ** The round loop and one block *)

Lemma rounds_fold (W : list Z) (l : list nat) (v : Sha256.work) :
  Forall (fun t => (t < 64)%nat) l -> work_ok v ->
  regs_of_work (fold_left (fun s j => Sha256.round W (1 * Z.of_nat j) s) l v)
  = fold_left (FIPS.step W) l (regs_of_work v)
  /\ work_ok (fold_left (fun s j => Sha256.round W (1 * Z.of_nat j) s) l v).
Proof.
  intros Hl. revert v. induction Hl as [|t l Ht Hl IH]; intros v Hv.
  - simpl. split; [reflexivity | exact Hv].
  - cbn [fold_left]. replace (1 * Z.of_nat t) with (Z.of_nat t) by lia.
    destruct (round_step W t v Ht Hv) as [E R].
    rewrite <- E. apply IH. exact R.
Qed.

Lemma rounds_spec (W : list Z) (v : Sha256.work) :
  work_ok v ->
  regs_of_work (for_loop 0 64 1 (Sha256.round W) v)
  = fold_left (FIPS.step W) (seq 0 64) (regs_of_work v)
  /\ work_ok (for_loop 0 64 1 (Sha256.round W) v).
Proof.
  intros Hv.
  change (for_loop 0 64 1) with (for_loop (S := Sha256.work) (1 * Z.of_nat 0) (1 * Z.of_nat (0 + 64)) 1).
  rewrite for_loop_fold by lia. apply rounds_fold; [|exact Hv].
  apply Forall_forall. intros t Ht. apply list_elem_of_In, in_seq in Ht. lia.
Qed.

Lemma add_chain (x y : Z) : JS.shr (x + y) 0 = FIPS.add32 y x.
Proof. solve_eq32. Qed.

Lemma block_finish (H : Sha256.chain) (v : Sha256.work) :
  regs_of_chain
    (Sha256.Chain (JS.shr (Sha256.h0 H + Sha256.wa v) 0) (JS.shr (Sha256.h1 H + Sha256.wb v) 0)
                  (JS.shr (Sha256.h2 H + Sha256.wc v) 0) (JS.shr (Sha256.h3 H + Sha256.wd v) 0)
                  (JS.shr (Sha256.h4 H + Sha256.we v) 0) (JS.shr (Sha256.h5 H + Sha256.wf v) 0)
                  (JS.shr (Sha256.h6 H + Sha256.wg v) 0) (JS.shr (Sha256.h7 H + Sha256.wh v) 0))
  = (let '(a, b, c, d, e, f, g, h) := regs_of_work v in
     let '(H0, H1, H2, H3, H4, H5, H6, H7) := regs_of_chain H in
     (FIPS.add32 a H0, FIPS.add32 b H1, FIPS.add32 c H2, FIPS.add32 d H3,
      FIPS.add32 e H4, FIPS.add32 f H5, FIPS.add32 g H6, FIPS.add32 h H7))
  /\ chain_ok
       (Sha256.Chain (JS.shr (Sha256.h0 H + Sha256.wa v) 0) (JS.shr (Sha256.h1 H + Sha256.wb v) 0)
                     (JS.shr (Sha256.h2 H + Sha256.wc v) 0) (JS.shr (Sha256.h3 H + Sha256.wd v) 0)
                     (JS.shr (Sha256.h4 H + Sha256.we v) 0) (JS.shr (Sha256.h5 H + Sha256.wf v) 0)
                     (JS.shr (Sha256.h6 H + Sha256.wg v) 0) (JS.shr (Sha256.h7 H + Sha256.wh v) 0)).
Proof.
  destruct H as [a b c d e f g h]. destruct v as [a' b' c' d' e' f' g' h'].
  unfold regs_of_chain, regs_of_work, chain_ok.
  cbn [Sha256.wa Sha256.wb Sha256.wc Sha256.wd Sha256.we Sha256.wf Sha256.wg Sha256.wh
       Sha256.h0 Sha256.h1 Sha256.h2 Sha256.h3 Sha256.h4 Sha256.h5 Sha256.h6 Sha256.h7].
  rewrite !add_chain. split; [reflexivity|].
  unfold word, FIPS.add32, FIPS.w.
  repeat (split; [apply Z.mod_pos_bound; lia|]). apply Z.mod_pos_bound; lia.
Qed.

Lemma work_of_chain (H : Sha256.chain) :
  regs_of_work (Sha256.Work (Sha256.h0 H) (Sha256.h1 H) (Sha256.h2 H) (Sha256.h3 H)
                            (Sha256.h4 H) (Sha256.h5 H) (Sha256.h6 H) (Sha256.h7 H))
  = regs_of_chain H.
Proof. reflexivity. Qed.

Lemma block_spec (padded : list byte) (i : nat) (H : Sha256.chain) (w : list Z) :
  length w = 64%nat -> (64 * i + 64 <= length padded)%nat -> chain_ok H ->
  regs_of_chain (fst (Sha256.block padded (Z.of_nat (64 * i)) (H, w)))
  = FIPS.compress padded (regs_of_chain H) i
  /\ chain_ok (fst (Sha256.block padded (Z.of_nat (64 * i)) (H, w)))
  /\ length (snd (Sha256.block padded (Z.of_nat (64 * i)) (H, w))) = 64%nat.
Proof.
  intros Hw Hp HH. unfold Sha256.block.
  rewrite (schedule_spec padded i w Hw Hp).
  unfold FIPS.compress.
  generalize (schedule_length padded i).
  generalize (FIPS.schedule padded i). intros W HW.
  destruct (rounds_spec W
              (Sha256.Work (Sha256.h0 H) (Sha256.h1 H) (Sha256.h2 H) (Sha256.h3 H)
                           (Sha256.h4 H) (Sha256.h5 H) (Sha256.h6 H) (Sha256.h7 H)))
    as [E _]; [exact HH|].
  rewrite work_of_chain in E. rewrite <- E. clear E.
  generalize (for_loop 0 64 1 (Sha256.round W)
                (Sha256.Work (Sha256.h0 H) (Sha256.h1 H) (Sha256.h2 H) (Sha256.h3 H)
                             (Sha256.h4 H) (Sha256.h5 H) (Sha256.h6 H) (Sha256.h7 H))).
  intros v. cbn [fst snd].
  destruct (block_finish H v) as [E R].
  split; [exact E|]. split; [exact R | exact HW].
Qed.

(** ** The block loop *)

Lemma fold_left_sim {S R : Type} (f : S -> nat -> S) (g : R -> nat -> R)
    (Rel : S -> R -> Prop) (l : list nat) :
  (forall s r i, In i l -> Rel s r -> Rel (f s i) (g r i)) ->
  forall s r, Rel s r -> Rel (fold_left f l s) (fold_left g l r).
Proof.
  induction l as [|i l IH]; intros Hstep s r Hsr; [exact Hsr|].
  simpl. apply IH.
  - intros s' r' j Hj. apply Hstep. right. exact Hj.
  - apply Hstep; [left; reflexivity | exact Hsr].
Qed.

Lemma block_rel_step (padded : list byte) (i : nat)
    (s : Sha256.chain * list Z) (r : FIPS.regs) :
  (64 * i + 64 <= length padded)%nat -> block_rel s r ->
  block_rel (Sha256.block padded (64 * Z.of_nat i) s) (FIPS.compress padded r i).
Proof.
  intros Hi (E & HH & Hw). destruct s as [H w]. cbn [fst snd] in E, HH, Hw.
  replace (64 * Z.of_nat i) with (Z.of_nat (64 * i)) by lia.
  destruct (block_spec padded i H w Hw Hi HH) as (E' & R & L).
  unfold block_rel. rewrite <- E. auto.
Qed.

Lemma blocks_fold (padded : list byte) (N : nat) (H : Sha256.chain) (w : list Z) :
  (64 * N <= length padded)%nat -> length w = 64%nat -> chain_ok H ->
  block_rel (fold_left (fun s j => Sha256.block padded (64 * Z.of_nat j) s) (seq 0 N) (H, w))
            (fold_left (FIPS.compress padded) (seq 0 N) (regs_of_chain H)).
Proof.
  intros HN Hw HH.
  apply (fold_left_sim (fun s j => Sha256.block padded (64 * Z.of_nat j) s)
           (FIPS.compress padded) block_rel).
  - intros s r i Hi Hsr. apply in_seq in Hi. apply block_rel_step; [lia | exact Hsr].
  - unfold block_rel. auto.
Qed.

(** ** Writing a big-endian word *)

Lemma setUint32_app (pre post : list byte) (b0 b1 b2 b3 : byte) (v : Z) :
  setUint32 (pre ++ b0 :: b1 :: b2 :: b3 :: post) (Z.of_nat (length pre)) v
  = pre ++ [u8 (U v / 2^24); u8 (U v / 2^16); u8 (U v / 2^8); u8 (U v)] ++ post.
Proof.
  unfold setUint32, Uint8Array_store.
  replace (Z.to_nat (Z.of_nat (length pre))) with (length pre + 0)%nat by lia.
  replace (Z.to_nat (Z.of_nat (length pre) + 1)) with (length pre + 1)%nat by lia.
  replace (Z.to_nat (Z.of_nat (length pre) + 2)) with (length pre + 2)%nat by lia.
  replace (Z.to_nat (Z.of_nat (length pre) + 3)) with (length pre + 3)%nat by lia.
  rewrite !insert_app_r. reflexivity.
Qed.

Lemma big_endian_4 (v : Z) :
  FIPS.big_endian 4 v = [u8 (v / 2^24); u8 (v / 2^16); u8 (v / 2^8); u8 v].
Proof.
  unfold FIPS.big_endian. cbn [seq map].
  change (2 ^ (8 * Z.of_nat (4 - 1 - 0))) with (2^24).
  change (2 ^ (8 * Z.of_nat (4 - 1 - 1))) with (2^16).
  change (2 ^ (8 * Z.of_nat (4 - 1 - 2))) with (2^8).
  change (2 ^ (8 * Z.of_nat (4 - 1 - 3))) with 1.
  rewrite Z.div_1_r. reflexivity.
Qed.

Lemma big_endian_8 (v : Z) :
  FIPS.big_endian 8 v
  = [u8 (v / 2^56); u8 (v / 2^48); u8 (v / 2^40); u8 (v / 2^32);
     u8 (v / 2^24); u8 (v / 2^16); u8 (v / 2^8); u8 v].
Proof.
  unfold FIPS.big_endian. cbn [seq map].
  change (2 ^ (8 * Z.of_nat (8 - 1 - 0))) with (2^56).
  change (2 ^ (8 * Z.of_nat (8 - 1 - 1))) with (2^48).
  change (2 ^ (8 * Z.of_nat (8 - 1 - 2))) with (2^40).
  change (2 ^ (8 * Z.of_nat (8 - 1 - 3))) with (2^32).
  change (2 ^ (8 * Z.of_nat (8 - 1 - 4))) with (2^24).
  change (2 ^ (8 * Z.of_nat (8 - 1 - 5))) with (2^16).
  change (2 ^ (8 * Z.of_nat (8 - 1 - 6))) with (2^8).
  change (2 ^ (8 * Z.of_nat (8 - 1 - 7))) with 1.
  rewrite Z.div_1_r. reflexivity.
Qed.

(** ** Padding *)

Lemma paddedLength_spec (message : list byte) :
  let n := Z.of_nat (length message) in
  let z := (FIPS.zero_bits (8 * n) - 7) / 8 in
  0 <= z /\ Sha256.paddedLength message = n + 1 + z + 8
  /\ Sha256.paddedLength message mod 64 = 0.
Proof.
  intros n z. subst z. unfold Sha256.paddedLength, JS.ceil_div, FIPS.zero_bits.
  fold n. assert (0 <= n) by (subst n; lia). clearbody n.
  Z.to_euclidean_division_equations. lia.
Qed.

Lemma length_bytes_high (l : Z) (k : Z) :
  0 <= k <= 24 -> (U (l / 2^32) / 2^k) mod 256 = (l / 2^(32 + k)) mod 256.
Proof.
  intros Hk. apply Z.bits_inj'. intros i Hi.
  change 256 with (2^8). rewrite !Z.testbit_mod_pow2 by lia.
  destruct (Z.ltb_spec i 8); [|reflexivity]. simpl.
  rewrite !Z.div_pow2_bits by lia. rewrite testbit_U by lia.
  destruct (Z.ltb_spec (i + k) 32); [|lia]. simpl.
  rewrite Z.div_pow2_bits by lia. f_equal. lia.
Qed.

Lemma length_bytes_low (l : Z) (k : Z) :
  0 <= k <= 24 -> (U (JS.shr l 0) / 2^k) mod 256 = (l / 2^k) mod 256.
Proof.
  intros Hk. rewrite shr0, U_U. apply Z.bits_inj'. intros i Hi.
  change 256 with (2^8). rewrite !Z.testbit_mod_pow2 by lia.
  destruct (Z.ltb_spec i 8); [|reflexivity]. simpl.
  rewrite !Z.div_pow2_bits by lia. rewrite testbit_U by lia.
  destruct (Z.ltb_spec (i + k) 32); [|lia]. reflexivity.
Qed.

Lemma padded_buffer_pad (message : list byte) :
  Sha256.padded_buffer message = FIPS.pad message.
Proof.
  destruct (paddedLength_spec message) as (Hz & HP & _). cbv zeta in Hz, HP.
  unfold Sha256.padded_buffer, FIPS.pad. cbv zeta.
  set (n := Z.of_nat (length message)) in *.
  set (z := (FIPS.zero_bits (8 * n) - 7) / 8) in *.
  rewrite HP. replace (n * 8) with (8 * n) by lia. generalize (8 * n). intros l.
  unfold Uint8Array_new, Uint8Array_set.
  rewrite drop_replicate.
  replace (Z.to_nat (n + 1 + z + 8) - length message)%nat
    with (Datatypes.S (Z.to_nat z + (4 + 4)))%nat by lia.
  rewrite replicate_S, replicate_add, replicate_add.
  unfold Uint8Array_store at 1.
  replace (Z.to_nat n) with (length message + 0)%nat by lia.
  rewrite insert_app_r. cbn [insert list_insert].
  set (pre := message ++ [u8 128] ++ replicate (Z.to_nat z) x00).
  assert (Lpre : Z.of_nat (length pre) = n + 1 + z).
  { subst pre. rewrite !length_app, length_replicate. simpl length. lia. }
  replace (message ++ u8 128 :: replicate (Z.to_nat z) x00 ++ replicate 4 x00 ++ replicate 4 x00)
    with (pre ++ x00 :: x00 :: x00 :: x00 :: replicate 4 x00)
    by (subst pre; rewrite <- !app_assoc; reflexivity).
  replace (n + 1 + z + 8 - 8) with (Z.of_nat (length pre)) by lia.
  rewrite setUint32_app.
  replace (n + 1 + z + 8 - 4)
    with (Z.of_nat (length (pre ++ [u8 (U (l / 2^32) / 2^24); u8 (U (l / 2^32) / 2^16);
                                    u8 (U (l / 2^32) / 2^8); u8 (U (l / 2^32))])))
    by (rewrite length_app; simpl length; lia).
  rewrite (app_assoc pre).
  change (replicate 4 x00) with (x00 :: x00 :: x00 :: x00 :: @nil byte).
  rewrite setUint32_app.
  subst pre. rewrite big_endian_8, <- !app_assoc. do 2 f_equal.
  cbn [app]. 
  pose proof (length_bytes_high l 24 ltac:(lia)) as E1.
  pose proof (length_bytes_high l 16 ltac:(lia)) as E2.
  pose proof (length_bytes_high l 8 ltac:(lia)) as E3.
  pose proof (length_bytes_high l 0 ltac:(lia)) as E4.
  pose proof (length_bytes_low l 24 ltac:(lia)) as E5.
  pose proof (length_bytes_low l 16 ltac:(lia)) as E6.
  pose proof (length_bytes_low l 8 ltac:(lia)) as E7.
  pose proof (length_bytes_low l 0 ltac:(lia)) as E8.
  change (2 ^ 0) with 1 in E4, E8. rewrite !Z.div_1_r in E4. rewrite !Z.div_1_r in E8.
  change (32 + 24) with 56 in E1. change (32 + 16) with 48 in E2.
  change (32 + 8) with 40 in E3. change (32 + 0) with 32 in E4.
  rewrite (u8_eq _ _ E1), (u8_eq _ _ E2), (u8_eq _ _ E3), (u8_eq _ _ E4),
    (u8_eq _ _ E5), (u8_eq _ _ E6), (u8_eq _ _ E7), (u8_eq _ _ E8).
  reflexivity.
Qed.

Lemma pad_length (message : list byte) :
  Z.of_nat (length (FIPS.pad message)) = Sha256.paddedLength message.
Proof.
  destruct (paddedLength_spec message) as (Hz & HP & _). cbv zeta in Hz, HP.
  rewrite HP. unfold FIPS.pad. cbv zeta.
  rewrite !length_app, length_replicate, big_endian_8. simpl length. lia.
Qed.

(** ** The digest bytes *)

Lemma setUint32_at (buf : list byte) (k : nat) (v : Z) :
  (k + 4 <= length buf)%nat ->
  setUint32 buf (Z.of_nat k) v
  = take k buf ++ FIPS.big_endian 4 (U v) ++ drop (k + 4) buf.
Proof.
  intros Hk.
  assert (Hd : (4 <= length (drop k buf))%nat) by (rewrite length_drop; lia).
  replace (drop (k + 4) buf) with (drop 4 (drop k buf)) by (rewrite drop_drop; reflexivity).
  rewrite <- (take_drop k buf) at 1.
  replace (Z.of_nat k) with (Z.of_nat (length (take k buf)))
    by (rewrite length_take; lia).
  revert Hd.
  generalize (take k buf) (drop k buf). intros pre rest Hd.
  destruct rest as [|b0 [|b1 [|b2 [|b3 post]]]]; simpl in Hd; try lia.
  rewrite setUint32_app, big_endian_4. reflexivity.
Qed.

Lemma setUint32_length (buf : list byte) (off v : Z) :
  length (setUint32 buf off v) = length buf.
Proof. unfold setUint32, Uint8Array_store. rewrite !length_insert. reflexivity. Qed.

Lemma digest_bytes (a b c d e f g h : Z) :
  word a -> word b -> word c -> word d -> word e -> word f -> word g -> word h ->
  setUint32 (setUint32 (setUint32 (setUint32 (setUint32 (setUint32 (setUint32 (setUint32
    (Uint8Array_new 32) 0 a) 4 b) 8 c) 12 d) 16 e) 20 f) 24 g) 28 h
  = concat (map (FIPS.big_endian 4) [a; b; c; d; e; f; g; h]).
Proof.
  intros Ha Hb Hc Hd He Hf Hg Hh.
  change (Uint8Array_new 32) with (replicate 32 x00).
  change 0 with (Z.of_nat 0) at 1. change 4 with (Z.of_nat 4) at 1.
  change 8 with (Z.of_nat 8) at 1. change 12 with (Z.of_nat 12).
  change 16 with (Z.of_nat 16). change 20 with (Z.of_nat 20).
  change 24 with (Z.of_nat 24). change 28 with (Z.of_nat 28).
  rewrite (setUint32_at _ 0) by (simpl; lia).
  rewrite (U_small a) by exact Ha. rewrite big_endian_4.
  cbn [take drop firstn skipn app replicate Nat.add].
  rewrite (setUint32_at _ 4) by (simpl; lia).
  rewrite (U_small b) by exact Hb. rewrite big_endian_4.
  cbn [take drop firstn skipn app replicate Nat.add].
  rewrite (setUint32_at _ 8) by (simpl; lia).
  rewrite (U_small c) by exact Hc. rewrite big_endian_4.
  cbn [take drop firstn skipn app replicate Nat.add].
  rewrite (setUint32_at _ 12) by (simpl; lia).
  rewrite (U_small d) by exact Hd. rewrite big_endian_4.
  cbn [take drop firstn skipn app replicate Nat.add].
  rewrite (setUint32_at _ 16) by (simpl; lia).
  rewrite (U_small e) by exact He. rewrite big_endian_4.
  cbn [take drop firstn skipn app replicate Nat.add].
  rewrite (setUint32_at _ 20) by (simpl; lia).
  rewrite (U_small f) by exact Hf. rewrite big_endian_4.
  cbn [take drop firstn skipn app replicate Nat.add].
  rewrite (setUint32_at _ 24) by (simpl; lia).
  rewrite (U_small g) by exact Hg. rewrite big_endian_4.
  cbn [take drop firstn skipn app replicate Nat.add].
  rewrite (setUint32_at _ 28) by (simpl; lia).
  rewrite (U_small h) by exact Hh. rewrite big_endian_4.
  cbn [take drop firstn skipn app replicate Nat.add].
  cbn [map concat]. rewrite !big_endian_4. reflexivity.
Qed.

(** ** The source computes the FIPS 180-4 digest *)

Lemma initial_chain_regs :
  regs_of_chain Sha256.initial_chain
  = (FIPS.H0 0, FIPS.H0 1, FIPS.H0 2, FIPS.H0 3, FIPS.H0 4, FIPS.H0 5, FIPS.H0 6, FIPS.H0 7).
Proof. vm_compute. reflexivity. Qed.

Lemma initial_chain_ok : chain_ok Sha256.initial_chain.
Proof. unfold chain_ok, word. simpl. lia. Qed.

Lemma sha256_blocks (message : list byte) :
  block_rel
    (for_loop 0 (Sha256.paddedLength message) 64 (Sha256.block (FIPS.pad message))
       (Sha256.initial_chain, Uint32Array_new 64))
    (fold_left (FIPS.compress (FIPS.pad message))
       (seq 0 (length (FIPS.pad message) / 64))
       (FIPS.H0 0, FIPS.H0 1, FIPS.H0 2, FIPS.H0 3, FIPS.H0 4, FIPS.H0 5, FIPS.H0 6, FIPS.H0 7)).
Proof.
  pose proof (pad_length message) as HL.
  destruct (paddedLength_spec message) as (_ & _ & Hm).
  set (N := (length (FIPS.pad message) / 64)%nat).
  assert (HN : Sha256.paddedLength message = 64 * Z.of_nat (0 + N)).
  { subst N. rewrite <- HL in *. rewrite Nat.add_0_l, Nat2Z.inj_div.
    change (Z.of_nat 64) with 64. Z.to_euclidean_division_equations. lia. }
  rewrite HN. change 0 with (64 * Z.of_nat 0) at 1.
  rewrite for_loop_fold by lia. rewrite <- initial_chain_regs.
  apply blocks_fold.
  - rewrite Nat.add_0_l in HN. lia.
  - reflexivity.
  - exact initial_chain_ok.
Qed.

Lemma sha256_is_FIPS (message : list byte) :
  Sha256.sha256 message = FIPS.SHA256 message.
Proof.
  unfold Sha256.sha256, FIPS.SHA256. cbv zeta.
  rewrite padded_buffer_pad.
  pose proof (sha256_blocks message) as HR.
  revert HR.
  generalize (for_loop 0 (Sha256.paddedLength message) 64 (Sha256.block (FIPS.pad message))
                (Sha256.initial_chain, Uint32Array_new 64)).
  generalize (fold_left (FIPS.compress (FIPS.pad message))
                (seq 0 (length (FIPS.pad message) / 64))
                (FIPS.H0 0, FIPS.H0 1, FIPS.H0 2, FIPS.H0 3,
                 FIPS.H0 4, FIPS.H0 5, FIPS.H0 6, FIPS.H0 7)).
  intros r [H w] (E & HH & _). cbn [fst] in E, HH. subst r.
  destruct H as [a b c d e f g h].
  destruct HH as (Ha & Hb & Hc & Hd & He & Hf & Hg & Hh).
  cbn [regs_of_chain Sha256.h0 Sha256.h1 Sha256.h2 Sha256.h3
       Sha256.h4 Sha256.h5 Sha256.h6 Sha256.h7] in *.
  apply digest_bytes; assumption.
Qed.

Lemma big_endian_length (n : nat) (v : Z) : length (FIPS.big_endian n v) = n.
Proof. unfold FIPS.big_endian. rewrite length_map, length_seq. reflexivity. Qed.

Lemma FIPS_SHA256_length (message : list byte) : length (FIPS.SHA256 message) = 32%nat.
Proof.
  unfold FIPS.SHA256. cbv zeta.
  generalize (fold_left (FIPS.compress (FIPS.pad message))
                (seq 0 (length (FIPS.pad message) / 64))
                (FIPS.H0 0, FIPS.H0 1, FIPS.H0 2, FIPS.H0 3,
                 FIPS.H0 4, FIPS.H0 5, FIPS.H0 6, FIPS.H0 7)).
  intros [[[[[[[a b] c] d] e] f] g] h].
  cbn [map concat]. rewrite !length_app, !big_endian_length. reflexivity.
Qed.

(** ** The bit operators on small non-negative numbers *)

Lemma lor_disjoint (q y k : Z) :
  0 <= k -> 0 <= y < 2^k -> Z.lor (q * 2^k) y = q * 2^k + y.
Proof.
  intros Hk Hy. symmetry. apply Z.add_nocarry_lor.
  apply Z.bits_inj'. intros i Hi. rewrite Z.land_spec, Z.bits_0.
  destruct (Z.ltb_spec i k) as [Hlt|Hge].
  - rewrite Z.mul_pow2_bits_low by lia. reflexivity.
  - rewrite <- (Z.mod_small y (2^k)) by lia.
    rewrite Z.mod_pow2_bits_high by lia. apply andb_false_r.
Qed.

Lemma JS_shl_small (a k : Z) :
  0 <= k < 32 -> 0 <= a -> a * 2^k < 2^31 -> JS.shl a k = a * 2^k.
Proof.
  intros Hk Ha Hb. unfold JS.shl.
  assert (0 < 2^k) by (apply Z.pow_pos_nonneg; lia).
  rewrite (ToInt32_small a) by nia.
  rewrite (U_small k), (Z.mod_small k) by lia.
  rewrite Z.shiftl_mul_pow2 by lia. apply ToInt32_small. nia.
Qed.

Lemma JS_bor_add (q y k : Z) :
  0 <= k -> 0 <= q -> 0 <= y < 2^k -> q * 2^k + y < 2^31 ->
  JS.bor (q * 2^k) y = q * 2^k + y.
Proof.
  intros Hk Hq Hy Hb. unfold JS.bor.
  assert (0 < 2^k) by (apply Z.pow_pos_nonneg; lia).
  rewrite !ToInt32_small by nia. apply lor_disjoint; lia.
Qed.

Lemma JS_sar_small (t k : Z) :
  0 <= k < 32 -> 0 <= t < 2^31 -> JS.sar t k = t / 2^k.
Proof.
  intros Hk Ht. unfold JS.sar.
  rewrite (ToInt32_small t) by lia.
  rewrite (U_small k), (Z.mod_small k) by lia.
  apply Z.shiftr_div_pow2. lia.
Qed.

Lemma JS_band_ones (t j : Z) :
  0 <= j < 31 -> 0 <= t < 2^31 -> JS.band t (Z.ones j) = t mod 2^j.
Proof.
  intros Hj Ht. unfold JS.band.
  assert (0 < 2^j < 2^31) by (split; [apply Z.pow_pos_nonneg; lia | apply Z.pow_lt_mono_r; lia]).
  rewrite (ToInt32_small t) by lia.
  rewrite (ToInt32_small (Z.ones j)) by (rewrite Z.ones_equiv; lia).
  apply Z.land_ones. lia.
Qed.

Ltac euclid := Z.to_euclidean_division_equations; lia.

(** The 24-bit group of the encoder and its four 6-bit digits. *)
Lemma encode_triple (a b c : Z) :
  0 <= a < 256 -> 0 <= b < 256 -> 0 <= c < 256 ->
  JS.bor (JS.bor (JS.shl a 16) (JS.shl b 8)) c = a * 65536 + b * 256 + c.
Proof.
  intros Ha Hb Hc.
  rewrite (JS_shl_small a 16), (JS_shl_small b 8) by lia.
  rewrite (JS_bor_add a (b * 2^8) 16) by lia.
  replace (a * 2^16 + b * 2^8) with ((a * 256 + b) * 2^8) by lia.
  rewrite (JS_bor_add (a * 256 + b) c 8) by lia. lia.
Qed.

Lemma encode_digits (t : Z) :
  0 <= t < 2^24 ->
  JS.band (JS.sar t 18) 63 = t / 262144
  /\ JS.band (JS.sar t 12) 63 = (t / 4096) mod 64
  /\ JS.band (JS.sar t 6) 63 = (t / 64) mod 64
  /\ JS.band t 63 = t mod 64.
Proof.
  intros Ht. change 63 with (Z.ones 6).
  rewrite !JS_sar_small by lia.
  rewrite !JS_band_ones by euclid.
  change (2^18) with 262144. change (2^12) with 4096. change (2^6) with 64.
  repeat split; try reflexivity. euclid.
Qed.

(** The 24-bit group of the decoder and its three bytes. *)
Lemma decode_chunk (s1 s2 s3 s4 : Z) :
  0 <= s1 < 64 -> 0 <= s2 < 64 -> 0 <= s3 < 64 -> 0 <= s4 < 64 ->
  JS.bor (JS.bor (JS.bor (JS.shl s1 18) (JS.shl s2 12)) (JS.shl s3 6)) s4
  = s1 * 262144 + s2 * 4096 + s3 * 64 + s4.
Proof.
  intros H1 H2 H3 H4.
  rewrite (JS_shl_small s1 18), (JS_shl_small s2 12), (JS_shl_small s3 6) by lia.
  rewrite (JS_bor_add s1 (s2 * 2^12) 18) by lia.
  replace (s1 * 2^18 + s2 * 2^12) with ((s1 * 64 + s2) * 2^12) by lia.
  rewrite (JS_bor_add (s1 * 64 + s2) (s3 * 2^6) 12) by lia.
  replace ((s1 * 64 + s2) * 2 ^ 12 + s3 * 2 ^ 6) with (((s1 * 64 + s2) * 64 + s3) * 2^6) by lia.
  rewrite (JS_bor_add ((s1 * 64 + s2) * 64 + s3) s4 6) by lia. lia.
Qed.

Lemma decode_bytes (t : Z) :
  0 <= t < 2^24 ->
  JS.band (JS.sar t 16) 0xff = t / 65536
  /\ JS.band (JS.sar t 8) 0xff = (t / 256) mod 256
  /\ JS.band t 0xff = t mod 256.
Proof.
  intros Ht. change 0xff with (Z.ones 8).
  rewrite !JS_sar_small by lia.
  rewrite !JS_band_ones by euclid.
  change (2^16) with 65536. change (2^8) with 256.
  repeat split; try reflexivity. euclid.
Qed.

(** ** Loops that append to a list *)

Lemma for_fuel_app {A : Type} (body : Z -> list A -> list A) (bound step : Z) :
  (forall i acc, body i acc = acc ++ body i []) ->
  forall (fuel : nat) (i : Z) (acc : list A),
    for_fuel fuel i bound step body acc = acc ++ for_fuel fuel i bound step body [].
Proof.
  intros Hb fuel. induction fuel as [|fuel IH]; intros i acc; simpl.
  - rewrite app_nil_r. reflexivity.
  - destruct (i <? bound); [|rewrite app_nil_r; reflexivity].
    rewrite IH, (IH _ (body i [])), (Hb i acc), app_assoc. reflexivity.
Qed.

Lemma for_fuel_shift {S : Type} (body body' : Z -> S -> S) (bound step d lo : Z) :
  0 <= step ->
  (forall i s, lo <= i -> body' (i + d) s = body i s) ->
  forall (fuel : nat) (i : Z) (s : S),
    lo <= i ->
    for_fuel fuel (i + d) (bound + d) step body' s = for_fuel fuel i bound step body s.
Proof.
  intros Hstep Hb fuel. induction fuel as [|fuel IH]; intros i s Hi; simpl; [reflexivity|].
  replace (i + d <? bound + d) with (i <? bound)
    by (destruct (Z.ltb_spec i bound), (Z.ltb_spec (i + d) (bound + d)); lia || reflexivity).
  destruct (i <? bound); [|reflexivity].
  rewrite Hb by lia. replace (i + d + step) with (i + step + d) by lia.
  apply IH. lia.
Qed.

(** A loop over a list that is consumed [d] elements at a time: the first
    round, then the loop over the rest. *)
Lemma for_loop_chunk {A B : Type} (d : Z) (body : list B -> Z -> list A -> list A)
    (chunk rest : list B) :
  1 <= d -> Z.of_nat (length chunk) = d ->
  (forall l i acc, body l i acc = acc ++ body l i []) ->
  (forall i s, 0 <= i -> body (chunk ++ rest) (i + d) s = body rest i s) ->
  for_loop 0 (Z.of_nat (length (chunk ++ rest))) d (body (chunk ++ rest)) []
  = body (chunk ++ rest) 0 []
    ++ for_loop 0 (Z.of_nat (length rest)) d (body rest) [].
Proof.
  intros Hd Hlen Hacc Hshift.
  rewrite for_loop_unfold by lia. rewrite length_app, Nat2Z.inj_add, Hlen.
  destruct (Z.ltb_spec 0 (d + Z.of_nat (length rest))); [|lia].
  unfold for_loop. rewrite (for_fuel_app _ _ _ (Hacc (chunk ++ rest))). f_equal.
  replace (d + Z.of_nat (length rest) - (0 + d)) with (Z.of_nat (length rest) - 0) by lia.
  replace (d + Z.of_nat (length rest)) with (Z.of_nat (length rest) + d) by lia.
  apply (for_fuel_shift (body rest) (body (chunk ++ rest)) _ d d 0); [lia| |lia].
  intros i s Hi. apply Hshift. exact Hi.
Qed.

Lemma for_loop_once {S : Type} (body : Z -> S -> S) (bound step : Z) (s : S) :
  1 <= step -> 0 < bound <= step -> for_loop 0 bound step body s = body 0 s.
Proof.
  intros Hs Hb. rewrite for_loop_unfold by lia.
  destruct (Z.ltb_spec 0 bound); [|lia].
  rewrite for_loop_unfold by lia.
  destruct (Z.ltb_spec (0 + step) bound); [lia | reflexivity].
Qed.

(** ** The alphabet *)

Lemma forall_below (n : nat) (p : Z -> bool) :
  forallb p (map Z.of_nat (seq 0 n)) = true ->
  forall v, 0 <= v < Z.of_nat n -> p v = true.
Proof.
  intros H v Hv. rewrite forallb_forall in H. apply H.
  apply in_map_iff. exists (Z.to_nat v). split; [lia|]. apply in_seq. lia.
Qed.

Lemma alphabet_char (d : Z) :
  0 <= d < 64 -> char_at BASE64_CHARS d = Some (RFC4648.digit_char d).
Proof.
  intros Hd.
  apply (forall_below 64
           (fun d => bool_decide (char_at BASE64_CHARS d = Some (RFC4648.digit_char d))))
    in Hd; [|vm_compute; reflexivity].
  apply bool_decide_eq_true in Hd. exact Hd.
Qed.

Lemma alphabet_index (d : Z) :
  0 <= d < 64 -> indexOf BASE64_CHARS (Some (RFC4648.digit_char d)) = d.
Proof.
  intros Hd.
  apply (forall_below 64
           (fun d => indexOf BASE64_CHARS (Some (RFC4648.digit_char d)) =? d))
    in Hd; [|vm_compute; reflexivity].
  apply Z.eqb_eq in Hd. exact Hd.
Qed.

Lemma alphabet_not_pad (d : Z) : 0 <= d < 64 -> RFC4648.digit_char d <> chr "=".
Proof.
  intros Hd.
  apply (forall_below 64 (fun d => negb (RFC4648.digit_char d =? chr "=")))
    in Hd; [|vm_compute; reflexivity].
  apply negb_true_iff, Z.eqb_neq in Hd. exact Hd.
Qed.

Lemma alphabet_url (d : Z) :
  0 <= d < 64 ->
  RFC4648.url_safe (RFC4648.url_char (RFC4648.digit_char d)) = true
  /\ RFC4648.url_char (RFC4648.digit_char d) <> chr "="
  /\ (let c := RFC4648.url_char (RFC4648.digit_char d) in
      let c' := if c =? chr "-" then chr "+" else c in
      (if c' =? chr "_" then chr "/" else c') = RFC4648.digit_char d).
Proof.
  intros Hd.
  apply (forall_below 64
           (fun d =>
              let c := RFC4648.url_char (RFC4648.digit_char d) in
              let c' := if c =? chr "-" then chr "+" else c in
              RFC4648.url_safe c && negb (c =? chr "=")
              && ((if c' =? chr "_" then chr "/" else c') =? RFC4648.digit_char d)))
    in Hd; [|vm_compute; reflexivity].
  cbv zeta in Hd. apply andb_true_iff in Hd. destruct Hd as [Hd H3].
  apply andb_true_iff in Hd. destruct Hd as [H1 H2].
  apply negb_true_iff, Z.eqb_neq in H2. apply Z.eqb_eq in H3. auto.
Qed.

Lemma index_str_alphabet (d : Z) :
  0 <= d < 64 -> index_str BASE64_CHARS d = [RFC4648.digit_char d].
Proof. intros Hd. unfold index_str. rewrite alphabet_char by exact Hd. reflexivity. Qed.

(** ** The encoder, group by group *)

Lemma rd8_0 (x : byte) (l : list byte) : rd8 (x :: l) 0 = byte_val x.
Proof. reflexivity. Qed.
Lemma rd8_1 (x y : byte) (l : list byte) : rd8 (x :: y :: l) (0 + 1) = byte_val y.
Proof. reflexivity. Qed.
Lemma rd8_2 (x y z : byte) (l : list byte) : rd8 (x :: y :: z :: l) (0 + 2) = byte_val z.
Proof. reflexivity. Qed.

Lemma rd8_shift (pre l : list byte) (i : Z) :
  0 <= i -> rd8 (pre ++ l) (i + Z.of_nat (length pre)) = rd8 l i.
Proof.
  intros Hi. unfold rd8. f_equal.
  replace (Z.to_nat (i + Z.of_nat (length pre))) with (length pre + Z.to_nat i)%nat by lia.
  rewrite !nth_lookup, lookup_app_r by lia. do 2 f_equal. lia.
Qed.

Lemma app4_acc {A : Type} (r a b c d : list A) :
  (((r ++ a) ++ b) ++ c) ++ d = r ++ ((([] ++ a) ++ b) ++ c) ++ d.
Proof. simpl. rewrite <- !app_assoc. reflexivity. Qed.

Lemma encode_step_acc (bytes : list byte) (i : Z) (acc : jsstring) :
  encode_step bytes i acc = acc ++ encode_step bytes i [].
Proof. unfold encode_step. cbv zeta. apply app4_acc. Qed.

Lemma ltb_shift (i len d : Z) : (i + d <? len + d) = (i <? len).
Proof. destruct (Z.ltb_spec i len), (Z.ltb_spec (i + d) (len + d)); lia || reflexivity. Qed.

Lemma encode_step_shift (x y z : byte) (rest : list byte) (i : Z) (s : jsstring) :
  0 <= i -> encode_step ([x; y; z] ++ rest) (i + 3) s = encode_step rest i s.
Proof.
  intros Hi. unfold encode_step. cbv zeta.
  rewrite length_app, Nat2Z.inj_add. change (Z.of_nat (length [x; y; z])) with 3.
  replace (i + 3 + 1) with (i + 1 + 3) by lia.
  replace (i + 3 + 2) with (i + 2 + 3) by lia.
  replace (3 + Z.of_nat (length rest)) with (Z.of_nat (length rest) + 3) by lia.
  rewrite !ltb_shift.
  change 3 with (Z.of_nat (length [x; y; z])) at 1 3 5.
  rewrite !rd8_shift by lia. reflexivity.
Qed.

Lemma encode_group (a b c : Z) :
  0 <= a < 256 -> 0 <= b < 256 -> 0 <= c < 256 ->
  let triple := JS.bor (JS.bor (JS.shl a 16) (JS.shl b 8)) c in
  index_str BASE64_CHARS (JS.band (JS.sar triple 18) 63) = [RFC4648.digit_char (a / 4)]
  /\ index_str BASE64_CHARS (JS.band (JS.sar triple 12) 63)
     = [RFC4648.digit_char (a mod 4 * 16 + b / 16)]
  /\ index_str BASE64_CHARS (JS.band (JS.sar triple 6) 63)
     = [RFC4648.digit_char (b mod 16 * 4 + c / 64)]
  /\ index_str BASE64_CHARS (JS.band triple 63) = [RFC4648.digit_char (c mod 64)].
Proof.
  intros Ha Hb Hc triple. subst triple. rewrite encode_triple by assumption.
  destruct (encode_digits (a * 65536 + b * 256 + c)) as (E1 & E2 & E3 & E4); [lia|].
  rewrite E1, E2, E3, E4.
  replace ((a * 65536 + b * 256 + c) / 262144) with (a / 4) by euclid.
  replace (((a * 65536 + b * 256 + c) / 4096) mod 64) with (a mod 4 * 16 + b / 16) by euclid.
  replace (((a * 65536 + b * 256 + c) / 64) mod 64) with (b mod 16 * 4 + c / 64) by euclid.
  replace ((a * 65536 + b * 256 + c) mod 64) with (c mod 64) by euclid.
  rewrite !index_str_alphabet by euclid. auto.
Qed.

Lemma bytesToBase64_rfc (bytes : list byte) : bytesToBase64 bytes = RFC4648.encode bytes.
Proof.
  induction bytes as [bytes IH] using (induction_ltof1 _ (@length byte)).
  unfold ltof in IH.
  destruct bytes as [|x [|y [|z rest]]].
  - reflexivity.
  - unfold bytesToBase64. rewrite for_loop_once by (simpl; lia).
    unfold encode_step. cbv zeta. simpl length. change (Z.of_nat 1) with 1.
    change (0 + 1 <? 1) with false. change (0 + 2 <? 1) with false. cbv iota.
    rewrite rd8_0.
    pose proof (byte_val_range x) as Hx.
    destruct (encode_group (byte_val x) 0 0) as (E1 & E2 & _); [lia..|].
    rewrite E1, E2. cbn [RFC4648.encode]. cbv zeta.
    change (0 / 16) with 0. rewrite Z.add_0_r. reflexivity.
  - unfold bytesToBase64. rewrite for_loop_once by (simpl; lia).
    unfold encode_step. cbv zeta. simpl length. change (Z.of_nat 2) with 2.
    change (0 + 1 <? 2) with true. change (0 + 2 <? 2) with false. cbv iota.
    rewrite rd8_0, rd8_1.
    pose proof (byte_val_range x) as Hx. pose proof (byte_val_range y) as Hy.
    destruct (encode_group (byte_val x) (byte_val y) 0) as (E1 & E2 & E3 & _); [lia..|].
    rewrite E1, E2, E3. cbn [RFC4648.encode]. cbv zeta.
    change (0 / 64) with 0. rewrite Z.add_0_r. reflexivity.
  - unfold bytesToBase64.
    change (x :: y :: z :: rest) with ([x; y; z] ++ rest).
    rewrite (for_loop_chunk 3 encode_step [x; y; z] rest);
      [| lia | reflexivity | intros; apply encode_step_acc
       | intros; apply encode_step_shift; assumption].
    fold (bytesToBase64 rest). rewrite IH by (simpl; lia).
    cbn [RFC4648.encode app]. cbv zeta. f_equal.
    unfold encode_step. cbv zeta. simpl length.
    replace (0 + 1 <? Z.of_nat (Datatypes.S (Datatypes.S (Datatypes.S (length rest)))))
      with true by (symmetry; apply Z.ltb_lt; lia).
    replace (0 + 2 <? Z.of_nat (Datatypes.S (Datatypes.S (Datatypes.S (length rest)))))
      with true by (symmetry; apply Z.ltb_lt; lia).
    rewrite rd8_0, rd8_1, rd8_2.
    pose proof (byte_val_range x) as Hx. pose proof (byte_val_range y) as Hy.
    pose proof (byte_val_range z) as Hz.
    destruct (encode_group (byte_val x) (byte_val y) (byte_val z))
      as (E1 & E2 & E3 & E4); [lia..|].
    rewrite E1, E2, E3, E4. reflexivity.
Qed.

(** ** The decoder, group by group *)

Lemma app3_acc {A : Type} (r : list A) (x y z : A) (b3 b4 : bool) :
  (if b4 then (if b3 then (r ++ [x]) ++ [y] else r ++ [x]) ++ [z]
   else (if b3 then (r ++ [x]) ++ [y] else r ++ [x]))
  = r ++ (if b4 then (if b3 then ([] ++ [x]) ++ [y] else [] ++ [x]) ++ [z]
          else (if b3 then ([] ++ [x]) ++ [y] else [] ++ [x])).
Proof. destruct b3, b4; simpl; rewrite <- ?app_assoc; reflexivity. Qed.

Lemma decode_step_acc (padded : jsstring) (i : Z) (acc : list Z) :
  decode_step padded i acc = acc ++ decode_step padded i [].
Proof. unfold decode_step. cbv zeta. apply app3_acc. Qed.

Lemma char_at_shift (pre l : jsstring) (i : Z) :
  0 <= i -> char_at (pre ++ l) (i + Z.of_nat (length pre)) = char_at l i.
Proof.
  intros Hi. unfold char_at.
  destruct (Z.ltb_spec (i + Z.of_nat (length pre)) 0); [lia|].
  destruct (Z.ltb_spec i 0); [lia|].
  replace (Z.to_nat (i + Z.of_nat (length pre))) with (length pre + Z.to_nat i)%nat by lia.
  rewrite lookup_app_r by lia. f_equal. lia.
Qed.

Lemma decode_step_shift (q1 q2 q3 q4 : Z) (rest : jsstring) (i : Z) (s : list Z) :
  0 <= i -> decode_step ([q1; q2; q3; q4] ++ rest) (i + 4) s = decode_step rest i s.
Proof.
  intros Hi. unfold decode_step. cbv zeta.
  replace (i + 4 + 1) with (i + 1 + 4) by lia.
  replace (i + 4 + 2) with (i + 2 + 4) by lia.
  replace (i + 4 + 3) with (i + 3 + 4) by lia.
  change 4 with (Z.of_nat (length [q1; q2; q3; q4])).
  rewrite !char_at_shift by lia. reflexivity.
Qed.

Lemma decode_loop_cons (q1 q2 q3 q4 : Z) (rest : jsstring) :
  decode_loop (q1 :: q2 :: q3 :: q4 :: rest)
  = decode_step (q1 :: q2 :: q3 :: q4 :: rest) 0 [] ++ decode_loop rest.
Proof.
  unfold decode_loop. change (q1 :: q2 :: q3 :: q4 :: rest) with ([q1; q2; q3; q4] ++ rest).
  apply (for_loop_chunk 4 decode_step [q1; q2; q3; q4] rest).
  - lia.
  - reflexivity.
  - intros. apply decode_step_acc.
  - intros. apply decode_step_shift. assumption.
Qed.

Lemma char_at_0 (q : Z) (l : jsstring) : char_at (q :: l) 0 = Some q.
Proof. reflexivity. Qed.
Lemma char_at_1 (q0 q : Z) (l : jsstring) : char_at (q0 :: q :: l) (0 + 1) = Some q.
Proof. reflexivity. Qed.
Lemma char_at_2 (q0 q1 q : Z) (l : jsstring) : char_at (q0 :: q1 :: q :: l) (0 + 2) = Some q.
Proof. reflexivity. Qed.
Lemma char_at_3 (q0 q1 q2 q : Z) (l : jsstring) :
  char_at (q0 :: q1 :: q2 :: q :: l) (0 + 3) = Some q.
Proof. reflexivity. Qed.

Lemma not_pad_decide (d : Z) :
  0 <= d < 64 -> bool_decide (Some (dc d) = Some (chr "=")) = false.
Proof.
  intros Hd. apply bool_decide_eq_false. intros E. injection E as E.
  exact (alphabet_not_pad d Hd E).
Qed.

Lemma decode_full (d1 d2 d3 d4 : Z) (rest : jsstring) :
  0 <= d1 < 64 -> 0 <= d2 < 64 -> 0 <= d3 < 64 -> 0 <= d4 < 64 ->
  let c := d1 * 262144 + d2 * 4096 + d3 * 64 + d4 in
  decode_step (dc d1 :: dc d2 :: dc d3 :: dc d4 :: rest) 0 []
  = [c / 65536; (c / 256) mod 256; c mod 256].
Proof.
  intros H1 H2 H3 H4 c. unfold decode_step. cbv zeta.
  rewrite char_at_0, char_at_1, char_at_2, char_at_3.
  rewrite !alphabet_index, !not_pad_decide by assumption.
  replace (d3 <? 0) with false by (symmetry; apply Z.ltb_ge; lia).
  replace (d4 <? 0) with false by (symmetry; apply Z.ltb_ge; lia).
  replace (0 <=? d3) with true by (symmetry; apply Z.leb_le; lia).
  replace (0 <=? d4) with true by (symmetry; apply Z.leb_le; lia).
  rewrite decode_chunk by assumption. fold c.
  destruct (decode_bytes c) as (E1 & E2 & E3); [subst c; lia|].
  rewrite E1, E2, E3. reflexivity.
Qed.

Lemma decode_pad1 (d1 d2 d3 : Z) (rest : jsstring) :
  0 <= d1 < 64 -> 0 <= d2 < 64 -> 0 <= d3 < 64 ->
  let c := d1 * 262144 + d2 * 4096 + d3 * 64 in
  decode_step (dc d1 :: dc d2 :: dc d3 :: chr "=" :: rest) 0 []
  = [c / 65536; (c / 256) mod 256].
Proof.
  intros H1 H2 H3 c. unfold decode_step. cbv zeta.
  rewrite char_at_0, char_at_1, char_at_2, char_at_3.
  rewrite !alphabet_index, !not_pad_decide by assumption.
  replace (bool_decide (Some (chr "=") = Some (chr "="))) with true
    by (symmetry; apply bool_decide_eq_true; reflexivity).
  replace (d3 <? 0) with false by (symmetry; apply Z.ltb_ge; lia).
  replace (0 <=? d3) with true by (symmetry; apply Z.leb_le; lia).
  change (-1 <? 0) with true. change (0 <=? -1) with false. cbv iota.
  rewrite (decode_chunk d1 d2 d3 0) by lia. rewrite Z.add_0_r. fold c.
  destruct (decode_bytes c) as (E1 & E2 & E3); [subst c; lia|].
  rewrite E1, E2. reflexivity.
Qed.

Lemma decode_pad2 (d1 d2 : Z) (rest : jsstring) :
  0 <= d1 < 64 -> 0 <= d2 < 64 ->
  let c := d1 * 262144 + d2 * 4096 in
  decode_step (dc d1 :: dc d2 :: chr "=" :: chr "=" :: rest) 0 [] = [c / 65536].
Proof.
  intros H1 H2 c. unfold decode_step. cbv zeta.
  rewrite char_at_0, char_at_1, char_at_2, char_at_3.
  rewrite !alphabet_index by assumption.
  replace (bool_decide (Some (chr "=") = Some (chr "="))) with true
    by (symmetry; apply bool_decide_eq_true; reflexivity).
  change (-1 <? 0) with true. change (0 <=? -1) with false. cbv iota.
  rewrite (decode_chunk d1 d2 0 0) by lia. rewrite Z.mul_0_l, !Z.add_0_r. fold c.
  destruct (decode_bytes c) as (E1 & E2 & E3); [subst c; lia|].
  rewrite E1. reflexivity.
Qed.

(** Decoding the padded RFC 4648 text gives the bytes back. *)
Lemma decode_loop_rfc (bytes : list byte) :
  decode_loop (RFC4648.encode bytes) = map byte_val bytes.
Proof.
  induction bytes as [bytes IH] using (induction_ltof1 _ (@length byte)).
  unfold ltof in IH.
  destruct bytes as [|x [|y [|z rest]]].
  - reflexivity.
  - cbn [RFC4648.encode map]. cbv zeta. pose proof (byte_val_range x) as Hx.
    rewrite decode_loop_cons, decode_pad2 by euclid.
    change (decode_loop []) with (@nil Z). rewrite app_nil_r. cbv zeta.
    f_equal. euclid.
  - cbn [RFC4648.encode map]. cbv zeta.
    pose proof (byte_val_range x) as Hx. pose proof (byte_val_range y) as Hy.
    rewrite decode_loop_cons, decode_pad1 by euclid.
    change (decode_loop []) with (@nil Z). rewrite app_nil_r. cbv zeta.
    f_equal; [euclid|]. f_equal. euclid.
  - cbn [RFC4648.encode map app]. cbv zeta.
    pose proof (byte_val_range x) as Hx. pose proof (byte_val_range y) as Hy.
    pose proof (byte_val_range z) as Hz.
    rewrite decode_loop_cons, decode_full by euclid.
    rewrite IH by (simpl; lia). cbv zeta. cbn [app].
    f_equal; [euclid|]. f_equal; [euclid|]. f_equal. euclid.
Qed.

(** ** Removing and restoring the padding *)

Lemma forallb_all_last (c : Z) (s : jsstring) :
  s <> [] -> forallb (fun y => y =? c) s = true -> last s = Some c.
Proof.
  induction s as [|x s IH]; intros Hne H; [congruence|].
  simpl in H. apply andb_true_iff in H. destruct H as [Hx Hs].
  apply Z.eqb_eq in Hx. subst x. destruct s as [|y s]; [reflexivity|].
  rewrite last_cons. rewrite IH by (congruence || exact Hs). reflexivity.
Qed.

Lemma remove_trailing_run (c : Z) (s : jsstring) (p : nat) :
  last s <> Some c -> remove_trailing c (s ++ replicate p c) = s.
Proof.
  induction s as [|x s IH]; intros Hl.
  - simpl app. destruct p as [|p]; [reflexivity|].
    cbn [replicate remove_trailing].
    replace (forallb (fun y => y =? c) (c :: replicate p c)) with true; [reflexivity|].
    symmetry. change (c :: replicate p c) with (replicate (Datatypes.S p) c).
    generalize (Datatypes.S p). clear. intros n.
    induction n as [|n IH]; [reflexivity|]. simpl. rewrite Z.eqb_refl. exact IH.
  - cbn [app remove_trailing].
    destruct (forallb (fun y => y =? c) (x :: s ++ replicate p c)) eqn:E.
    + exfalso. apply Hl. apply forallb_all_last; [congruence|].
      change (x :: s ++ replicate p c) with ((x :: s) ++ replicate p c) in E.
      rewrite forallb_app in E. apply andb_true_iff in E. tauto.
    + f_equal. apply IH. destruct s as [|y s]; [discriminate|].
      rewrite last_cons in Hl. destruct (last (y :: s)); [exact Hl | discriminate].
Qed.

Lemma last_map_eq {A B : Type} (f : A -> B) (l : list A) :
  last (map f l) = option_map f (last l).
Proof.
  induction l as [|x l IH]; [reflexivity|].
  rewrite map_cons, !last_cons, IH. destruct (last l); reflexivity.
Qed.

Lemma url_char_twice (c : Z) :
  (if (if c =? chr "+" then chr "-" else c) =? chr "/" then chr "_"
   else (if c =? chr "+" then chr "-" else c)) = RFC4648.url_char c.
Proof.
  unfold RFC4648.url_char.
  destruct (Z.eqb_spec c (chr "+")) as [->|H1]; [reflexivity|reflexivity].
Qed.

Lemma url_char_pad (c : Z) : RFC4648.url_char c = chr "=" <-> c = chr "=".
Proof.
  unfold RFC4648.url_char.
  destruct (Z.eqb_spec c (chr "+")) as [->|H1]; [split; discriminate|].
  destruct (Z.eqb_spec c (chr "/")) as [->|H2]; [split; discriminate|]. tauto.
Qed.

(** [toBase64Url] on any text: the trailing run of ['='] goes, every other
    character is mapped to the URL-safe alphabet. *)
Lemma toBase64Url_shape (core : jsstring) (p : nat) :
  last core <> Some (chr "=") ->
  toBase64Url (core ++ replicate p (chr "=")) = map RFC4648.url_char core.
Proof.
  intros Hl. unfold toBase64Url, replace_all.
  rewrite map_map, map_app.
  replace (map (fun x => if (if x =? chr "+" then chr "-" else x) =? chr "/" then chr "_"
                         else if x =? chr "+" then chr "-" else x)
               (replicate p (chr "=")))
    with (replicate p (chr "=")).
  2:{ clear. induction p as [|p IH]; [reflexivity|]. simpl replicate. rewrite map_cons, <- IH.
      reflexivity. }
  rewrite (map_ext _ RFC4648.url_char) by (intros; apply url_char_twice).
  apply remove_trailing_run.
  rewrite last_map_eq. destruct (last core) as [c|] eqn:E; [|discriminate].
  cbn [option_map]. intros H. injection H as H. apply (proj1 (url_char_pad c)) in H.
  apply Hl. rewrite H. reflexivity.
Qed.

(** ** The shape of an encoding *)

Lemma alpha_dc (d : Z) : 0 <= d < 64 -> alpha (dc d).
Proof. intros Hd. exists d. auto. Qed.

Lemma rfc_shape (bytes : list byte) :
  exists (core : jsstring) (p : nat),
    RFC4648.encode bytes = core ++ replicate p (chr "=")
    /\ Forall alpha core /\ (p <= 2)%nat /\ ((length core + p) mod 4 = 0)%nat
    /\ RFC4648.encode_url bytes = map RFC4648.url_char core.
Proof.
  induction bytes as [bytes IH] using (induction_ltof1 _ (@length byte)).
  unfold ltof in IH.
  destruct bytes as [|x [|y [|z rest]]].
  - exists [], 0%nat. repeat split; [constructor | lia].
  - pose proof (byte_val_range x) as Hx.
    exists [dc (byte_val x / 4); dc (byte_val x mod 4 * 16)], 2%nat.
    repeat split; [|lia].
    repeat constructor; apply alpha_dc; euclid.
  - pose proof (byte_val_range x) as Hx. pose proof (byte_val_range y) as Hy.
    exists [dc (byte_val x / 4); dc (byte_val x mod 4 * 16 + byte_val y / 16);
            dc (byte_val y mod 16 * 4)], 1%nat.
    repeat split; [|lia].
    repeat constructor; apply alpha_dc; euclid.
  - pose proof (byte_val_range x) as Hx. pose proof (byte_val_range y) as Hy.
    pose proof (byte_val_range z) as Hz.
    destruct (IH rest) as (core & p & E & Hc & Hp & Hm & Hu); [simpl; lia|].
    exists ([dc (byte_val x / 4); dc (byte_val x mod 4 * 16 + byte_val y / 16);
             dc (byte_val y mod 16 * 4 + byte_val z / 64); dc (byte_val z mod 64)] ++ core), p.
    cbn [RFC4648.encode RFC4648.encode_url]. cbv zeta. rewrite E, Hu.
    split; [rewrite <- app_assoc; reflexivity|].
    split; [|split; [exact Hp|split; [|rewrite map_app; reflexivity]]].
    + apply Forall_app. split; [|exact Hc].
      repeat constructor; apply alpha_dc; euclid.
    + rewrite length_app. simpl length.
      replace (4 + length core + p)%nat with (length core + p + 1 * 4)%nat by lia.
      rewrite Nat.Div0.mod_add. exact Hm.
Qed.

Lemma alpha_last (core : jsstring) : Forall alpha core -> last core <> Some (chr "=").
Proof.
  intros H E. apply last_Some in E. destruct E as [l' ->].
  apply Forall_app in H. destruct H as [_ H]. inversion H as [|? ? (d & Hd & E) _]; subst.
  exact (alphabet_not_pad d Hd (eq_sym E)).
Qed.

Lemma url_char_back (core : jsstring) :
  Forall alpha core ->
  replace_all (chr "_") (chr "/") (replace_all (chr "-") (chr "+") (map RFC4648.url_char core))
  = core.
Proof.
  intros H. unfold replace_all. rewrite !map_map.
  induction H as [|c core (d & Hd & ->) _ IH]; [reflexivity|].
  rewrite map_cons, IH. f_equal.
  destruct (alphabet_url d Hd) as (_ & _ & E). exact E.
Qed.

Lemma padEnd_restore (core : jsstring) (p : nat) :
  (p <= 2)%nat -> ((length core + p) mod 4 = 0)%nat ->
  padEnd core (JS.ceil_div (Z.of_nat (length core)) 4 * 4) (chr "=")
  = core ++ replicate p (chr "=").
Proof.
  intros Hp Hm. unfold padEnd, JS.ceil_div. do 2 f_equal.
  apply Nat.Div0.div_exact in Hm.
  assert (Z.of_nat (length core) + Z.of_nat p
          = 4 * Z.of_nat ((length core + p) / 4)) by lia.
  generalize dependent (Z.of_nat ((length core + p) / 4)). intros k Hk.
  euclid.
Qed.

(** ** Round trip on the byte array *)

Lemma base64UrlToBytes_loop (input : jsstring) :
  base64UrlToBytes input
  = decode_loop
      (padEnd (replace_all (chr "_") (chr "/") (replace_all (chr "-") (chr "+") input))
         (JS.ceil_div
            (Z.of_nat (length (replace_all (chr "_") (chr "/")
                                 (replace_all (chr "-") (chr "+") input)))) 4 * 4)
         (chr "=")).
Proof. reflexivity. Qed.

Lemma base64url_bytes_roundtrip (bytes : list byte) :
  base64UrlToBytes (toBase64Url (bytesToBase64 bytes)) = map byte_val bytes.
Proof.
  rewrite bytesToBase64_rfc.
  destruct (rfc_shape bytes) as (core & p & E & Hc & Hp & Hm & Hu).
  rewrite base64UrlToBytes_loop.
  rewrite E, toBase64Url_shape by (apply alpha_last; exact Hc).
  rewrite url_char_back by exact Hc.
  rewrite (padEnd_restore core p Hp Hm), <- E.
  apply decode_loop_rfc.
Qed.

Lemma base64url_safe (bytes : list byte) :
  Forall (fun c => RFC4648.url_safe c = true) (toBase64Url (bytesToBase64 bytes)).
Proof.
  rewrite bytesToBase64_rfc.
  destruct (rfc_shape bytes) as (core & p & E & Hc & Hp & Hm & Hu).
  rewrite E, toBase64Url_shape by (apply alpha_last; exact Hc).
  apply Forall_map. eapply Forall_impl; [exact Hc|].
  intros c (d & Hd & ->). simpl. apply (alphabet_url d Hd).
Qed.

Lemma toBase64Url_rfc (bytes : list byte) :
  toBase64Url (bytesToBase64 bytes) = RFC4648.encode_url bytes.
Proof.
  rewrite bytesToBase64_rfc.
  destruct (rfc_shape bytes) as (core & p & E & Hc & Hp & Hm & Hu).
  rewrite E, toBase64Url_shape by (apply alpha_last; exact Hc).
  symmetry. exact Hu.
Qed.

(** ** The callback parser *)

Lemma truthy_true (s : jsstring) : truthy s = true <-> s <> [].
Proof. destruct s; simpl; split; congruence. Qed.

Lemma truthy_false (s : jsstring) : truthy s = false <-> s = [].
Proof. destruct s; simpl; split; congruence. Qed.

Lemma normalizeString_not_string (v : jsval) : is_string v = false -> normalizeString v = [].
Proof. destruct v; simpl; congruence. Qed.

Lemma parseOAuthUrl_cases (P : Platform) (url expected : jsstring) :
  let params := nullish (queryParams (Linking_parse P url)) ∅ in
  let error := normalizeString (prop params "error") in
  let description := normalizeString (prop params "error_description") in
  let state := normalizeString (prop params "state") in
  let code := normalizeString (prop params "code") in
  (error <> [] ->
   parseOAuthUrl P url expected
   = inl (Error (if truthy description then error ++ js ": " ++ description else error)))
  /\ (error = [] -> state = [] \/ expected = [] \/ state <> expected ->
      parseOAuthUrl P url expected = inl invalid_state)
  /\ (error = [] -> state <> [] -> state = expected -> code = [] ->
      parseOAuthUrl P url expected = inl missing_code)
  /\ (error = [] -> state <> [] -> state = expected -> code <> [] ->
      parseOAuthUrl P url expected = inr {| code := code |}).
Proof.
  intros params error description state code.
  unfold parseOAuthUrl. fold params. fold error. fold description. fold state. fold code.
  repeat split.
  - intros He. apply truthy_true in He. rewrite He. reflexivity.
  - intros He Hs. apply truthy_false in He. rewrite He.
    destruct (truthy state) eqn:Ts; [|reflexivity]. simpl.
    rewrite bool_decide_eq_false_2; [reflexivity|].
    apply truthy_true in Ts. destruct Hs as [Hs|[Hs|Hs]]; congruence.
  - intros He Hs Heq Hc. apply truthy_false in He. apply truthy_true in Hs.
    apply truthy_false in Hc. rewrite He, Hs, Hc.
    rewrite bool_decide_eq_true_2 by exact Heq. reflexivity.
  - intros He Hs Heq Hc. apply truthy_false in He. apply truthy_true in Hs.
    apply truthy_true in Hc. rewrite He, Hs, Hc.
    rewrite bool_decide_eq_true_2 by exact Heq. reflexivity.
Qed.

(** ** The JWT payload *)

Lemma split_on_length (sep : Z) (s : jsstring) : (1 <= length (split_on sep s))%nat.
Proof.
  induction s as [|c s IH]; simpl; [lia|].
  destruct (c =? sep); simpl; [lia|].
  destruct (split_on sep s); simpl in *; lia.
Qed.

Lemma split_on_single (sep : Z) (s : jsstring) :
  (length (split_on sep s) < 2)%nat <-> ~ In sep s.
Proof.
  induction s as [|c s IH]; simpl; [split; [tauto | lia]|].
  pose proof (split_on_length sep s) as Hl.
  destruct (Z.eqb_spec c sep) as [->|Hne]; simpl.
  - split; [lia | tauto].
  - destruct (split_on sep s) as [|p ps] eqn:E; simpl in *; [lia|].
    rewrite IH. split; [intros H [H1|H1]; [congruence | tauto] | tauto].
Qed.

Lemma parseJwtPayload_cases (P : Platform) (token : option jsstring) :
  (exists r, parseJwtPayload P token = inr r)
  /\ (token = None -> parseJwtPayload P token = inr None)
  /\ (forall t, token = Some t ->
      (length (split_on (chr ".") t) < 2)%nat -> parseJwtPayload P token = inr None)
  /\ (forall t, token = Some t ->
      (2 <= length (split_on (chr ".") t))%nat ->
      parseJwtPayload P token
      = inr (JSON_parse P (base64UrlToString (TextDecoder_decode P)
                             (nth 1 (split_on (chr ".") t) [])))).
Proof.
  split; [|split; [|split]].
  - destruct token as [t|]; [|exists None; reflexivity].
    unfold parseJwtPayload. destruct (truthy t); simpl; [|exists None; reflexivity].
    destruct (Z.of_nat (length (split_on (chr ".") t)) <? 2); [exists None; reflexivity|].
    unfold parse_json. destruct (JSON_parse P _) as [v|]; simpl; eauto.
  - intros ->. reflexivity.
  - intros t -> Hl. unfold parseJwtPayload.
    destruct (truthy t); simpl; [|reflexivity].
    destruct (Z.ltb_spec (Z.of_nat (length (split_on (chr ".") t))) 2); [reflexivity | lia].
  - intros t -> Hl. unfold parseJwtPayload.
    destruct (truthy t) eqn:Et; simpl.
    + destruct (Z.ltb_spec (Z.of_nat (length (split_on (chr ".") t))) 2); [lia|].
      unfold parse_json. destruct (JSON_parse P _); reflexivity.
    + apply truthy_false in Et. subst t. simpl in Hl. lia.
Qed.

(** ** Profiles *)

Lemma falsy_spec (v : option jsstring) : falsy v = true <-> v = None \/ v = Some [].
Proof.
  destruct v as [[|c s]|]; simpl; split; intros H; try tauto; try congruence.
  destruct H; discriminate.
Qed.

Lemma xProfile_spec (me : XMeResponse) :
  (data me = None \/ (exists u, data me = Some u /\ (id u = None \/ id u = Some [])) ->
   xProfile me = inl missing_x_id)
  /\ (forall u x, data me = Some u -> id u = Some x -> x <> [] ->
      xProfile me
      = inr {| externalId := x;
               name := match x_name u with
                       | Some n => n
                       | None => match username u with
                                 | Some n => n
                                 | None => js "X User"
                                 end
                       end;
               email := None;
               avatarUrl := profile_image_url u |}).
Proof.
  unfold xProfile. destruct me as [[u|]]; simpl.
  - split.
    + intros [H|(u' & H & Hid)]; [discriminate|]. injection H as <-.
      destruct Hid as [-> | ->]; reflexivity.
    + intros u' x H Hid Hx. injection H as <-. rewrite Hid.
      destruct x; [congruence|]. reflexivity.
  - split; [reflexivity | intros; discriminate].
Qed.

Lemma lineProfile_spec (P : Platform) (profile : LineProfileResponse)
    (token : LineTokenResponse) :
  exists idPayload : option JwtPayload,
    parseJwtPayload P (id_token token) = inr idPayload
    /\ let chosen := match userId profile with
                     | Some u => Some u
                     | None => idPayload ≫= sub
                     end in
       (chosen = None \/ chosen = Some [] ->
        lineProfile P profile token = inl missing_line_id)
       /\ (forall x, chosen = Some x -> x <> [] ->
           lineProfile P profile token
           = inr {| externalId := x;
                    name := match displayName profile with
                            | Some n => n
                            | None => match idPayload ≫= jwt_name with
                                      | Some n => n
                                      | None => js "LINE User"
                                      end
                            end;
                    email := idPayload ≫= jwt_email;
                    avatarUrl := pictureUrl profile |}).
Proof.
  destruct (parseJwtPayload_cases P (id_token token)) as [[idPayload E] _].
  exists idPayload. split; [exact E|]. intros chosen.
  unfold lineProfile. rewrite E. fold chosen. split.
  - intros H. apply falsy_spec in H. rewrite H. reflexivity.
  - intros x Hc Hx. rewrite Hc. destruct x; [congruence|]. reflexivity.
Qed.

(** ** Running a flow *)

Lemma run_bind {A B : Type} (w : World) (m : Flow A) (f : A -> Flow B) :
  run w (bind m f)
  = match run w m with
    | (inl e, log) => (inl e, log)
    | (inr a, log) => let '(r, log') := run w (f a) in (r, log ++ log')
    end.
Proof.
  induction m as [a|e|X c k IH]; simpl.
  - destruct (run w (f a)); reflexivity.
  - reflexivity.
  - rewrite IH. destruct (run w (k (w X c))) as [[e|a] log]; [reflexivity|].
    destruct (run w (f a)); reflexivity.
Qed.

Ltac flow_cbn :=
  cbn [run bind mbind Flow_bind mret Flow_ret lift await fst snd request_of
       authorizeUrl authorizeParams expectedState].

Lemma urls_differ : X_TOKEN_URL <> X_ME_URL /\ LINE_TOKEN_URL <> LINE_PROFILE_URL.
Proof. split; vm_compute; discriminate. Qed.

Lemma FetchRequest_inj (u1 u2 : jsstring) (i1 i2 : RequestInit) :
  FetchRequest u1 i1 = FetchRequest u2 i2 -> u1 = u2 /\ i1 = i2.
Proof. intros H. inversion H. auto. Qed.

Lemma x_flow (P : Platform) (rng : Rng) (w : World) (init : RequestInit) :
  In (FetchRequest X_ME_URL init) (calls w (authenticateWithX P rng)) ->
  last (calls w (authenticateWithX P rng)) = Some (FetchRequest X_ME_URL init)
  /\ (ok (w _ (fetch XMeBody X_ME_URL init)) = true ->
      outcome w (authenticateWithX P rng)
      = xProfile (json (w _ (fetch XMeBody X_ME_URL init)))).
Proof.
  unfold calls, outcome, authenticateWithX.
  destruct (getRequiredEnv P "EXPO_PUBLIC_X_CLIENT_ID") as [e|clientId]; flow_cbn;
    [intros []|].
  unfold runOAuthCodeFlow.
  destruct (getRedirectUri P) as [e|redirectUri]; flow_cbn; [intros []|].
  destruct (randomString 32 rng) as [e|[state rng1]]; flow_cbn; [intros []|].
  destruct (randomString 64 rng1) as [e|[codeVerifier rng2]]; flow_cbn; [intros []|].
  generalize (createCodeChallenge codeVerifier). intros codeChallenge.
  match goal with
  | |- context [w AuthSessionResult ?c] => generalize (w AuthSessionResult c)
  end.
  intros result.
  destruct (negb (bool_decide (type result = js "success"))); flow_cbn;
    [intros [H|[]]; discriminate|].
  destruct (negb (truthy (normalizeString (url result)))); flow_cbn;
    [intros [H|[]]; discriminate|].
  destruct (parseOAuthUrl P (normalizeString (url result)) state) as [e|session]; flow_cbn;
    [intros [H|[]]; discriminate|].
  match goal with
  | |- context [w (Response (body_type XTokenBody)) ?c] => generalize (w (Response (body_type XTokenBody)) c)
  end.
  intros tokenResponse.
  match goal with
  | |- context [FetchRequest X_TOKEN_URL ?i] => generalize i
  end.
  intros tokenInit.
  match goal with
  | |- context [if ?c then _ else _] => destruct c
  end; flow_cbn.
  - intros [H|[H|[]]]; [discriminate|].
    apply FetchRequest_inj in H. destruct (proj1 urls_differ (proj1 H)).
  - set (meInit := {| method := None;
                      headers := [(js "Authorization",
                                   js "Bearer " ++ x_access_token (json tokenResponse))];
                      body := None |}).
    assert (Hin : forall (res : exn + SocialAuthProfile),
               In (FetchRequest X_ME_URL init)
                  [AuthRequest (X_AUTHORIZE_URL ++ js "?" ++ toQueryString P
                     [(js "response_type", js "code"); (js "client_id", clientId);
                      (js "redirect_uri", redirectUri);
                      (js "scope", js "tweet.read users.read offline.access");
                      (js "state", state); (js "code_challenge", codeChallenge);
                      (js "code_challenge_method", js "S256")]) redirectUri;
                   FetchRequest X_TOKEN_URL tokenInit; FetchRequest X_ME_URL meInit] ->
               init = meInit).
    { intros _ [H|[H|[H|[]]]]; [discriminate| |].
      - apply FetchRequest_inj in H. destruct (proj1 urls_differ (proj1 H)).
      - apply FetchRequest_inj in H. symmetry. exact (proj2 H). }
    match goal with
    | |- context [if ?c then _ else _] => destruct c eqn:Eok
    end;
      flow_cbn.
    + intros H. apply (Hin (inl (Error []))) in H. subst init. split; [reflexivity|].
      intros Hok. apply negb_true_iff in Eok.
      assert (Habs : true = false) by (etransitivity; [symmetry; exact Hok | exact Eok]).
      discriminate Habs.
    + match goal with
      | |- context [lift ?x] => destruct x as [e|p] eqn:Ep
      end; flow_cbn;
        intros H; apply (Hin (inl (Error []))) in H; subst init;
        (split; [reflexivity | intros _; symmetry; exact Ep]).
Qed.

(** ** Random strings *)

Lemma for_fuel_inv {S : Type} (Inv : S -> Prop) (body : Z -> S -> S) (bound step : Z) :
  (forall i s, Inv s -> Inv (body i s)) ->
  forall (fuel : nat) (i : Z) (s : S), Inv s -> Inv (for_fuel fuel i bound step body s).
Proof.
  intros Hb fuel. induction fuel as [|fuel IH]; intros i s Hs; simpl; [exact Hs|].
  destruct (i <? bound); [apply IH, Hb, Hs | exact Hs].
Qed.

Lemma pkce_char (k : Z) :
  0 <= k < 66 ->
  exists c, index_str PKCE_CHARSET k = [c] /\ pkce_unreserved c = true.
Proof.
  intros Hk.
  apply (forall_below 66
           (fun k => match index_str PKCE_CHARSET k with
                     | [c] => pkce_unreserved c
                     | _ => false
                     end)) in Hk; [|vm_compute; reflexivity].
  destruct (index_str PKCE_CHARSET k) as [|c [|? ?]]; try discriminate.
  exists c. auto.
Qed.

Lemma fold_append_chars (Q : Z -> Prop) (g : nat -> jsstring) (n : nat) :
  (forall j, exists c, g j = [c] /\ Q c) ->
  forall (k : nat) (acc : jsstring),
    Forall Q acc ->
    length (fold_left (fun out j => out ++ g j) (seq k n) acc) = (length acc + n)%nat
    /\ Forall Q (fold_left (fun out j => out ++ g j) (seq k n) acc).
Proof.
  intros Hg. induction n as [|n IH]; intros k acc Hacc.
  - simpl. split; [lia | exact Hacc].
  - cbn [seq fold_left]. destruct (Hg k) as (c & E & Hc).
    destruct (IH (Datatypes.S k) (acc ++ g k)) as [L F].
    + rewrite E. apply Forall_app. split; [exact Hacc|]. constructor; [exact Hc|constructor].
    + split; [|exact F]. rewrite L, length_app, E. simpl. lia.
Qed.

Lemma Uint8Array_new_length (n : nat) : length (Uint8Array_new (Z.of_nat n)) = n.
Proof. unfold Uint8Array_new. rewrite length_replicate. lia. Qed.

(** The array is filled unless the platform refuses it. *)
Lemma random_fill (n : nat) (rng : Rng) :
  secure rng = false \/ Z.of_nat n <= 65536 ->
  exists array,
    (if secure rng then getRandomValues rng (Uint8Array_new (Z.of_nat n))
     else inr (for_loop 0 (Z.of_nat n) 1
                 (fun i array => Uint8Array_store array i (draws rng (Z.to_nat i)))
                 (Uint8Array_new (Z.of_nat n))))
    = inr array
    /\ length array = n.
Proof.
  intros H. destruct (secure rng).
  - destruct H as [H|H]; [discriminate|].
    unfold getRandomValues. rewrite Uint8Array_new_length.
    destruct (Z.ltb_spec 65536 (Z.of_nat n)) as [L|_]; [lia|].
    eexists. split; [reflexivity|]. rewrite length_map, length_seq. reflexivity.
  - eexists. split; [reflexivity|].
    unfold for_loop.
    apply (for_fuel_inv (fun a : list byte => length a = n)).
    + intros i s Hs. unfold Uint8Array_store. rewrite length_insert. exact Hs.
    + apply Uint8Array_new_length.
Qed.

Lemma randomString_spec (n : nat) (rng : Rng) :
  secure rng = false \/ Z.of_nat n <= 65536 ->
  exists s : jsstring,
    randomString n rng = inr (s, advance n rng)
    /\ length s = n
    /\ Forall (fun c => pkce_unreserved c = true) s.
Proof.
  intros H. unfold randomString. cbv zeta.
  destruct (random_fill n rng H) as (array & -> & La).
  rewrite La.
  assert (E : forall body : Z -> jsstring -> jsstring,
             for_loop 0 (Z.of_nat n) 1 body []
             = fold_left (fun s j => body (1 * Z.of_nat j) s) (seq 0 n) []).
  { intros body. rewrite <- (for_loop_fold body 1 n) by lia.
    f_equal. lia. }
  rewrite E. clear E.
  destruct (fold_append_chars (fun c => pkce_unreserved c = true)
              (fun j => index_str PKCE_CHARSET
                          (rd8 array (1 * Z.of_nat j) mod Z.of_nat (length PKCE_CHARSET)))
              n) with (k := 0%nat) (acc := @nil Z) as [L F].
  - intros j. apply pkce_char.
    change (Z.of_nat (length PKCE_CHARSET)) with 66.
    apply Z.mod_pos_bound. lia.
  - constructor.
  - eexists. split; [reflexivity|]. split; [exact L | exact F].
Qed.

(** Above 65536 bytes [crypto.getRandomValues] throws, and with it
    [randomString]. *)
Lemma randomString_quota (n : nat) (rng : Rng) :
  secure rng = true -> 65536 < Z.of_nat n ->
  randomString n rng = inl QuotaExceededError.
Proof.
  intros Hs Hn. unfold randomString, getRandomValues. cbv zeta.
  rewrite Hs, Uint8Array_new_length.
  destruct (Z.ltb_spec 65536 (Z.of_nat n)) as [_|L]; [reflexivity | lia].
Qed.

(** The lengths that the flows ask for are inside the quota. *)
Lemma randomString_small (n : nat) (rng : Rng) :
  Z.of_nat n <= 65536 ->
  exists s : jsstring,
    randomString n rng = inr (s, advance n rng)
    /\ length s = n
    /\ Forall (fun c => pkce_unreserved c = true) s.
Proof. intros H. apply randomString_spec. right. exact H. Qed.

(** ** The code challenge *)

Lemma createCodeChallenge_spec (codeVerifier : jsstring) :
  createCodeChallenge codeVerifier
  = RFC4648.encode_url (FIPS.SHA256 (Utf8.encode codeVerifier)).
Proof.
  unfold createCodeChallenge. cbv zeta. rewrite sha256_is_FIPS. apply toBase64Url_rfc.
Qed.

Lemma line_flow (P : Platform) (rng : Rng) (w : World) (init : RequestInit) :
  In (FetchRequest LINE_PROFILE_URL init) (calls w (authenticateWithLine P rng)) ->
  last (calls w (authenticateWithLine P rng)) = Some (FetchRequest LINE_PROFILE_URL init)
  /\ exists tokenInit,
       In (FetchRequest LINE_TOKEN_URL tokenInit) (calls w (authenticateWithLine P rng))
       /\ (ok (w _ (fetch LineProfileBody LINE_PROFILE_URL init)) = true ->
           outcome w (authenticateWithLine P rng)
           = lineProfile P (json (w _ (fetch LineProfileBody LINE_PROFILE_URL init)))
               (json (w _ (fetch LineTokenBody LINE_TOKEN_URL tokenInit)))).
Proof.
  unfold calls, outcome, authenticateWithLine.
  destruct (getRequiredEnv P "EXPO_PUBLIC_LINE_CHANNEL_ID") as [e|clientId]; flow_cbn;
    [intros []|].
  unfold runOAuthCodeFlow.
  destruct (getRedirectUri P) as [e|redirectUri]; flow_cbn; [intros []|].
  destruct (randomString 32 rng) as [e|[state rng1]]; flow_cbn; [intros []|].
  destruct (randomString 64 rng1) as [e|[codeVerifier rng2]]; flow_cbn; [intros []|].
  generalize (createCodeChallenge codeVerifier). intros codeChallenge.
  match goal with
  | |- context [w AuthSessionResult ?c] => generalize (w AuthSessionResult c)
  end.
  intros result.
  destruct (negb (bool_decide (type result = js "success"))); flow_cbn;
    [intros [H|[]]; discriminate|].
  destruct (negb (truthy (normalizeString (url result)))); flow_cbn;
    [intros [H|[]]; discriminate|].
  destruct (parseOAuthUrl P (normalizeString (url result)) state) as [e|session]; flow_cbn;
    [intros [H|[]]; discriminate|].
  match goal with
  | |- context [FetchRequest LINE_TOKEN_URL ?i] => set (tokenInit := i)
  end.
  set (tokenResponse := w (Response (body_type LineTokenBody))
                          (fetch LineTokenBody LINE_TOKEN_URL tokenInit)).
  match goal with
  | |- context [if ?c then _ else _] => destruct c
  end; flow_cbn.
  - intros [H|[H|[]]]; [discriminate|].
    apply FetchRequest_inj in H. destruct (proj2 urls_differ (proj1 H)).
  - set (profileInit := {| method := None;
                           headers := [(js "Authorization",
                                        js "Bearer " ++ line_access_token (json tokenResponse))];
                           body := None |}).
    assert (Hin : forall (a : Request),
               In (FetchRequest LINE_PROFILE_URL init)
                  [a; FetchRequest LINE_TOKEN_URL tokenInit;
                   FetchRequest LINE_PROFILE_URL profileInit] ->
               (forall u i, a <> FetchRequest u i) ->
               init = profileInit).
    { intros a [H|[H|[H|[]]]] Ha; [destruct (Ha _ _ H)| |].
      - apply FetchRequest_inj in H. destruct (proj2 urls_differ (proj1 H)).
      - apply FetchRequest_inj in H. symmetry. exact (proj2 H). }
    match goal with
    | |- context [if ?c then _ else _] => destruct c eqn:Eok
    end;
      flow_cbn.
    + intros H. apply Hin in H; [|discriminate]. subst init. split; [reflexivity|].
      exists tokenInit. split; [right; left; reflexivity|].
      intros Hok. apply negb_true_iff in Eok.
      assert (Habs : true = false) by (etransitivity; [symmetry; exact Hok | exact Eok]).
      discriminate Habs.
    + match goal with
      | |- context [lift ?x] => destruct x as [e|p] eqn:Ep
      end; flow_cbn;
        intros H; (apply Hin in H; [|discriminate]); subst init;
        (split; [reflexivity|]); exists tokenInit;
        (split; [right; left; reflexivity|]); intros _;
        symmetry; exact Ep.
Qed.



(** ** Text decoding of the platform *)

Lemma utf8_run_ascii (bytes : list byte) :
  Forall (fun b => byte_val b < 0x80) bytes ->
  Utf8.run Utf8.initial bytes = map byte_val bytes.
Proof.
  induction 1 as [|b bytes Hb _ IH]; [reflexivity|].
  cbn [Utf8.run map]. pose proof (byte_val_range b) as Hr.
  unfold Utf8.step. cbn [Utf8.bytes_needed Utf8.initial].
  change (0 =? 0) with true. cbv iota. unfold Utf8.lead, Utf8.between.
  replace (0 <=? byte_val b) with true by (symmetry; apply Z.leb_le; lia).
  replace (byte_val b <=? 127) with true by (symmetry; apply Z.leb_le; lia).
  cbn [andb]. cbv iota. fold Utf8.initial. rewrite IH. reflexivity.
Qed.

Lemma utf8_decode_ascii (bytes : list byte) :
  Forall (fun b => byte_val b < 0x80) bytes -> Utf8.decode bytes = map byte_val bytes.
Proof.
  intros H. unfold Utf8.decode. rewrite utf8_run_ascii by exact H.
  assert (Hs : Utf8.strip_bom (map byte_val bytes) = map byte_val bytes).
  { destruct H as [|b bytes Hb _]; [reflexivity|].
    cbn [map Utf8.strip_bom]. pose proof (byte_val_range b) as Hr.
    destruct (byte_val b) as [|p|p] eqn:E; try reflexivity.
    repeat (destruct p as [p|p|]; try reflexivity; try lia). }
  rewrite Hs. clear Hs.
  induction H as [|b bytes Hb _ IH]; [reflexivity|].
  cbn [map concat]. rewrite IH. unfold Utf8.utf16.
  pose proof (byte_val_range b) as Hr.
  replace (byte_val b <? 65536) with true by (symmetry; apply Z.ltb_lt; lia).
  reflexivity.
Qed.

(** ** What [base64UrlToString] returns on an encoding *)

Lemma map_u8_byte_val (bytes : list byte) : map u8 (map byte_val bytes) = bytes.
Proof.
  induction bytes as [|b bytes IH]; [reflexivity|].
  cbn [map]. rewrite u8_byte_val, IH. reflexivity.
Qed.

Lemma fromCharCodes_bytes (bytes : list byte) :
  fromCharCodes (map byte_val bytes) = map byte_val bytes.
Proof.
  unfold fromCharCodes. rewrite map_map. apply map_ext. intros b.
  pose proof (byte_val_range b). apply Z.mod_small. lia.
Qed.

Lemma base64UrlToString_encoding (decode : list byte -> option jsstring) (bytes : list byte) :
  base64UrlToString decode (toBase64Url (bytesToBase64 bytes))
  = match decode bytes with
    | Some text => text
    | None => map byte_val bytes
    end.
Proof.
  unfold base64UrlToString. cbv zeta.
  rewrite base64url_bytes_roundtrip, map_u8_byte_val, fromCharCodes_bytes. reflexivity.
Qed.

(** * The properties the specification states *)

(** C1. For every byte sequence, [sha256] returns exactly 32 bytes and they
    are the SHA-256 digest of FIPS 180-4, whose additions are all modulo
    2^32; the digests of the empty sequence and of "abc" are the published
    ones. *)
Theorem sha256_fips_digest (message : list byte) :
  length (Sha256.sha256 message) = 32%nat
  /\ Sha256.sha256 message = FIPS.SHA256 message
  /\ hex_of_bytes (Sha256.sha256 [])
     = "e3b0c44298fc1c149afbf4c8996fb92427ae41e4649b934ca495991b7852b855"%string
  /\ hex_of_bytes (Sha256.sha256 (bytes_of "abc"))
     = "ba7816bf8f01cfea414140de5dae2223b00361a396177a9cb410ff61f20015ad"%string.
Proof.
  split; [rewrite sha256_is_FIPS; apply FIPS_SHA256_length|].
  split; [apply sha256_is_FIPS|].
  split; vm_compute; reflexivity.
Qed.

(** C2, as the source has it.  For every byte sequence, the byte array that
    [base64UrlToString] rebuilds from the Base64URL encoding is the
    sequence itself; the string it returns is the platform's text decoding
    of these bytes, or the string of their character codes when the text
    decoder throws; on a WHATWG decoder and bytes below 0x80 that string is
    the sequence, character for byte. *)
Theorem base64url_roundtrip (bytes : list byte) :
  base64UrlToBytes (toBase64Url (bytesToBase64 bytes)) = map byte_val bytes
  /\ (forall decode : list byte -> option jsstring,
        base64UrlToString decode (toBase64Url (bytesToBase64 bytes))
        = match decode bytes with
          | Some text => text
          | None => map byte_val bytes
          end)
  /\ (Forall (fun b => byte_val b < 0x80) bytes ->
      base64UrlToString (fun b => Some (Utf8.decode b)) (toBase64Url (bytesToBase64 bytes))
      = map byte_val bytes).
Proof.
  split; [apply base64url_bytes_roundtrip|].
  split; [intros decode; apply base64UrlToString_encoding|].
  intros H. rewrite base64UrlToString_encoding. apply utf8_decode_ascii. exact H.
Qed.

Lemma base64url_roundtrip_witness :
  base64UrlToString (fun b => Some (Utf8.decode b))
    (toBase64Url (bytesToBase64 (bytes_of "{}")))
  = map byte_val (bytes_of "{}").
Proof.
  apply (base64url_roundtrip (bytes_of "{}")).
  vm_compute. repeat constructor.
Defined.

(** C2 as stated fails: the two bytes of U+00E9 in UTF-8 come back as the
    one-character string U+00E9, not as the two bytes. *)
Lemma base64url_text_counterexample :
  base64UrlToString (fun b => Some (Utf8.decode b))
    (toBase64Url (bytesToBase64 [u8 0xC3; u8 0xA9]))
  = [0xE9]
  /\ base64UrlToString (fun b => Some (Utf8.decode b))
       (toBase64Url (bytesToBase64 [u8 0xC3; u8 0xA9]))
     <> map byte_val [u8 0xC3; u8 0xA9].
Proof. vm_compute. split; [reflexivity | discriminate]. Qed.

(** C3.  The policy of [parseOAuthUrl], in its order, for every URL and
    expected state.  A parameter is present when its value is a non-empty
    string; every other value counts as missing, which is how the source
    tests it ([normalizeString], then the truth value).  (1) [error]
    present: the provider error, with [error_description] when present,
    whatever the state; (2) else [state] missing, or the expected state
    empty, or the two different: the state error, whatever the code; (3)
    else [code] missing: the missing-code error; (4) else the code. *)
Theorem parseOAuthUrl_policy (P : Platform) (url expected : jsstring) :
  let params := nullish (queryParams (Linking_parse P url)) ∅ in
  let error := normalizeString (prop params "error") in
  let description := normalizeString (prop params "error_description") in
  let state := normalizeString (prop params "state") in
  let code := normalizeString (prop params "code") in
  (error <> [] ->
   parseOAuthUrl P url expected
   = inl (Error (if truthy description then error ++ js ": " ++ description else error)))
  /\ (error = [] -> state = [] \/ expected = [] \/ state <> expected ->
      parseOAuthUrl P url expected = inl invalid_state)
  /\ (error = [] -> state <> [] -> state = expected -> code = [] ->
      parseOAuthUrl P url expected = inl missing_code)
  /\ (error = [] -> state <> [] -> state = expected -> code <> [] ->
      parseOAuthUrl P url expected = inr {| code := code |}).
Proof. exact (parseOAuthUrl_cases P url expected). Qed.

Lemma parseOAuthUrl_policy_witness :
  parseOAuthUrl
    (host_with_query {[ "state"%string := VString (js "s3");
                        "code"%string := VString (js "c0de") ]})
    (js "mugimaru://auth/callback?state=s3&code=c0de") (js "s3")
  = inr {| code := js "c0de" |}.
Proof.
  destruct (parseOAuthUrl_policy
              (host_with_query {[ "state"%string := VString (js "s3");
                                  "code"%string := VString (js "c0de") ]})
              (js "mugimaru://auth/callback?state=s3&code=c0de") (js "s3"))
    as (_ & _ & _ & H).
  apply H; vm_compute; (reflexivity || discriminate).
Defined.

(** C4.  For every verifier, [createCodeChallenge] is the Base64URL
    encoding without padding (RFC 4648, section 5) of the FIPS 180-4
    SHA-256 digest of the UTF-8 bytes of the verifier.  It reads nothing but
    its argument, so equal verifiers give equal challenges; the verifier of
    RFC 7636, appendix B, gives the challenge printed there. *)
Theorem createCodeChallenge_s256 (codeVerifier : jsstring) :
  createCodeChallenge codeVerifier
  = RFC4648.encode_url (FIPS.SHA256 (Utf8.encode codeVerifier))
  /\ (forall other : jsstring,
        other = codeVerifier -> createCodeChallenge other = createCodeChallenge codeVerifier)
  /\ createCodeChallenge (js "dBjftJeZ4CVP-mB92K27uhbUJU1p1r_wW1gFWFOEjXk")
     = js "E9Melhoa2OwvFrEMTJguCHaoeK1t8URWbuGJSstw-cM".
Proof.
  split; [apply createCodeChallenge_spec|].
  split; [intros other ->; reflexivity | vm_compute; reflexivity].
Qed.

Lemma createCodeChallenge_s256_witness :
  createCodeChallenge (js "dBjftJeZ4CVP-mB92K27uhbUJU1p1r_wW1gFWFOEjXk")
  = createCodeChallenge (js "dBjftJeZ4CVP-mB92K27uhbUJU1p1r_wW1gFWFOEjXk").
Proof.
  destruct (createCodeChallenge_s256 (js "dBjftJeZ4CVP-mB92K27uhbUJU1p1r_wW1gFWFOEjXk"))
    as (_ & H & _).
  apply H. reflexivity.
Defined.

(** C5, as the source has it.  For every LINE profile body and token body:
    the identifier is [profile.userId] when that field is there (an empty
    string included), otherwise the [sub] claim of the ID-token payload; the
    flow fails with the missing-user-id error when the identifier so chosen
    is absent or the empty string, in particular when both are absent;
    otherwise the profile returned has that identifier, the name
    [displayName], else the ID-token [name], else "LINE User", the email of
    the ID-token payload or null, and the avatar [pictureUrl] or null.  In
    the flow, the profile request is the last call, and its answer decides
    the outcome this way. *)
Theorem lineProfile_normalization (P : Platform) (profile : LineProfileResponse)
    (token : LineTokenResponse) :
  (exists idPayload : option JwtPayload,
     parseJwtPayload P (id_token token) = inr idPayload
     /\ let chosen := match userId profile with
                      | Some u => Some u
                      | None => idPayload ≫= sub
                      end in
        (chosen = None \/ chosen = Some [] ->
         lineProfile P profile token = inl missing_line_id)
        /\ (forall x, chosen = Some x -> x <> [] ->
            lineProfile P profile token
            = inr {| externalId := x;
                     name := match displayName profile with
                             | Some n => n
                             | None => match idPayload ≫= jwt_name with
                                       | Some n => n
                                       | None => js "LINE User"
                                       end
                             end;
                     email := idPayload ≫= jwt_email;
                     avatarUrl := pictureUrl profile |}))
  /\ (forall (rng : Rng) (w : World) (init : RequestInit),
        In (FetchRequest LINE_PROFILE_URL init) (calls w (authenticateWithLine P rng)) ->
        last (calls w (authenticateWithLine P rng)) = Some (FetchRequest LINE_PROFILE_URL init)
        /\ exists tokenInit,
             In (FetchRequest LINE_TOKEN_URL tokenInit) (calls w (authenticateWithLine P rng))
             /\ (ok (w _ (fetch LineProfileBody LINE_PROFILE_URL init)) = true ->
                 outcome w (authenticateWithLine P rng)
                 = lineProfile P (json (w _ (fetch LineProfileBody LINE_PROFILE_URL init)))
                     (json (w _ (fetch LineTokenBody LINE_TOKEN_URL tokenInit))))).
Proof.
  split; [apply lineProfile_spec|]. intros rng w init. apply line_flow.
Qed.

Lemma lineProfile_normalization_witness :
  last (calls happy_world (authenticateWithLine happy_host counting_rng))
  = Some (FetchRequest LINE_PROFILE_URL
            {| method := None;
               headers := [(js "Authorization", js "Bearer at")];
               body := None |}).
Proof.
  destruct (lineProfile_normalization happy_host
              {| userId := Some (js "U42"); displayName := None; pictureUrl := None |}
              {| line_access_token := js "at"; id_token := Some (js "h.e30.s");
                 line_token_type := js "Bearer"; line_expires_in := 3600 |})
    as [_ H].
  apply (H counting_rng happy_world). vm_compute. right. right. left. reflexivity.
Defined.

(** C5 as stated fails: with [userId] the empty string and an ID token
    whose payload has [sub], the identifier is neither of the two: the flow
    fails. *)
Lemma lineProfile_counterexample :
  let P := host_with_payload {| sub := Some (js "U1"); jwt_name := None; jwt_email := None |} in
  let token := {| line_access_token := js "t"; id_token := Some (js "h.e30.s");
                  line_token_type := js "Bearer"; line_expires_in := 3600 |} in
  parseJwtPayload P (id_token token)
  = inr (Some {| sub := Some (js "U1"); jwt_name := None; jwt_email := None |})
  /\ lineProfile P {| userId := Some []; displayName := None; pictureUrl := None |} token
     = inl missing_line_id.
Proof. vm_compute. split; reflexivity. Qed.

(** C6, as the source has it.  For every [/users/me] body: when [data] is
    absent, or [data.id] is absent or the empty string, the flow fails with
    the missing-user-id error; otherwise the profile returned has
    [externalId] equal to [data.id], the name [data.name] when that field is
    there (an empty string included), else [data.username], else "X User",
    the email null and the avatar [data.profile_image_url] or null.  In the
    flow, the [/users/me] request is the last call, whatever its answer. *)
Theorem xProfile_normalization (me : XMeResponse) :
  (data me = None \/ (exists u, data me = Some u /\ (id u = None \/ id u = Some [])) ->
   xProfile me = inl missing_x_id)
  /\ (forall u x, data me = Some u -> id u = Some x -> x <> [] ->
      xProfile me
      = inr {| externalId := x;
               name := match x_name u with
                       | Some n => n
                       | None => match username u with
                                 | Some n => n
                                 | None => js "X User"
                                 end
                       end;
               email := None;
               avatarUrl := profile_image_url u |})
  /\ (forall (P : Platform) (rng : Rng) (w : World) (init : RequestInit),
        In (FetchRequest X_ME_URL init) (calls w (authenticateWithX P rng)) ->
        json (w _ (fetch XMeBody X_ME_URL init)) = me ->
        last (calls w (authenticateWithX P rng)) = Some (FetchRequest X_ME_URL init)
        /\ (ok (w _ (fetch XMeBody X_ME_URL init)) = true ->
            outcome w (authenticateWithX P rng) = xProfile me)).
Proof.
  destruct (xProfile_spec me) as [H1 H2].
  split; [exact H1|]. split; [exact H2|].
  intros P rng w init Hin <-. apply x_flow. exact Hin.
Qed.

Lemma xProfile_normalization_witness :
  outcome happy_world (authenticateWithX happy_host counting_rng)
  = inr {| externalId := js "42"; name := js "mugi"; email := None; avatarUrl := None |}.
Proof.
  destruct (xProfile_normalization
              {| data := Some {| id := Some (js "42"); x_name := None;
                                 username := Some (js "mugi");
                                 profile_image_url := None |} |})
    as (_ & H2 & H3).
  destruct (H3 happy_host counting_rng happy_world
              {| method := None;
                 headers := [(js "Authorization", js "Bearer at")];
                 body := None |}) as [_ H4].
  - vm_compute. right. right. left. reflexivity.
  - reflexivity.
  - rewrite H4 by reflexivity.
    apply (H2 {| id := Some (js "42"); x_name := None;
                 username := Some (js "mugi");
                 profile_image_url := None |} (js "42"));
      [reflexivity | reflexivity | discriminate].
Defined.

(** C6 as stated fails, however "absent" is read: an [id] that is there
    and empty fails the flow, and a [name] that is there and empty is kept
    although a [username] is there. *)
Lemma xProfile_counterexample :
  xProfile {| data := Some {| id := Some []; x_name := Some (js "Mugi");
                              username := None; profile_image_url := None |} |}
  = inl missing_x_id
  /\ xProfile {| data := Some {| id := Some (js "42"); x_name := Some [];
                                 username := Some (js "mugi"); profile_image_url := None |} |}
     = inr {| externalId := js "42"; name := []; email := None; avatarUrl := None |}.
Proof. split; reflexivity. Qed.

(** C7.  [parseJwtPayload] returns for every optional token and never
    throws: null when the token is absent, empty or has fewer than two
    segments between dots; otherwise what [JSON.parse] makes of the decoded
    second segment, null when it throws.  (Decoding itself has no failing
    path: [base64UrlToString] catches what the text decoder throws.) *)
Theorem parseJwtPayload_total (P : Platform) (token : option jsstring) :
  (exists r, parseJwtPayload P token = inr r)
  /\ (token = None -> parseJwtPayload P token = inr None)
  /\ (forall t, token = Some t ->
      (length (split_on (chr ".") t) < 2)%nat -> parseJwtPayload P token = inr None)
  /\ (forall t, token = Some t ->
      (2 <= length (split_on (chr ".") t))%nat ->
      parseJwtPayload P token
      = inr (JSON_parse P (base64UrlToString (TextDecoder_decode P)
                             (nth 1 (split_on (chr ".") t) [])))).
Proof. exact (parseJwtPayload_cases P token). Qed.

Lemma parseJwtPayload_total_witness :
  parseJwtPayload happy_host (Some (js "h.e30.s"))
  = inr (Some {| sub := Some (js "U1"); jwt_name := None; jwt_email := Some (js "a@b.com") |}).
Proof.
  destruct (parseJwtPayload_total happy_host (Some (js "h.e30.s"))) as (_ & _ & _ & H).
  rewrite (H (js "h.e30.s")); [reflexivity | reflexivity | vm_compute; lia].
Defined.

(** C8.  For every byte sequence: [bytesToBase64] is the Base64 encoding
    of RFC 4648 with the standard alphabet and padding; its Base64URL form
    has only characters of [A-Za-z0-9-_], so none of ['+'], ['/'], ['='],
    and is the unpadded URL-safe encoding of RFC 4648; and on any text
    [toBase64Url] drops the whole trailing run of ['='] and maps ['+'] to
    ['-'] and ['/'] to ['_'] in what remains. *)
Theorem base64url_alphabet (bytes : list byte) :
  bytesToBase64 bytes = RFC4648.encode bytes
  /\ Forall (fun c => RFC4648.url_safe c = true) (toBase64Url (bytesToBase64 bytes))
  /\ ~ In (chr "+") (toBase64Url (bytesToBase64 bytes))
  /\ ~ In (chr "/") (toBase64Url (bytesToBase64 bytes))
  /\ ~ In (chr "=") (toBase64Url (bytesToBase64 bytes))
  /\ toBase64Url (bytesToBase64 bytes) = RFC4648.encode_url bytes
  /\ (forall (core : jsstring) (p : nat),
        last core <> Some (chr "=") ->
        toBase64Url (core ++ replicate p (chr "=")) = map RFC4648.url_char core).
Proof.
  pose proof (base64url_safe bytes) as Hs. rewrite List.Forall_forall in Hs.
  split; [apply bytesToBase64_rfc|].
  split; [apply List.Forall_forall; exact Hs|].
  split; [intros H; apply Hs in H; discriminate H|].
  split; [intros H; apply Hs in H; discriminate H|].
  split; [intros H; apply Hs in H; discriminate H|].
  split; [apply toBase64Url_rfc|].
  intros core p. apply toBase64Url_shape.
Qed.

Lemma base64url_alphabet_witness :
  toBase64Url (js "a+b/c=" ++ replicate 2 (chr "=")) = map RFC4648.url_char (js "a+b/c").
Proof.
  destruct (base64url_alphabet []) as (_ & _ & _ & _ & _ & _ & H).
  change (js "a+b/c=" ++ replicate 2 (chr "=")) with (js "a+b/c" ++ replicate 3 (chr "=")).
  apply H. vm_compute. discriminate.
Defined.




(** C10, as the source has it.  [parseOAuthUrl] reads every parameter
    through [normalizeString], which turns a value that is not a string
    (absent, an array, anything else) into the empty string.  So an [error]
    that is not a string never gives the provider error; a [state] that is
    not a string never lets the call succeed, whatever strings it holds, and
    fails as a state mismatch whenever no provider error is reported; a
    [code] that is not a string never lets the call succeed, and fails as
    missing code whenever the checks before it pass. *)
Theorem parseOAuthUrl_coercion (P : Platform) (url expected : jsstring) :
  let params := nullish (queryParams (Linking_parse P url)) ∅ in
  let error := normalizeString (prop params "error") in
  let state := normalizeString (prop params "state") in
  (forall key, is_string (prop params key) = false -> normalizeString (prop params key) = [])
  /\ (is_string (prop params "error") = false ->
      parseOAuthUrl P url expected = inl invalid_state
      \/ parseOAuthUrl P url expected = inl missing_code
      \/ exists c, parseOAuthUrl P url expected = inr {| code := c |})
  /\ (is_string (prop params "state") = false ->
      (error = [] -> parseOAuthUrl P url expected = inl invalid_state)
      /\ forall c, parseOAuthUrl P url expected <> inr c)
  /\ (is_string (prop params "code") = false ->
      (error = [] -> state <> [] -> state = expected ->
       parseOAuthUrl P url expected = inl missing_code)
      /\ forall c, parseOAuthUrl P url expected <> inr c).
Proof.
  intros params error state.
  destruct (parseOAuthUrl_cases P url expected) as (H1 & H2 & H3 & H4).
  cbv zeta in H1, H2, H3, H4. fold params in H1, H2, H3, H4.
  fold error in H1, H2, H3, H4. fold state in H2, H3, H4.
  set (code := normalizeString (prop params "code")) in *.
  assert (Hcases : forall c, parseOAuthUrl P url expected = inr c ->
                     error = [] /\ state <> [] /\ code <> []).
  { intros c Hc.
    destruct (decide (error = [])) as [He|He]; [|rewrite H1 in Hc by exact He; discriminate].
    destruct (decide (state = [])) as [Hs|Hs];
      [rewrite H2 in Hc by (exact He || (left; exact Hs)); discriminate|].
    destruct (decide (state = expected)) as [Hx|Hx];
      [|rewrite H2 in Hc by (exact He || (right; right; exact Hx)); discriminate].
    destruct (decide (code = [])) as [Hd|Hd];
      [rewrite H3 in Hc by assumption; discriminate|]. auto. }
  split; [intros key Hk; apply normalizeString_not_string; exact Hk|].
  split; [|split].
  - intros Hk. apply normalizeString_not_string in Hk. fold error in Hk.
    destruct (decide (state = [])) as [Hs|Hs]; [left; apply H2; auto|].
    destruct (decide (state = expected)) as [Hx|Hx]; [|left; apply H2; auto].
    destruct (decide (code = [])) as [Hd|Hd]; [right; left; apply H3; auto|].
    right; right. exists code. apply H4; auto.
  - intros Hk. apply normalizeString_not_string in Hk. fold state in Hk. split.
    + intros He. apply H2; auto.
    + intros c Hc. apply Hcases in Hc. tauto.
  - intros Hk. apply normalizeString_not_string in Hk. fold code in Hk. split.
    + intros He Hs Hx. apply H3; auto.
    + intros c Hc. apply Hcases in Hc. tauto.
Qed.

Lemma parseOAuthUrl_coercion_witness :
  parseOAuthUrl
    (host_with_query {[ "state"%string := VArray [js "s3"];
                        "code"%string := VString (js "c0de") ]})
    (js "mugimaru://auth/callback?state=s3&state=s3&code=c0de") (js "s3")
  = inl invalid_state.
Proof.
  destruct (parseOAuthUrl_coercion
              (host_with_query {[ "state"%string := VArray [js "s3"];
                                  "code"%string := VString (js "c0de") ]})
              (js "mugimaru://auth/callback?state=s3&state=s3&code=c0de") (js "s3"))
    as (_ & _ & H & _).
  apply H; reflexivity.
Defined.

(** C10 as stated fails: with a provider error in the URL, a [state] that
    is not a string fails as the provider error, not as a state mismatch. *)
Lemma coercion_counterexample :
  let params : gmap string jsval :=
    {[ "error"%string := VString (js "access_denied");
       "state"%string := VArray [js "s"] ]} in
  is_string (prop params "state") = false
  /\ parseOAuthUrl (host_with_query params) (js "mugimaru://auth/callback") (js "s")
     = inl (Error (js "access_denied"))
  /\ parseOAuthUrl (host_with_query params) (js "mugimaru://auth/callback") (js "s")
     <> inl invalid_state.
Proof. vm_compute. repeat split; discriminate. Qed.

(** * Further properties of the code *)

(** ** The rotation, bit by bit *)

Lemma ToInt32_cases (x : Z) :
  (0 <= JS.ToInt32 x < 2^31 /\ JS.ToInt32 x = U x)
  \/ (- 2^31 <= JS.ToInt32 x < 0 /\ JS.ToInt32 x = U x - 2^32).
Proof. zdiv. Qed.

Lemma testbit_ToInt32_high (x i : Z) :
  31 <= i -> Z.testbit (JS.ToInt32 x) i = Z.testbit x 31.
Proof.
  intros Hi.
  rewrite <- (testbit_ToInt32 x 31) by lia.
  assert (Hp : 2^31 <= 2^i) by (apply Z.pow_le_mono_r; lia).
  assert (Hlog : forall a, 0 <= a < 2^31 -> forall j, 31 <= j -> Z.log2 a < j).
  { intros a Ra j Hj. destruct (Z.eq_dec a 0) as [->|N]; [cbn; lia|].
    apply Z.log2_lt_pow2; [lia|].
    assert (2^31 <= 2^j) by (apply Z.pow_le_mono_r; lia). lia. }
  destruct (ToInt32_cases x) as [[R _]|[R _]].
  - rewrite !Z.bits_above_log2; try reflexivity; try lia; apply Hlog; lia.
  - rewrite !Z.bits_above_log2_neg; try reflexivity; try lia; apply Hlog; lia.
Qed.

Lemma int32_fixed (z : Z) :
  (forall i, 31 <= i -> Z.testbit z i = Z.testbit z 31) -> JS.ToInt32 z = z.
Proof.
  intros H. apply Z.bits_inj'. intros i Hi.
  destruct (Z.lt_ge_cases i 32) as [L|G].
  - apply testbit_ToInt32. lia.
  - rewrite testbit_ToInt32_high by lia. symmetry. apply H. lia.
Qed.

Lemma JS_bor_int32 (a b : Z) : - 2^31 <= JS.bor a b < 2^31.
Proof.
  assert (E : JS.ToInt32 (JS.bor a b) = JS.bor a b).
  { apply int32_fixed. intros i Hi. unfold JS.bor. rewrite !Z.lor_spec.
    rewrite (testbit_ToInt32_high a i), (testbit_ToInt32_high b i) by lia.
    rewrite (testbit_ToInt32 a 31), (testbit_ToInt32 b 31) by lia. reflexivity. }
  pose proof (ToInt32_range (JS.bor a b)) as R. rewrite E in R. exact R.
Qed.

Lemma rightRotate_testbit (value amount i : Z) :
  0 < amount < 32 -> 0 <= i < 32 ->
  Z.testbit (Sha256.rightRotate value amount) i = Z.testbit value ((i + amount) mod 32).
Proof.
  intros Ha Hi. unfold Sha256.rightRotate, JS.bor.
  rewrite Z.lor_spec, !testbit_ToInt32 by lia.
  rewrite shr_small by lia. rewrite Z.shiftr_spec by lia.
  rewrite testbit_U by lia.
  unfold JS.shl. rewrite testbit_ToInt32 by lia.
  replace (JS.ToUint32 (32 - amount) mod 32) with (32 - amount)
    by (unfold JS.ToUint32; Z.to_euclidean_division_equations; lia).
  destruct (Z.lt_ge_cases (i + amount) 32) as [L|G].
  - rewrite Z.shiftl_spec_low by lia.
    rewrite Z.mod_small by lia.
    replace (i + amount <? 32) with true by (symmetry; apply Z.ltb_lt; lia).
    cbn [andb]. apply orb_false_r.
  - rewrite Z.shiftl_spec by lia.
    replace (i + amount <? 32) with false by (symmetry; apply Z.ltb_ge; lia).
    cbn [andb orb]. rewrite testbit_ToInt32 by lia.
    f_equal. replace (i + amount) with ((i + amount - 32) + 1 * 32) by lia.
    rewrite Z.mod_add by lia. rewrite Z.mod_small; lia.
Qed.

(** X1.  [rightRotate] rotates the low 32 bits of its argument: for an
    amount between 1 and 31, bit [i] of the result is bit [i + amount]
    modulo 32 of the value.  The result is a signed 32-bit number, as [|]
    leaves it; rotating on by the remaining [32 - amount] bits gives the low
    32 bits of the value back. *)
Theorem rightRotate_rotates (value amount : Z) :
  0 < amount < 32 ->
  - 2^31 <= Sha256.rightRotate value amount < 2^31
  /\ (forall i, 0 <= i < 32 ->
        Z.testbit (Sha256.rightRotate value amount) i
        = Z.testbit value ((i + amount) mod 32))
  /\ U (Sha256.rightRotate (Sha256.rightRotate value amount) (32 - amount)) = U value.
Proof.
  intros Ha. split; [apply JS_bor_int32|].
  split; [intros i Hi; apply rightRotate_testbit; assumption|].
  apply U_eq_bits. intros i Hi.
  rewrite rightRotate_testbit by lia.
  rewrite rightRotate_testbit by (try lia; apply Z.mod_pos_bound; lia).
  f_equal.
  destruct (Z.lt_ge_cases (i + (32 - amount)) 32) as [L|G].
  - rewrite (Z.mod_small (i + (32 - amount))) by lia.
    replace (i + (32 - amount) + amount) with (i + 1 * 32) by lia.
    rewrite Z.mod_add by lia. apply Z.mod_small. lia.
  - replace (i + (32 - amount)) with ((i - amount) + 1 * 32) by lia.
    rewrite Z.mod_add by lia. rewrite (Z.mod_small (i - amount)) by lia.
    replace (i - amount + amount) with i by lia. apply Z.mod_small. lia.
Qed.

Lemma rightRotate_rotates_witness :
  Sha256.rightRotate 1 1 = - 2^31
  /\ U (Sha256.rightRotate (Sha256.rightRotate 0x80000001 4) 28) = 0x80000001.
Proof.
  split; [vm_compute; reflexivity|].
  destruct (rightRotate_rotates 0x80000001 4) as (_ & _ & H); [lia|]. exact H.
Defined.

(** ** Lengths of the encodings *)

Lemma encode_length (bytes : list byte) :
  Z.of_nat (length (RFC4648.encode bytes)) = 4 * ((Z.of_nat (length bytes) + 2) / 3).
Proof.
  induction bytes as [bytes IH] using (induction_ltof1 _ (@length byte)).
  unfold ltof in IH.
  destruct bytes as [|x [|y [|z rest]]]; try reflexivity.
  cbn [RFC4648.encode]. cbv zeta. rewrite length_app.
  cbn [length]. specialize (IH rest ltac:(simpl; lia)).
  rewrite Nat2Z.inj_add, IH. rewrite !Nat2Z.inj_succ. euclid.
Qed.

Lemma encode_url_length (bytes : list byte) :
  Z.of_nat (length (RFC4648.encode_url bytes)) = (4 * Z.of_nat (length bytes) + 2) / 3.
Proof.
  induction bytes as [bytes IH] using (induction_ltof1 _ (@length byte)).
  unfold ltof in IH.
  destruct bytes as [|x [|y [|z rest]]]; try reflexivity.
  cbn [RFC4648.encode_url map]. cbv zeta. rewrite length_app.
  cbn [length]. specialize (IH rest ltac:(simpl; lia)).
  rewrite Nat2Z.inj_add, IH. rewrite !Nat2Z.inj_succ. euclid.
Qed.

(** X2.  The lengths of the encodings: [bytesToBase64] gives four
    characters for every group of three bytes begun, its Base64URL form one
    character for every six bits begun; the code challenge, made from a
    32-byte digest, has 43 characters for every verifier. *)
Theorem base64_lengths (bytes : list byte) :
  Z.of_nat (length (bytesToBase64 bytes)) = 4 * ((Z.of_nat (length bytes) + 2) / 3)
  /\ Z.of_nat (length (toBase64Url (bytesToBase64 bytes)))
     = (4 * Z.of_nat (length bytes) + 2) / 3
  /\ (forall codeVerifier : jsstring, length (createCodeChallenge codeVerifier) = 43%nat).
Proof.
  split; [rewrite bytesToBase64_rfc; apply encode_length|].
  split; [rewrite toBase64Url_rfc; apply encode_url_length|].
  intros v. rewrite createCodeChallenge_spec.
  pose proof (encode_url_length (FIPS.SHA256 (Utf8.encode v))) as H.
  rewrite FIPS_SHA256_length in H. change ((4 * Z.of_nat 32 + 2) / 3) with 43 in H. lia.
Qed.

(** ** [toBase64Url] on any text *)

Lemma trailing_run (c : Z) (s : jsstring) :
  exists (core : jsstring) (p : nat), s = core ++ replicate p c /\ last core <> Some c.
Proof.
  induction s as [|x s IH] using rev_ind.
  - exists [], 0%nat. split; [reflexivity | discriminate].
  - destruct (Z.eq_dec x c) as [->|N].
    + destruct IH as (core & p & -> & Hl). exists core, (S p). split; [|exact Hl].
      rewrite <- app_assoc. f_equal.
      clear. induction p as [|p IHp]; [reflexivity|]. simpl. f_equal. exact IHp.
    + exists (s ++ [x]), 0%nat. split; [simpl; rewrite app_nil_r; reflexivity|].
      rewrite last_snoc. congruence.
Qed.

Lemma url_char_idem (c : Z) : RFC4648.url_char (RFC4648.url_char c) = RFC4648.url_char c.
Proof.
  unfold RFC4648.url_char.
  destruct (Z.eqb_spec c (chr "+")) as [->|N1]; [reflexivity|].
  destruct (Z.eqb_spec c (chr "/")) as [->|N2]; [reflexivity|].
  destruct (Z.eqb_spec c (chr "+")); [contradiction|].
  destruct (Z.eqb_spec c (chr "/")); [contradiction|]. reflexivity.
Qed.

Lemma url_char_not_plus_slash (c : Z) :
  RFC4648.url_char c <> chr "+" /\ RFC4648.url_char c <> chr "/".
Proof.
  unfold RFC4648.url_char.
  destruct (Z.eqb_spec c (chr "+")) as [->|N1]; [split; discriminate|].
  destruct (Z.eqb_spec c (chr "/")) as [->|N2]; [split; discriminate|].
  split; assumption.
Qed.

Lemma map_url_char_run (p : nat) :
  map RFC4648.url_char (replicate p (chr "=")) = replicate p (chr "=").
Proof. induction p as [|p IH]; [reflexivity|]. simpl. f_equal. exact IH. Qed.

(** X3.  On any text [toBase64Url] removes exactly the run of ['='] at the
    end and replaces ['+'] and ['/'] everywhere: the result holds neither
    of the two, does not end in ['='] (one inside the text stays), and is
    left unchanged by a second pass. *)
Theorem toBase64Url_any (s : jsstring) :
  ~ In (chr "+") (toBase64Url s)
  /\ ~ In (chr "/") (toBase64Url s)
  /\ last (toBase64Url s) <> Some (chr "=")
  /\ toBase64Url (toBase64Url s) = toBase64Url s
  /\ (exists p : nat,
        map RFC4648.url_char s = toBase64Url s ++ replicate p (chr "="))
  /\ toBase64Url (js "a=b+/==") = js "a=b-_".
Proof.
  destruct (trailing_run (chr "=") s) as (core & p & -> & Hl).
  rewrite toBase64Url_shape by exact Hl.
  assert (Hlast : last (map RFC4648.url_char core) <> Some (chr "=")).
  { rewrite last_map_eq. destruct (last core) as [c|] eqn:E; [|discriminate].
    simpl. intros H. injection H as H. apply (proj1 (url_char_pad c)) in H.
    subst c. apply Hl. reflexivity. }
  split; [intros H; apply in_map_iff in H; destruct H as (c & H & _);
          exact (proj1 (url_char_not_plus_slash c) H)|].
  split; [intros H; apply in_map_iff in H; destruct H as (c & H & _);
          exact (proj2 (url_char_not_plus_slash c) H)|].
  split; [exact Hlast|].
  split.
  - rewrite <- (app_nil_r (map RFC4648.url_char core)) at 1.
    change (@nil Z) with (replicate 0 (chr "=")).
    rewrite toBase64Url_shape by exact Hlast.
    rewrite map_map. apply map_ext. intros c. apply url_char_idem.
  - split; [|vm_compute; reflexivity].
    exists p. rewrite map_app, map_url_char_run. reflexivity.
Qed.

(** ** The decoder on the padded standard form *)

Lemma alpha_not_url (c : Z) : alpha c -> c <> chr "-" /\ c <> chr "_".
Proof.
  intros (d & Hd & ->).
  assert (H : (negb (dc d =? chr "-") && negb (dc d =? chr "_")) = true).
  { apply (forall_below 64 (fun d => negb (dc d =? chr "-") && negb (dc d =? chr "_")));
      [vm_compute; reflexivity | exact Hd]. }
  apply andb_true_iff in H. destruct H as [H1 H2].
  apply negb_true_iff in H1, H2. apply Z.eqb_neq in H1, H2. split; assumption.
Qed.

Lemma replace_all_absent (c d : Z) (s : jsstring) :
  Forall (fun x => x <> c) s -> replace_all c d s = s.
Proof.
  intros H. unfold replace_all. induction H as [|x s Hx _ IH]; [reflexivity|].
  simpl. rewrite IH. destruct (Z.eqb_spec x c); [contradiction | reflexivity].
Qed.

Lemma standard_text_kept (bytes : list byte) :
  replace_all (chr "_") (chr "/") (replace_all (chr "-") (chr "+") (RFC4648.encode bytes))
  = RFC4648.encode bytes.
Proof.
  destruct (rfc_shape bytes) as (core & p & E & Hc & _).
  assert (H : Forall (fun x => x <> chr "-" /\ x <> chr "_") (RFC4648.encode bytes)).
  { rewrite E. apply Forall_app. split.
    - eapply Forall_impl; [exact Hc|]. intros c. apply alpha_not_url.
    - clear. induction p as [|p IH]; [constructor|].
      simpl. constructor; [split; discriminate | exact IH]. }
  rewrite (replace_all_absent (chr "-")); [rewrite (replace_all_absent (chr "_"))|].
  - reflexivity.
  - eapply Forall_impl; [exact H|]. intros c [_ Hc']. exact Hc'.
  - eapply Forall_impl; [exact H|]. intros c [Hc' _]. exact Hc'.
Qed.

Lemma base64UrlToBytes_standard (bytes : list byte) :
  base64UrlToBytes (bytesToBase64 bytes) = map byte_val bytes.
Proof.
  rewrite bytesToBase64_rfc, base64UrlToBytes_loop, standard_text_kept.
  destruct (rfc_shape bytes) as (core & p & E & Hc & Hp & Hm & _).
  assert (Hpad : padEnd (RFC4648.encode bytes)
                   (JS.ceil_div (Z.of_nat (length (RFC4648.encode bytes))) 4 * 4) (chr "=")
                 = RFC4648.encode bytes).
  { unfold padEnd. rewrite encode_length.
    replace (Z.to_nat _) with 0%nat; [apply app_nil_r|].
    unfold JS.ceil_div. generalize ((Z.of_nat (length bytes) + 2) / 3). intros k. euclid. }
  rewrite Hpad. apply decode_loop_rfc.
Qed.

(** X4.  The decoder takes the padded standard form as well as the
    Base64URL form: from [bytesToBase64 x] itself, with ['+'], ['/'] and
    the padding in place, it rebuilds the bytes [x] and returns the same
    string as from the Base64URL form. *)
Theorem base64_decoder_takes_standard (bytes : list byte) :
  base64UrlToBytes (bytesToBase64 bytes) = map byte_val bytes
  /\ (forall decode : list byte -> option jsstring,
        base64UrlToString decode (bytesToBase64 bytes)
        = base64UrlToString decode (toBase64Url (bytesToBase64 bytes))).
Proof.
  split; [apply base64UrlToBytes_standard|].
  intros decode. unfold base64UrlToString.
  rewrite base64UrlToBytes_standard, base64url_bytes_roundtrip. reflexivity.
Qed.

(** ** Equal encodings *)

Lemma map_byte_val_inj (b1 b2 : list byte) : map byte_val b1 = map byte_val b2 -> b1 = b2.
Proof.
  intros H. rewrite <- (map_u8_byte_val b1), <- (map_u8_byte_val b2), H. reflexivity.
Qed.

Lemma base64url_inj (b1 b2 : list byte) :
  toBase64Url (bytesToBase64 b1) = toBase64Url (bytesToBase64 b2) -> b1 = b2.
Proof.
  intros H. apply map_byte_val_inj.
  rewrite <- (base64url_bytes_roundtrip b1), <- (base64url_bytes_roundtrip b2), H.
  reflexivity.
Qed.

(** X5.  The encoding loses nothing: two byte sequences with the same
    Base64URL text are the same, so two verifiers have the same code
    challenge exactly when the SHA-256 digests of their UTF-8 bytes are the
    same. *)
Theorem challenge_collisions (v1 v2 : jsstring) :
  (forall b1 b2 : list byte,
     toBase64Url (bytesToBase64 b1) = toBase64Url (bytesToBase64 b2) <-> b1 = b2)
  /\ (createCodeChallenge v1 = createCodeChallenge v2
      <-> Sha256.sha256 (Utf8.encode v1) = Sha256.sha256 (Utf8.encode v2)).
Proof.
  split.
  - intros b1 b2. split; [apply base64url_inj | intros ->; reflexivity].
  - unfold createCodeChallenge. cbv zeta.
    split; [apply base64url_inj | intros ->; reflexivity].
Qed.

(** ** The decoder on any text *)

Lemma JS_band_byte (x : Z) : 0 <= JS.band x 0xff < 256.
Proof.
  unfold JS.band. change (JS.ToInt32 0xff) with (Z.ones 8).
  rewrite Z.land_ones by lia. apply Z.mod_pos_bound. lia.
Qed.

Lemma decode_step_bounds (padded : jsstring) (i : Z) :
  Forall (fun b => 0 <= b < 256) (decode_step padded i [])
  /\ (1 <= length (decode_step padded i []) <= 3)%nat.
Proof.
  unfold decode_step. cbv zeta.
  repeat match goal with
         | |- context [if ?c then _ else _] => destruct c
         end;
    (split; [repeat (apply Forall_app; split); repeat constructor; apply JS_band_byte
            | rewrite ?length_app; simpl; lia]).
Qed.

Lemma decode_loop_bounds (k : nat) :
  forall padded : jsstring,
    length padded = (4 * k)%nat ->
    Forall (fun b => 0 <= b < 256) (decode_loop padded)
    /\ (k <= length (decode_loop padded) <= 3 * k)%nat.
Proof.
  induction k as [|k IH]; intros padded Hl.
  - destruct padded; [|discriminate]. split; [constructor | simpl; lia].
  - destruct padded as [|q1 [|q2 [|q3 [|q4 rest]]]]; try (simpl in Hl; lia).
    rewrite decode_loop_cons.
    destruct (decode_step_bounds (q1 :: q2 :: q3 :: q4 :: rest) 0) as [F L].
    destruct (IH rest ltac:(simpl in Hl; lia)) as [F' L'].
    split; [apply Forall_app; split; assumption|].
    rewrite length_app. lia.
Qed.

Lemma replace_all_length (c d : Z) (s : jsstring) : length (replace_all c d s) = length s.
Proof. apply length_map. Qed.

Lemma padEnd_groups (s : jsstring) (c : Z) :
  length (padEnd s (JS.ceil_div (Z.of_nat (length s)) 4 * 4) c)
  = (4 * Z.to_nat ((Z.of_nat (length s) + 3) / 4))%nat.
Proof.
  unfold padEnd, JS.ceil_div. rewrite length_app, length_replicate.
  generalize (length s). intros n. euclid.
Qed.

(** X6.  On every text, well formed or not, [base64UrlToString] fills its
    array with numbers between 0 and 255 only (so [Uint8Array.from] changes
    none), at least one and at most three for every group of four
    characters begun.  The array is empty exactly for the empty text. *)
Theorem base64UrlToBytes_bounds (input : jsstring) :
  let groups := (Z.of_nat (length input) + 3) / 4 in
  Forall (fun b => 0 <= b < 256) (base64UrlToBytes input)
  /\ groups <= Z.of_nat (length (base64UrlToBytes input)) <= 3 * groups
  /\ (input = [] <-> base64UrlToBytes input = []).
Proof.
  intros groups. rewrite base64UrlToBytes_loop.
  set (base64 := replace_all (chr "_") (chr "/") (replace_all (chr "-") (chr "+") input)).
  assert (Hb : length base64 = length input)
    by (unfold base64; rewrite !replace_all_length; reflexivity).
  destruct (decode_loop_bounds (Z.to_nat groups)
              (padEnd base64 (JS.ceil_div (Z.of_nat (length base64)) 4 * 4) (chr "=")))
    as [F L].
  { rewrite padEnd_groups, Hb. reflexivity. }
  assert (Hg : 0 <= groups) by (unfold groups; euclid).
  split; [exact F|]. split; [lia|].
  split.
  - intros ->. reflexivity.
  - intros E. rewrite E in L. simpl in L.
    assert (groups = 0) by lia.
    destruct input; [reflexivity|]. unfold groups in *. simpl length in *. euclid.
Qed.

(** ** The characters of a random string *)










(** X8.  The characters are not equally likely: of the 256 values of a
    byte, four give each of the first 58 characters of the set and three
    give each of the last eight (['6'] to ['9'], ['-'], ['.'], ['_'], ['~']),
    since 256 is not a multiple of 66. *)
Theorem randomString_bias (k : Z) :
  0 <= k < 66 ->
  length (List.filter
            (fun b => match randomString 1 {| secure := true; draws := fun _ => b |} with
                      | inr (s, _) => bool_decide (s = [nth (Z.to_nat k) PKCE_CHARSET 0])
                      | inl _ => false
                      end)
            (map Z.of_nat (seq 0 256)))
  = if k <? 58 then 4%nat else 3%nat.
Proof.
  intros Hk.
  pose (p := fun k : Z =>
               Nat.eqb
                 (length (List.filter
                    (fun b => match randomString 1 {| secure := true; draws := fun _ => b |} with
                              | inr (s, _) =>
                                  bool_decide (s = [nth (Z.to_nat k) PKCE_CHARSET 0])
                              | inl _ => false
                              end)
                    (map Z.of_nat (seq 0 256))))
                 (if k <? 58 then 4%nat else 3%nat)).
  assert (H : p k = true)
    by (apply (forall_below 66 p); [vm_compute; reflexivity | exact Hk]).
  unfold p in H. apply Nat.eqb_eq in H. exact H.
Qed.

Lemma randomString_bias_witness :
  length (List.filter
            (fun b => match randomString 1 {| secure := true; draws := fun _ => b |} with
                      | inr (s, _) => bool_decide (s = [nth (Z.to_nat 65) PKCE_CHARSET 0])
                      | inl _ => false
                      end)
            (map Z.of_nat (seq 0 256)))
  = 3%nat.
Proof. apply (randomString_bias 65). lia. Defined.

(** ** The traces of the flows *)

Lemma runOAuthCodeFlow_trace (P : Platform) (input : OAuthInput) (w : World)
    (redirectUri : jsstring) :
  getRedirectUri P = inr redirectUri ->
  let authUrl := authorizeUrl input ++ js "?" ++ toQueryString P (authorizeParams input) in
  run w (runOAuthCodeFlow P input)
  = (sessionOutcome P (w _ (openAuthSessionAsync authUrl redirectUri)) (expectedState input),
     [AuthRequest authUrl redirectUri]).
Proof.
  intros Hr authUrl. unfold runOAuthCodeFlow, sessionOutcome. rewrite Hr. flow_cbn.
  fold authUrl.
  generalize (w AuthSessionResult (openAuthSessionAsync authUrl redirectUri)). intros result.
  destruct (negb (bool_decide (type result = js "success"))); flow_cbn; [reflexivity|].
  cbv zeta.
  destruct (negb (truthy (normalizeString (url result)))); flow_cbn; [reflexivity|].
  destruct (parseOAuthUrl P (normalizeString (url result)) (expectedState input));
    reflexivity.
Qed.

Lemma runOAuthCodeFlow_unconfigured (P : Platform) (input : OAuthInput) (w : World) (e : exn) :
  getRedirectUri P = inl e -> run w (runOAuthCodeFlow P input) = (inl e, []).
Proof. intros Hr. unfold runOAuthCodeFlow. rewrite Hr. reflexivity. Qed.

Lemma line_trace (P : Platform) (rng rng2 : Rng) (w : World)
    (clientId redirectUri state codeVerifier : jsstring) :
  getRequiredEnv P "EXPO_PUBLIC_LINE_CHANNEL_ID" = inr clientId ->
  getRedirectUri P = inr redirectUri ->
  randomString 32 rng = inr (state, advance 32 rng) ->
  randomString 64 (advance 32 rng) = inr (codeVerifier, rng2) ->
  let authUrl :=
    LINE_AUTHORIZE_URL ++ js "?"
    ++ toQueryString P (lineAuthorizeParams clientId redirectUri state
                          (createCodeChallenge codeVerifier)) in
  let auth := AuthRequest authUrl redirectUri in
  run w (authenticateWithLine P rng)
  = match sessionOutcome P (w _ (openAuthSessionAsync authUrl redirectUri)) state with
    | inl e => (inl e, [auth])
    | inr session =>
        let tokenInit :=
          tokenRequestInit P
            (tokenParams (code session) redirectUri clientId codeVerifier
               (process_env P !! "EXPO_PUBLIC_LINE_CHANNEL_SECRET"%string)) in
        let tokenResponse := w _ (fetch LineTokenBody LINE_TOKEN_URL tokenInit) in
        if ok tokenResponse then
          let profileInit := bearerRequestInit (line_access_token (json tokenResponse)) in
          let profileResponse := w _ (fetch LineProfileBody LINE_PROFILE_URL profileInit) in
          (if ok profileResponse
           then lineProfile P (json profileResponse) (json tokenResponse)
           else inl (httpFailure (js "LINE profile fetch failed") profileResponse),
           [auth; FetchRequest LINE_TOKEN_URL tokenInit;
            FetchRequest LINE_PROFILE_URL profileInit])
        else (inl (httpFailure (js "LINE token exchange failed") tokenResponse),
              [auth; FetchRequest LINE_TOKEN_URL tokenInit])
    end.
Proof.
  intros Hc Hr E1 E2 authUrl auth.
  unfold authenticateWithLine. rewrite Hc, Hr. flow_cbn.
  rewrite E1. flow_cbn. rewrite E2. flow_cbn.
  cbv beta iota zeta. unfold mbind at 1. unfold Flow_bind at 1.
  rewrite run_bind.
  rewrite (runOAuthCodeFlow_trace P _ w redirectUri Hr).
  cbn [authorizeUrl authorizeParams expectedState].
  fold (lineAuthorizeParams clientId redirectUri state (createCodeChallenge codeVerifier)).
  fold authUrl. fold auth.
  destruct (sessionOutcome P (w AuthSessionResult (openAuthSessionAsync authUrl redirectUri)) state)
    as [e|session]; [reflexivity|].
  flow_cbn.
  fold (tokenParams (code session) redirectUri clientId codeVerifier
          (process_env P !! "EXPO_PUBLIC_LINE_CHANNEL_SECRET"%string)).
  match goal with
  | |- context [fetch LineTokenBody LINE_TOKEN_URL ?i] =>
      change i with (tokenRequestInit P
        (tokenParams (code session) redirectUri clientId codeVerifier
           (process_env P !! "EXPO_PUBLIC_LINE_CHANNEL_SECRET"%string)))
  end.
  generalize (tokenRequestInit P
        (tokenParams (code session) redirectUri clientId codeVerifier
           (process_env P !! "EXPO_PUBLIC_LINE_CHANNEL_SECRET"%string))).
  intros tokenInit. cbv zeta.
  generalize (w (Response (body_type LineTokenBody)) (fetch LineTokenBody LINE_TOKEN_URL tokenInit)).
  intros [tok tstatus ttext tjson]. unfold httpFailure.
  cbn [ok status text json negb].
  destruct tok; cbn [negb]; flow_cbn; [|reflexivity].
  match goal with
  | |- context [fetch LineProfileBody LINE_PROFILE_URL ?i] =>
      change i with (bearerRequestInit (line_access_token tjson))
  end.
  generalize (bearerRequestInit (line_access_token tjson)). intros profileInit.
  generalize (w (Response (body_type LineProfileBody))
                (fetch LineProfileBody LINE_PROFILE_URL profileInit)).
  intros [pok pstatus ptext pjson]. cbn [ok status text json negb].
  destruct pok; cbn [negb]; flow_cbn; [|reflexivity].
  destruct (lineProfile P pjson tjson); reflexivity.
Qed.

Lemma line_unconfigured (P : Platform) (rng : Rng) (w : World) (e : exn) :
  getRequiredEnv P "EXPO_PUBLIC_LINE_CHANNEL_ID" = inl e
  \/ ((exists clientId, getRequiredEnv P "EXPO_PUBLIC_LINE_CHANNEL_ID" = inr clientId)
      /\ getRedirectUri P = inl e) ->
  run w (authenticateWithLine P rng) = (inl e, []).
Proof.
  unfold authenticateWithLine.
  intros [Hc|[[clientId Hc] Hr]]; rewrite Hc; [reflexivity|].
  rewrite Hr. reflexivity.
Qed.

Lemma x_trace (P : Platform) (rng rng2 : Rng) (w : World)
    (clientId redirectUri state codeVerifier : jsstring) :
  getRequiredEnv P "EXPO_PUBLIC_X_CLIENT_ID" = inr clientId ->
  getRedirectUri P = inr redirectUri ->
  randomString 32 rng = inr (state, advance 32 rng) ->
  randomString 64 (advance 32 rng) = inr (codeVerifier, rng2) ->
  let authUrl :=
    X_AUTHORIZE_URL ++ js "?"
    ++ toQueryString P (xAuthorizeParams clientId redirectUri state
                          (createCodeChallenge codeVerifier)) in
  let auth := AuthRequest authUrl redirectUri in
  run w (authenticateWithX P rng)
  = match sessionOutcome P (w _ (openAuthSessionAsync authUrl redirectUri)) state with
    | inl e => (inl e, [auth])
    | inr session =>
        let tokenInit :=
          tokenRequestInit P
            (tokenParams (code session) redirectUri clientId codeVerifier
               (process_env P !! "EXPO_PUBLIC_X_CLIENT_SECRET"%string)) in
        let tokenResponse := w _ (fetch XTokenBody X_TOKEN_URL tokenInit) in
        if ok tokenResponse then
          let meInit := bearerRequestInit (x_access_token (json tokenResponse)) in
          let meResponse := w _ (fetch XMeBody X_ME_URL meInit) in
          (if ok meResponse
           then xProfile (json meResponse)
           else inl (httpFailure (js "X profile fetch failed") meResponse),
           [auth; FetchRequest X_TOKEN_URL tokenInit; FetchRequest X_ME_URL meInit])
        else (inl (httpFailure (js "X token exchange failed") tokenResponse),
              [auth; FetchRequest X_TOKEN_URL tokenInit])
    end.
Proof.
  intros Hc Hr E1 E2 authUrl auth.
  unfold authenticateWithX. rewrite Hc, Hr. flow_cbn.
  rewrite E1. flow_cbn. rewrite E2. flow_cbn.
  cbv beta iota zeta. unfold mbind at 1. unfold Flow_bind at 1.
  rewrite run_bind.
  rewrite (runOAuthCodeFlow_trace P _ w redirectUri Hr).
  cbn [authorizeUrl authorizeParams expectedState].
  fold (xAuthorizeParams clientId redirectUri state (createCodeChallenge codeVerifier)).
  fold authUrl. fold auth.
  destruct (sessionOutcome P (w AuthSessionResult (openAuthSessionAsync authUrl redirectUri)) state)
    as [e|session]; [reflexivity|].
  flow_cbn.
  fold (tokenParams (code session) redirectUri clientId codeVerifier
          (process_env P !! "EXPO_PUBLIC_X_CLIENT_SECRET"%string)).
  match goal with
  | |- context [fetch XTokenBody X_TOKEN_URL ?i] =>
      change i with (tokenRequestInit P
        (tokenParams (code session) redirectUri clientId codeVerifier
           (process_env P !! "EXPO_PUBLIC_X_CLIENT_SECRET"%string)))
  end.
  generalize (tokenRequestInit P
        (tokenParams (code session) redirectUri clientId codeVerifier
           (process_env P !! "EXPO_PUBLIC_X_CLIENT_SECRET"%string))).
  intros tokenInit. cbv zeta.
  generalize (w (Response (body_type XTokenBody)) (fetch XTokenBody X_TOKEN_URL tokenInit)).
  intros [tok tstatus ttext tjson]. unfold httpFailure.
  cbn [ok status text json negb].
  destruct tok; cbn [negb]; flow_cbn; [|reflexivity].
  match goal with
  | |- context [fetch XMeBody X_ME_URL ?i] =>
      change i with (bearerRequestInit (x_access_token tjson))
  end.
  generalize (bearerRequestInit (x_access_token tjson)). intros meInit.
  generalize (w (Response (body_type XMeBody)) (fetch XMeBody X_ME_URL meInit)).
  intros [pok pstatus ptext pjson]. cbn [ok status text json negb].
  destruct pok; cbn [negb]; flow_cbn; [|reflexivity].
  destruct (xProfile pjson); reflexivity.
Qed.

Lemma x_unconfigured (P : Platform) (rng : Rng) (w : World) (e : exn) :
  getRequiredEnv P "EXPO_PUBLIC_X_CLIENT_ID" = inl e
  \/ ((exists clientId, getRequiredEnv P "EXPO_PUBLIC_X_CLIENT_ID" = inr clientId)
      /\ getRedirectUri P = inl e) ->
  run w (authenticateWithX P rng) = (inl e, []).
Proof.
  unfold authenticateWithX.
  intros [Hc|[[clientId Hc] Hr]]; rewrite Hc; [reflexivity|].
  rewrite Hr. reflexivity.
Qed.

(** ** What a successful callback shows *)

Lemma normalizeString_string (v : jsval) (s : jsstring) :
  normalizeString v = s -> s <> [] -> v = VString s.
Proof. destruct v; simpl; intros <- H; congruence. Qed.

Lemma parseOAuthUrl_success (P : Platform) (returnUrl expected : jsstring)
    (session : OAuthSessionResult) :
  parseOAuthUrl P returnUrl expected = inr session ->
  normalizeString (prop (callbackParams P returnUrl) "error") = []
  /\ prop (callbackParams P returnUrl) "state" = VString expected
  /\ expected <> []
  /\ prop (callbackParams P returnUrl) "code" = VString (code session)
  /\ code session <> [].
Proof.
  unfold callbackParams. intros H.
  destruct (parseOAuthUrl_cases P returnUrl expected) as (H1 & H2 & H3 & H4).
  cbv zeta in H1, H2, H3, H4.
  set (params := nullish (queryParams (Linking_parse P returnUrl)) ∅) in *.
  destruct (decide (normalizeString (prop params "error") = [])) as [He|He];
    [|rewrite H1 in H by exact He; discriminate].
  destruct (decide (normalizeString (prop params "state") = [])) as [Hs|Hs];
    [rewrite H2 in H by (exact He || (left; exact Hs)); discriminate|].
  destruct (decide (normalizeString (prop params "state") = expected)) as [Hx|Hx];
    [|rewrite H2 in H by (exact He || (right; right; exact Hx)); discriminate].
  destruct (decide (normalizeString (prop params "code") = [])) as [Hd|Hd];
    [rewrite H3 in H by assumption; discriminate|].
  rewrite H4 in H by assumption. injection H as <-. cbn [code].
  split; [exact He|].
  split; [apply normalizeString_string; [exact Hx | rewrite <- Hx; exact Hs]|].
  split; [rewrite <- Hx; exact Hs|].
  split; [apply normalizeString_string; [reflexivity | exact Hd] | exact Hd].
Qed.

Lemma sessionOutcome_success (P : Platform) (result : AuthSessionResult)
    (expected : jsstring) (session : OAuthSessionResult) :
  sessionOutcome P result expected = inr session ->
  type result = js "success"
  /\ exists returnUrl,
       url result = VString returnUrl /\ returnUrl <> []
       /\ parseOAuthUrl P returnUrl expected = inr session.
Proof.
  unfold sessionOutcome.
  destruct (bool_decide (type result = js "success")) eqn:Et; cbn [negb]; [|discriminate].
  apply bool_decide_eq_true in Et. cbv zeta.
  destruct (truthy (normalizeString (url result))) eqn:Eu; cbn [negb]; [|discriminate].
  apply truthy_true in Eu.
  intros H. split; [exact Et|]. exists (normalizeString (url result)).
  split; [apply normalizeString_string; [reflexivity | exact Eu]|].
  split; [exact Eu | exact H].
Qed.

Lemma getRequiredEnv_spec (P : Platform) (name : string) :
  (forall v, getRequiredEnv P name = inr v <-> process_env P !! name = Some v /\ v <> [])
  /\ (process_env P !! name = None \/ process_env P !! name = Some [] ->
      getRequiredEnv P name = inl (Error (js "Missing environment variable: " ++ js name))).
Proof.
  unfold getRequiredEnv. destruct (process_env P !! name) as [[|c value]|]; cbn [truthy].
  - split; [intros v; split; [discriminate | intros [H N]; congruence] | reflexivity].
  - split.
    + intros v. split; [intros H; injection H as <-; split; [reflexivity | discriminate]
                       | intros [H _]; congruence].
    + intros [H|H]; discriminate.
  - split; [intros v; split; [discriminate | intros [H _]; discriminate] | reflexivity].
Qed.

(** X9.  [getRequiredEnv] returns the value of a variable that is set and
    not empty and throws otherwise, naming the variable.  A sign-in flow
    whose client identifier is not set, or is empty, fails with that error
    before it opens the browser or sends any request. *)
Theorem flows_need_client_id (P : Platform) (rng : Rng) (w : World) :
  (forall name v,
     getRequiredEnv P name = inr v <-> process_env P !! name = Some v /\ v <> [])
  /\ (process_env P !! "EXPO_PUBLIC_LINE_CHANNEL_ID"%string = None
      \/ process_env P !! "EXPO_PUBLIC_LINE_CHANNEL_ID"%string = Some [] ->
      run w (authenticateWithLine P rng)
      = (inl (Error (js "Missing environment variable: EXPO_PUBLIC_LINE_CHANNEL_ID")), []))
  /\ (process_env P !! "EXPO_PUBLIC_X_CLIENT_ID"%string = None
      \/ process_env P !! "EXPO_PUBLIC_X_CLIENT_ID"%string = Some [] ->
      run w (authenticateWithX P rng)
      = (inl (Error (js "Missing environment variable: EXPO_PUBLIC_X_CLIENT_ID")), [])).
Proof.
  split; [intros name v; apply getRequiredEnv_spec|].
  split; intros H.
  - apply line_unconfigured. left.
    apply (proj2 (getRequiredEnv_spec P "EXPO_PUBLIC_LINE_CHANNEL_ID")). exact H.
  - apply x_unconfigured. left.
    apply (proj2 (getRequiredEnv_spec P "EXPO_PUBLIC_X_CLIENT_ID")). exact H.
Qed.

Lemma flows_need_client_id_witness :
  run offline_world (authenticateWithLine (host_with_query ∅) counting_rng)
  = (inl (Error (js "Missing environment variable: EXPO_PUBLIC_LINE_CHANNEL_ID")), []).
Proof.
  destruct (flows_need_client_id (host_with_query ∅) counting_rng offline_world)
    as (_ & H & _).
  apply H. left. reflexivity.
Defined.

(** X10.  [runOAuthCodeFlow] opens at most one browser session and makes no
    other call.  It returns a code only if the session ended with
    ['success'] and a callback URL whose [state] parameter is a string
    equal to the expected state, which is then not empty, whose [error]
    parameter is no non-empty string, and whose [code] parameter is the
    code returned. *)
Theorem runOAuthCodeFlow_state_check (P : Platform) (input : OAuthInput) (w : World) :
  (length (calls w (runOAuthCodeFlow P input)) <= 1)%nat
  /\ forall session : OAuthSessionResult,
       outcome w (runOAuthCodeFlow P input) = inr session ->
       exists redirectUri returnUrl : jsstring,
         getRedirectUri P = inr redirectUri
         /\ let authUrl :=
              authorizeUrl input ++ js "?" ++ toQueryString P (authorizeParams input) in
            calls w (runOAuthCodeFlow P input) = [AuthRequest authUrl redirectUri]
            /\ type (w _ (openAuthSessionAsync authUrl redirectUri)) = js "success"
            /\ url (w _ (openAuthSessionAsync authUrl redirectUri)) = VString returnUrl
            /\ normalizeString (prop (callbackParams P returnUrl) "error") = []
            /\ prop (callbackParams P returnUrl) "state" = VString (expectedState input)
            /\ expectedState input <> []
            /\ prop (callbackParams P returnUrl) "code" = VString (code session)
            /\ code session <> [].
Proof.
  unfold calls, outcome.
  destruct (getRedirectUri P) as [e|redirectUri] eqn:Hr.
  - rewrite (runOAuthCodeFlow_unconfigured P input w e Hr). cbn [fst snd length].
    split; [lia | discriminate].
  - rewrite (runOAuthCodeFlow_trace P input w redirectUri Hr). cbn [fst snd length].
    split; [lia|]. intros session Hs.
    apply sessionOutcome_success in Hs. destruct Hs as (Ht & returnUrl & Hu & Hne & Hp).
    apply parseOAuthUrl_success in Hp. destruct Hp as (He & Hst & Hx & Hcd & Hcn).
    exists redirectUri, returnUrl. split; [reflexivity|]. cbv zeta.
    repeat split; assumption.
Qed.

Lemma runOAuthCodeFlow_state_check_witness :
  exists redirectUri returnUrl : jsstring,
    getRedirectUri happy_host = inr redirectUri
    /\ url (happy_world _ (openAuthSessionAsync
                             (js "https://example.org/authorize" ++ js "?"
                              ++ toQueryString happy_host [])
                             redirectUri))
       = VString returnUrl
    /\ prop (callbackParams happy_host returnUrl) "state"
       = VString match randomString 32 counting_rng with
                 | inr (state, _) => state
                 | inl _ => []
                 end.
Proof.
  destruct (runOAuthCodeFlow_state_check happy_host
              {| authorizeUrl := js "https://example.org/authorize";
                 authorizeParams := [];
                 expectedState := match randomString 32 counting_rng with
                                  | inr (state, _) => state
                                  | inl _ => []
                                  end |}
              happy_world) as [_ H].
  destruct (H {| code := js "c0de" |}) as (redirectUri & returnUrl & Hr & H').
  - vm_compute. reflexivity.
  - cbv zeta in H'. cbn [authorizeUrl authorizeParams expectedState] in H'.
    destruct H' as (_ & _ & Hu & _ & Hs & _).
    exists redirectUri, returnUrl. repeat split; assumption.
Defined.

Lemma token_not_profile (init init' : RequestInit) :
  FetchRequest LINE_PROFILE_URL init <> FetchRequest LINE_TOKEN_URL init'
  /\ FetchRequest X_ME_URL init <> FetchRequest X_TOKEN_URL init'.
Proof.
  split; intros H; apply FetchRequest_inj in H; destruct H as [H _].
  - apply (proj2 urls_differ). symmetry. exact H.
  - apply (proj1 urls_differ). symmetry. exact H.
Qed.

(** X11.  [authenticateWithLine] sends a token request only after the
    browser session came back with a callback URL that passed
    [parseOAuthUrl] against the state generated for this attempt: its
    [state] parameter is that state.  The request is a form-encoded POST
    whose body carries the code of that callback, the redirect URI and
    client identifier of the authorization request, the verifier whose
    challenge the authorization request carried and, when one is
    configured and not empty, the channel secret. *)
Theorem line_token_request (P : Platform) (rng : Rng) (w : World) (init : RequestInit) :
  In (FetchRequest LINE_TOKEN_URL init) (calls w (authenticateWithLine P rng)) ->
  exists (state codeVerifier clientId redirectUri returnUrl : jsstring)
         (session : OAuthSessionResult),
    randomString 32 rng = inr (state, advance 32 rng)
    /\ randomString 64 (advance 32 rng) = inr (codeVerifier, advance 64 (advance 32 rng))
    /\ getRequiredEnv P "EXPO_PUBLIC_LINE_CHANNEL_ID" = inr clientId
    /\ getRedirectUri P = inr redirectUri
    /\ let authUrl :=
         LINE_AUTHORIZE_URL ++ js "?"
         ++ toQueryString P (lineAuthorizeParams clientId redirectUri state
                               (createCodeChallenge codeVerifier)) in
       calls w (authenticateWithLine P rng) !! 0%nat = Some (AuthRequest authUrl redirectUri)
       /\ calls w (authenticateWithLine P rng) !! 1%nat = Some (FetchRequest LINE_TOKEN_URL init)
       /\ url (w _ (openAuthSessionAsync authUrl redirectUri)) = VString returnUrl
       /\ parseOAuthUrl P returnUrl state = inr session
       /\ prop (callbackParams P returnUrl) "state" = VString state
       /\ init = tokenRequestInit P
                   (tokenParams (code session) redirectUri clientId codeVerifier
                      (process_env P !! "EXPO_PUBLIC_LINE_CHANNEL_SECRET"%string)).
Proof.
  intros Hin. unfold calls in Hin |- *.
  destruct (randomString_small 32 rng) as (state & E1 & _); [lia|].
  destruct (randomString_small 64 (advance 32 rng)) as (codeVerifier & E2 & _); [lia|].
  destruct (getRequiredEnv P "EXPO_PUBLIC_LINE_CHANNEL_ID") as [e|clientId] eqn:Hc;
    [rewrite (line_unconfigured P rng w e) in Hin by (left; exact Hc); destruct Hin|].
  destruct (getRedirectUri P) as [e|redirectUri] eqn:Hr;
    [rewrite (line_unconfigured P rng w e) in Hin
       by (right; split; [exists clientId; exact Hc | exact Hr]); destruct Hin|].
  rewrite (line_trace P rng _ w clientId redirectUri state codeVerifier Hc Hr E1 E2) in *.
  cbv zeta in *.
  set (authUrl := LINE_AUTHORIZE_URL ++ js "?"
         ++ toQueryString P (lineAuthorizeParams clientId redirectUri state
                               (createCodeChallenge codeVerifier))) in *.
  destruct (sessionOutcome P (w AuthSessionResult (openAuthSessionAsync authUrl redirectUri)) state)
    as [e|session] eqn:Es.
  { cbn [snd] in Hin. destruct Hin as [H|[]]. discriminate. }
  pose proof (sessionOutcome_success _ _ _ _ Es) as (_ & returnUrl & Hu & _ & Hp).
  pose proof (parseOAuthUrl_success _ _ _ _ Hp) as (_ & Hst & _).
  exists state, codeVerifier, clientId, redirectUri, returnUrl, session.
  split; [exact E1|]. split; [exact E2|].
  split; [reflexivity|]. split; [reflexivity|].
  set (tokenInit := tokenRequestInit P _) in *.
  assert (E : init = tokenInit).
  { revert Hin.
    match goal with
    | |- context [if ?c then _ else _] => destruct c
    end; cbn [snd]; intros [H|[H|H]]; try discriminate.
    - apply FetchRequest_inj in H. symmetry. exact (proj2 H).
    - destruct H as [H|[]]. destruct (proj1 (token_not_profile _ _) H).
    - apply FetchRequest_inj in H. symmetry. exact (proj2 H).
    - destruct H. }
  subst init.
  split; [match goal with
          | |- context [if ?c then _ else _] => destruct c
          end; reflexivity|].
  split; [match goal with
          | |- context [if ?c then _ else _] => destruct c
          end; reflexivity|].
  repeat split; assumption.
Qed.

Lemma line_token_request_witness :
  calls happy_world (authenticateWithLine happy_host counting_rng) !! 1%nat
  = Some (FetchRequest LINE_TOKEN_URL
            {| method := Some (js "POST");
               headers := [ (js "Content-Type", js "application/x-www-form-urlencoded") ];
               body := Some [] |}).
Proof.
  destruct (line_token_request happy_host counting_rng happy_world
              {| method := Some (js "POST");
                 headers := [ (js "Content-Type", js "application/x-www-form-urlencoded") ];
                 body := Some [] |})
    as (state & codeVerifier & clientId & redirectUri & returnUrl & session
        & _ & _ & _ & _ & H).
  - vm_compute. right. left. reflexivity.
  - cbv zeta in H. destruct H as (_ & H & _). exact H.
Defined.

(** X12.  The same for [authenticateWithX]: a token request is sent only
    after a callback that passed the state check of this attempt, and
    carries the code of that callback, the verifier of this attempt and,
    when configured and not empty, the client secret. *)
Theorem x_token_request (P : Platform) (rng : Rng) (w : World) (init : RequestInit) :
  In (FetchRequest X_TOKEN_URL init) (calls w (authenticateWithX P rng)) ->
  exists (state codeVerifier clientId redirectUri returnUrl : jsstring)
         (session : OAuthSessionResult),
    randomString 32 rng = inr (state, advance 32 rng)
    /\ randomString 64 (advance 32 rng) = inr (codeVerifier, advance 64 (advance 32 rng))
    /\ getRequiredEnv P "EXPO_PUBLIC_X_CLIENT_ID" = inr clientId
    /\ getRedirectUri P = inr redirectUri
    /\ let authUrl :=
         X_AUTHORIZE_URL ++ js "?"
         ++ toQueryString P (xAuthorizeParams clientId redirectUri state
                               (createCodeChallenge codeVerifier)) in
       calls w (authenticateWithX P rng) !! 0%nat = Some (AuthRequest authUrl redirectUri)
       /\ calls w (authenticateWithX P rng) !! 1%nat = Some (FetchRequest X_TOKEN_URL init)
       /\ url (w _ (openAuthSessionAsync authUrl redirectUri)) = VString returnUrl
       /\ parseOAuthUrl P returnUrl state = inr session
       /\ prop (callbackParams P returnUrl) "state" = VString state
       /\ init = tokenRequestInit P
                   (tokenParams (code session) redirectUri clientId codeVerifier
                      (process_env P !! "EXPO_PUBLIC_X_CLIENT_SECRET"%string)).
Proof.
  intros Hin. unfold calls in Hin |- *.
  destruct (randomString_small 32 rng) as (state & E1 & _); [lia|].
  destruct (randomString_small 64 (advance 32 rng)) as (codeVerifier & E2 & _); [lia|].
  destruct (getRequiredEnv P "EXPO_PUBLIC_X_CLIENT_ID") as [e|clientId] eqn:Hc;
    [rewrite (x_unconfigured P rng w e) in Hin by (left; exact Hc); destruct Hin|].
  destruct (getRedirectUri P) as [e|redirectUri] eqn:Hr;
    [rewrite (x_unconfigured P rng w e) in Hin
       by (right; split; [exists clientId; exact Hc | exact Hr]); destruct Hin|].
  rewrite (x_trace P rng _ w clientId redirectUri state codeVerifier Hc Hr E1 E2) in *.
  cbv zeta in *.
  set (authUrl := X_AUTHORIZE_URL ++ js "?"
         ++ toQueryString P (xAuthorizeParams clientId redirectUri state
                               (createCodeChallenge codeVerifier))) in *.
  destruct (sessionOutcome P (w AuthSessionResult (openAuthSessionAsync authUrl redirectUri)) state)
    as [e|session] eqn:Es.
  { cbn [snd] in Hin. destruct Hin as [H|[]]. discriminate. }
  pose proof (sessionOutcome_success _ _ _ _ Es) as (_ & returnUrl & Hu & _ & Hp).
  pose proof (parseOAuthUrl_success _ _ _ _ Hp) as (_ & Hst & _).
  exists state, codeVerifier, clientId, redirectUri, returnUrl, session.
  split; [exact E1|]. split; [exact E2|].
  split; [reflexivity|]. split; [reflexivity|].
  set (tokenInit := tokenRequestInit P _) in *.
  assert (E : init = tokenInit).
  { revert Hin.
    match goal with
    | |- context [if ?c then _ else _] => destruct c
    end; cbn [snd]; intros [H|[H|H]]; try discriminate.
    - apply FetchRequest_inj in H. symmetry. exact (proj2 H).
    - destruct H as [H|[]]. destruct (proj2 (token_not_profile _ _) H).
    - apply FetchRequest_inj in H. symmetry. exact (proj2 H).
    - destruct H. }
  subst init.
  split; [match goal with
          | |- context [if ?c then _ else _] => destruct c
          end; reflexivity|].
  split; [match goal with
          | |- context [if ?c then _ else _] => destruct c
          end; reflexivity|].
  repeat split; assumption.
Qed.

Lemma x_token_request_witness :
  calls happy_world (authenticateWithX happy_host counting_rng) !! 1%nat
  = Some (FetchRequest X_TOKEN_URL
            {| method := Some (js "POST");
               headers := [ (js "Content-Type", js "application/x-www-form-urlencoded") ];
               body := Some [] |}).
Proof.
  destruct (x_token_request happy_host counting_rng happy_world
              {| method := Some (js "POST");
                 headers := [ (js "Content-Type", js "application/x-www-form-urlencoded") ];
                 body := Some [] |})
    as (state & codeVerifier & clientId & redirectUri & returnUrl & session
        & _ & _ & _ & _ & H).
  - vm_compute. right. left. reflexivity.
  - cbv zeta in H. destruct H as (_ & H & _). exact H.
Defined.

(** ** The order of the calls and the failures of the requests *)

Lemma line_run_cases (P : Platform) (rng : Rng) (w : World) :
  (exists e, run w (authenticateWithLine P rng) = (inl e, []))
  \/ (exists e auth, run w (authenticateWithLine P rng) = (inl e, [AuthRequest auth.1 auth.2]))
  \/ (exists auth tokenInit,
        let tokenResponse := w _ (fetch LineTokenBody LINE_TOKEN_URL tokenInit) in
        ok tokenResponse = false
        /\ run w (authenticateWithLine P rng)
           = (inl (httpFailure (js "LINE token exchange failed") tokenResponse),
              [AuthRequest auth.1 auth.2; FetchRequest LINE_TOKEN_URL tokenInit]))
  \/ (exists auth tokenInit,
        let tokenResponse := w _ (fetch LineTokenBody LINE_TOKEN_URL tokenInit) in
        let profileInit := bearerRequestInit (line_access_token (json tokenResponse)) in
        let profileResponse := w _ (fetch LineProfileBody LINE_PROFILE_URL profileInit) in
        ok tokenResponse = true
        /\ run w (authenticateWithLine P rng)
           = (if ok profileResponse
              then lineProfile P (json profileResponse) (json tokenResponse)
              else inl (httpFailure (js "LINE profile fetch failed") profileResponse),
              [AuthRequest auth.1 auth.2; FetchRequest LINE_TOKEN_URL tokenInit;
               FetchRequest LINE_PROFILE_URL profileInit])).
Proof.
  destruct (getRequiredEnv P "EXPO_PUBLIC_LINE_CHANNEL_ID") as [e|clientId] eqn:Hc;
    [left; exists e; apply line_unconfigured; left; exact Hc|].
  destruct (getRedirectUri P) as [e|redirectUri] eqn:Hr;
    [left; exists e; apply line_unconfigured; right;
     split; [exists clientId; exact Hc | exact Hr]|].
  destruct (randomString_small 32 rng) as (state & E1 & _); [lia|].
  destruct (randomString_small 64 (advance 32 rng)) as (codeVerifier & E2 & _); [lia|].
  rewrite (line_trace P rng _ w clientId redirectUri state codeVerifier Hc Hr E1 E2).
  cbv zeta.
  set (authUrl := LINE_AUTHORIZE_URL ++ _).
  destruct (sessionOutcome P _ _) as [e|session];
    [right; left; exists e, (authUrl, redirectUri); reflexivity|].
  set (tokenInit := tokenRequestInit P _).
  right; right.
  match goal with
  | |- context [if ?c then _ else _] => destruct c eqn:Eok
  end.
  - right. exists (authUrl, redirectUri), tokenInit. cbv zeta. split; [exact Eok | reflexivity].
  - left. exists (authUrl, redirectUri), tokenInit. cbv zeta. split; [exact Eok | reflexivity].
Qed.

(** X13.  [authenticateWithLine] makes at most three calls, in this order:
    the browser session, the token request, the profile request.  The
    profile request is sent only after a token response that is [ok] and
    carries nothing but the access token of that response as a bearer
    token; a profile is returned only after all three calls. *)
Theorem line_calls (P : Platform) (rng : Rng) (w : World) :
  let log := calls w (authenticateWithLine P rng) in
  (length log <= 3)%nat
  /\ (forall r, log !! 0%nat = Some r ->
        exists authUrl redirectUri, r = AuthRequest authUrl redirectUri)
  /\ (forall r, log !! 1%nat = Some r ->
        exists tokenInit, r = FetchRequest LINE_TOKEN_URL tokenInit)
  /\ (forall r, log !! 2%nat = Some r ->
        exists tokenInit,
          let tokenResponse := w _ (fetch LineTokenBody LINE_TOKEN_URL tokenInit) in
          log !! 1%nat = Some (FetchRequest LINE_TOKEN_URL tokenInit)
          /\ ok tokenResponse = true
          /\ r = FetchRequest LINE_PROFILE_URL
                   (bearerRequestInit (line_access_token (json tokenResponse))))
  /\ (forall profile, outcome w (authenticateWithLine P rng) = inr profile ->
        length log = 3%nat).
Proof.
  unfold calls, outcome. cbv zeta.
  destruct (line_run_cases P rng w)
    as [(e & ->)|[(e & auth & ->)|[(auth & tokenInit & H)|(auth & tokenInit & H)]]];
    cbv zeta in *; try (destruct H as [Hok ->]); cbn [fst snd length].
  - split; [lia|]. repeat split; intros; discriminate.
  - split; [lia|].
    split; [intros r H; injection H as <-; eauto|].
    repeat split; intros; discriminate.
  - split; [lia|].
    split; [intros r H; injection H as <-; eauto|].
    split; [intros r H; injection H as <-; eauto|].
    repeat split; intros; discriminate.
  - split; [lia|].
    split; [intros r H; injection H as <-; eauto|].
    split; [intros r H; injection H as <-; eauto|].
    split; [|reflexivity].
    intros r H. injection H as <-. exists tokenInit. cbv zeta.
    split; [reflexivity|]. split; [exact Hok | reflexivity].
Qed.

(** X14.  When the token response of [authenticateWithLine] is not [ok] the
    flow fails with "LINE token exchange failed", the status and the text
    of the response, and sends no profile request; when the profile
    response is not [ok] it fails with "LINE profile fetch failed", the
    status and the text of that response. *)
Theorem line_http_failures (P : Platform) (rng : Rng) (w : World) :
  let log := calls w (authenticateWithLine P rng) in
  (forall tokenInit,
     log !! 1%nat = Some (FetchRequest LINE_TOKEN_URL tokenInit) ->
     let tokenResponse := w _ (fetch LineTokenBody LINE_TOKEN_URL tokenInit) in
     ok tokenResponse = false ->
     outcome w (authenticateWithLine P rng)
     = inl (httpFailure (js "LINE token exchange failed") tokenResponse)
     /\ length log = 2%nat)
  /\ (forall profileInit,
        log !! 2%nat = Some (FetchRequest LINE_PROFILE_URL profileInit) ->
        let profileResponse := w _ (fetch LineProfileBody LINE_PROFILE_URL profileInit) in
        ok profileResponse = false ->
        outcome w (authenticateWithLine P rng)
        = inl (httpFailure (js "LINE profile fetch failed") profileResponse)).
Proof.
  unfold calls, outcome. cbv zeta.
  destruct (line_run_cases P rng w)
    as [(e & ->)|[(e & auth & ->)|[(auth & tokenInit & H)|(auth & tokenInit & H)]]];
    cbv zeta in *; try (destruct H as [Hok ->]); cbn [fst snd length].
  - split; intros; discriminate.
  - split; intros; discriminate.
  - split; [|intros; discriminate].
    intros init H Hf. injection H as <-. split; reflexivity.
  - split.
    + intros init H Hf. injection H as <-.
      assert (Habs : true = false) by (etransitivity; [symmetry; exact Hok | exact Hf]).
      discriminate Habs.
    + intros init H Hf. injection H as <-.
      match goal with
      | |- context [if ?c then _ else _] => destruct c eqn:Ep
      end; [|reflexivity].
      assert (Habs : true = false) by (etransitivity; [symmetry; exact Ep | exact Hf]).
      discriminate Habs.
Qed.

Lemma x_run_cases (P : Platform) (rng : Rng) (w : World) :
  (exists e, run w (authenticateWithX P rng) = (inl e, []))
  \/ (exists e auth, run w (authenticateWithX P rng) = (inl e, [AuthRequest auth.1 auth.2]))
  \/ (exists auth tokenInit,
        let tokenResponse := w _ (fetch XTokenBody X_TOKEN_URL tokenInit) in
        ok tokenResponse = false
        /\ run w (authenticateWithX P rng)
           = (inl (httpFailure (js "X token exchange failed") tokenResponse),
              [AuthRequest auth.1 auth.2; FetchRequest X_TOKEN_URL tokenInit]))
  \/ (exists auth tokenInit,
        let tokenResponse := w _ (fetch XTokenBody X_TOKEN_URL tokenInit) in
        let meInit := bearerRequestInit (x_access_token (json tokenResponse)) in
        let meResponse := w _ (fetch XMeBody X_ME_URL meInit) in
        ok tokenResponse = true
        /\ run w (authenticateWithX P rng)
           = (if ok meResponse
              then xProfile (json meResponse)
              else inl (httpFailure (js "X profile fetch failed") meResponse),
              [AuthRequest auth.1 auth.2; FetchRequest X_TOKEN_URL tokenInit;
               FetchRequest X_ME_URL meInit])).
Proof.
  destruct (getRequiredEnv P "EXPO_PUBLIC_X_CLIENT_ID") as [e|clientId] eqn:Hc;
    [left; exists e; apply x_unconfigured; left; exact Hc|].
  destruct (getRedirectUri P) as [e|redirectUri] eqn:Hr;
    [left; exists e; apply x_unconfigured; right;
     split; [exists clientId; exact Hc | exact Hr]|].
  destruct (randomString_small 32 rng) as (state & E1 & _); [lia|].
  destruct (randomString_small 64 (advance 32 rng)) as (codeVerifier & E2 & _); [lia|].
  rewrite (x_trace P rng _ w clientId redirectUri state codeVerifier Hc Hr E1 E2).
  cbv zeta.
  set (authUrl := X_AUTHORIZE_URL ++ _).
  destruct (sessionOutcome P _ _) as [e|session];
    [right; left; exists e, (authUrl, redirectUri); reflexivity|].
  set (tokenInit := tokenRequestInit P _).
  right; right.
  match goal with
  | |- context [if ?c then _ else _] => destruct c eqn:Eok
  end.
  - right. exists (authUrl, redirectUri), tokenInit. cbv zeta. split; [exact Eok | reflexivity].
  - left. exists (authUrl, redirectUri), tokenInit. cbv zeta. split; [exact Eok | reflexivity].
Qed.

(** X15.  [authenticateWithX] makes at most three calls, in this order: the
    browser session, the token request, the [/users/me] request.  The
    [/users/me] request is sent only after a token response that is [ok]
    and carries nothing but the access token of that response as a bearer
    token; a profile is returned only after all three calls. *)
Theorem x_calls (P : Platform) (rng : Rng) (w : World) :
  let log := calls w (authenticateWithX P rng) in
  (length log <= 3)%nat
  /\ (forall r, log !! 0%nat = Some r ->
        exists authUrl redirectUri, r = AuthRequest authUrl redirectUri)
  /\ (forall r, log !! 1%nat = Some r ->
        exists tokenInit, r = FetchRequest X_TOKEN_URL tokenInit)
  /\ (forall r, log !! 2%nat = Some r ->
        exists tokenInit,
          let tokenResponse := w _ (fetch XTokenBody X_TOKEN_URL tokenInit) in
          log !! 1%nat = Some (FetchRequest X_TOKEN_URL tokenInit)
          /\ ok tokenResponse = true
          /\ r = FetchRequest X_ME_URL
                   (bearerRequestInit (x_access_token (json tokenResponse))))
  /\ (forall profile, outcome w (authenticateWithX P rng) = inr profile ->
        length log = 3%nat).
Proof.
  unfold calls, outcome. cbv zeta.
  destruct (x_run_cases P rng w)
    as [(e & ->)|[(e & auth & ->)|[(auth & tokenInit & H)|(auth & tokenInit & H)]]];
    cbv zeta in *; try (destruct H as [Hok ->]); cbn [fst snd length].
  - split; [lia|]. repeat split; intros; discriminate.
  - split; [lia|].
    split; [intros r H; injection H as <-; eauto|].
    repeat split; intros; discriminate.
  - split; [lia|].
    split; [intros r H; injection H as <-; eauto|].
    split; [intros r H; injection H as <-; eauto|].
    repeat split; intros; discriminate.
  - split; [lia|].
    split; [intros r H; injection H as <-; eauto|].
    split; [intros r H; injection H as <-; eauto|].
    split; [|reflexivity].
    intros r H. injection H as <-. exists tokenInit. cbv zeta.
    split; [reflexivity|]. split; [exact Hok | reflexivity].
Qed.

(** X16.  When the token response of [authenticateWithX] is not [ok] the
    flow fails with "X token exchange failed", the status and the text of
    the response, and sends no [/users/me] request; when the [/users/me]
    response is not [ok] it fails with "X profile fetch failed", the status
    and the text of that response. *)
Theorem x_http_failures (P : Platform) (rng : Rng) (w : World) :
  let log := calls w (authenticateWithX P rng) in
  (forall tokenInit,
     log !! 1%nat = Some (FetchRequest X_TOKEN_URL tokenInit) ->
     let tokenResponse := w _ (fetch XTokenBody X_TOKEN_URL tokenInit) in
     ok tokenResponse = false ->
     outcome w (authenticateWithX P rng)
     = inl (httpFailure (js "X token exchange failed") tokenResponse)
     /\ length log = 2%nat)
  /\ (forall meInit,
        log !! 2%nat = Some (FetchRequest X_ME_URL meInit) ->
        let meResponse := w _ (fetch XMeBody X_ME_URL meInit) in
        ok meResponse = false ->
        outcome w (authenticateWithX P rng)
        = inl (httpFailure (js "X profile fetch failed") meResponse)).
Proof.
  unfold calls, outcome. cbv zeta.
  destruct (x_run_cases P rng w)
    as [(e & ->)|[(e & auth & ->)|[(auth & tokenInit & H)|(auth & tokenInit & H)]]];
    cbv zeta in *; try (destruct H as [Hok ->]); cbn [fst snd length].
  - split; intros; discriminate.
  - split; intros; discriminate.
  - split; [|intros; discriminate].
    intros init H Hf. injection H as <-. split; reflexivity.
  - split.
    + intros init H Hf. injection H as <-.
      assert (Habs : true = false) by (etransitivity; [symmetry; exact Hok | exact Hf]).
      discriminate Habs.
    + intros init H Hf. injection H as <-.
      match goal with
      | |- context [if ?c then _ else _] => destruct c eqn:Ep
      end; [|reflexivity].
      assert (Habs : true = false) by (etransitivity; [symmetry; exact Ep | exact Hf]).
      discriminate Habs.
Qed.

Lemma line_http_failures_witness :
  outcome (answering_world false true) (authenticateWithLine happy_host counting_rng)
  = inl (Error (js "LINE token exchange failed (400): invalid_grant"))
  /\ outcome (answering_world true false) (authenticateWithLine happy_host counting_rng)
     = inl (Error (js "LINE profile fetch failed (401): expired")).
Proof.
  split.
  - destruct (line_http_failures happy_host counting_rng (answering_world false true))
      as [H _].
    cbv zeta in H.
    destruct (H {| method := Some (js "POST");
                   headers := [ (js "Content-Type", js "application/x-www-form-urlencoded") ];
                   body := Some [] |}) as [H' _]; [reflexivity | reflexivity |].
    rewrite H'. reflexivity.
  - destruct (line_http_failures happy_host counting_rng (answering_world true false))
      as [_ H].
    cbv zeta in H.
    rewrite (H (bearerRequestInit (js "at"))); reflexivity.
Defined.

Lemma x_http_failures_witness :
  outcome (answering_world false true) (authenticateWithX happy_host counting_rng)
  = inl (Error (js "X token exchange failed (400): invalid_grant"))
  /\ outcome (answering_world true false) (authenticateWithX happy_host counting_rng)
     = inl (Error (js "X profile fetch failed (401): expired")).
Proof.
  split.
  - destruct (x_http_failures happy_host counting_rng (answering_world false true))
      as [H _].
    cbv zeta in H.
    destruct (H {| method := Some (js "POST");
                   headers := [ (js "Content-Type", js "application/x-www-form-urlencoded") ];
                   body := Some [] |}) as [H' _]; [reflexivity | reflexivity |].
    rewrite H'. reflexivity.
  - destruct (x_http_failures happy_host counting_rng (answering_world true false))
      as [_ H].
    cbv zeta in H.
    rewrite (H (bearerRequestInit (js "at"))); reflexivity.
Defined.

Lemma line_calls_witness :
  length (calls happy_world (authenticateWithLine happy_host counting_rng)) = 3%nat.
Proof.
  destruct (line_calls happy_host counting_rng happy_world) as (_ & _ & _ & _ & H).
  apply (H {| externalId := js "U42"; name := js "LINE User";
              email := Some (js "a@b.com"); avatarUrl := None |}).
  vm_compute. reflexivity.
Defined.

Lemma x_calls_witness :
  length (calls happy_world (authenticateWithX happy_host counting_rng)) = 3%nat.
Proof.
  destruct (x_calls happy_host counting_rng happy_world) as (_ & _ & _ & _ & H).
  apply (H {| externalId := js "42"; name := js "mugi"; email := None; avatarUrl := None |}).
  vm_compute. reflexivity.
Defined.

(** ** Regular expressions: the derivatives decide the language *)

Lemma matches_cat_inv (r1 r2 : regex) (s : jsstring) :
  matches (Cat r1 r2) s ->
  exists s1 s2, s = s1 ++ s2 /\ matches r1 s1 /\ matches r2 s2.
Proof. intros H. inversion H; subst. eauto. Qed.

Lemma nullable_matches (r : regex) : nullable r = true <-> matches r [].
Proof.
  induction r as [| |p|r1 IH1 r2 IH2|r1 IH1 r2 IH2|r IH]; simpl.
  - split; [discriminate | intros H; inversion H].
  - split; [intros _; constructor | reflexivity].
  - split; [discriminate | intros H; inversion H].
  - rewrite andb_true_iff, IH1, IH2. split.
    + intros [H1 H2]. change (@nil Z) with (@nil Z ++ []). constructor; assumption.
    + intros H. apply matches_cat_inv in H. destruct H as (s1 & s2 & E & H1 & H2).
      symmetry in E. apply app_eq_nil in E. destruct E as [-> ->]. split; assumption.
  - rewrite orb_true_iff, IH1, IH2. split.
    + intros [H|H]; [apply matches_alt_l | apply matches_alt_r]; exact H.
    + intros H. inversion H; subst; [left | right]; assumption.
  - split; [intros _; constructor | reflexivity].
Qed.

Lemma matches_star_step_gen (r' : regex) (u : jsstring) :
  matches r' u ->
  forall (r : regex) (c : Z) (s : jsstring),
    r' = Star r -> u = c :: s ->
    exists s1 s2, s = s1 ++ s2 /\ matches r (c :: s1) /\ matches (Star r) s2.
Proof.
  induction 1 as [| | | | | |r0 s1 s2 H1 _ H2 IH2]; intros rr cc ss Er Eu; try discriminate.
  injection Er as ->.
  destruct s1 as [|x s1].
  - simpl in Eu. apply IH2; [reflexivity | exact Eu].
  - simpl in Eu. injection Eu as -> <-. exists s1, s2. repeat split; assumption.
Qed.

Lemma matches_star_step (r : regex) (c : Z) (s : jsstring) :
  matches (Star r) (c :: s) ->
  exists s1 s2, s = s1 ++ s2 /\ matches r (c :: s1) /\ matches (Star r) s2.
Proof. intros H. exact (matches_star_step_gen _ _ H r c s eq_refl eq_refl). Qed.

Lemma deriv_matches (r : regex) :
  forall (c : Z) (s : jsstring), matches (deriv c r) s <-> matches r (c :: s).
Proof.
  induction r as [| |p|r1 IH1 r2 IH2|r1 IH1 r2 IH2|r IH]; intros c s; simpl.
  - split; intros H; inversion H.
  - split; intros H; inversion H.
  - destruct (p c) eqn:Ep.
    + split; intros H; inversion H; subst; [constructor; exact Ep | constructor].
    + split; intros H; inversion H; subst. congruence.
  - assert (Hcat : matches (Cat (deriv c r1) r2) s ->  matches (Cat r1 r2) (c :: s)).
    { intros H. apply matches_cat_inv in H. destruct H as (s1 & s2 & -> & H1 & H2).
      apply IH1 in H1. change (c :: s1 ++ s2) with ((c :: s1) ++ s2).
      constructor; assumption. }
    assert (Hinv : matches (Cat r1 r2) (c :: s) ->
                   matches (Cat (deriv c r1) r2) s
                   \/ (matches r1 [] /\ matches r2 (c :: s))).
    { intros H. apply matches_cat_inv in H. destruct H as (s1 & s2 & E & H1 & H2).
      destruct s1 as [|x s1].
      - simpl in E. subst s2. right. split; assumption.
      - simpl in E. injection E as -> ->. left. constructor; [apply IH1|]; assumption. }
    destruct (nullable r1) eqn:En.
    + split.
      * intros H. inversion H; subst; [apply Hcat; assumption|].
        change (c :: s) with ([] ++ c :: s). constructor.
        -- apply nullable_matches. exact En.
        -- apply IH2. assumption.
      * intros H. apply Hinv in H. destruct H as [H|[_ H]].
        -- apply matches_alt_l. exact H.
        -- apply matches_alt_r. apply IH2. exact H.
    + split; [exact Hcat|].
      intros H. apply Hinv in H. destruct H as [H|[H _]]; [exact H|].
      apply nullable_matches in H. congruence.
  - split; intros H; inversion H; subst.
    + apply matches_alt_l. apply IH1. assumption.
    + apply matches_alt_r. apply IH2. assumption.
    + apply matches_alt_l. apply IH1. assumption.
    + apply matches_alt_r. apply IH2. assumption.
  - split.
    + intros H. apply matches_cat_inv in H. destruct H as (s1 & s2 & -> & H1 & H2).
      apply IH in H1. change (c :: s1 ++ s2) with ((c :: s1) ++ s2).
      constructor; assumption.
    + intros H. apply matches_star_step in H. destruct H as (s1 & s2 & -> & H1 & H2).
      constructor; [apply IH|]; assumption.
Qed.

Lemma test_matches (r : regex) (s : jsstring) : test r s = true <-> matches r s.
Proof.
  unfold test. revert r. induction s as [|c s IH]; intros r; simpl.
  - apply nullable_matches.
  - rewrite IH. apply deriv_matches.
Qed.

(** ** The pattern of the redirect URI *)

Lemma matches_lit (t : jsstring) : matches (lit t) t.
Proof.
  induction t as [|c t IH]; simpl; [constructor|].
  change (c :: t) with ([c] ++ t). constructor; [|exact IH].
  constructor. apply Z.eqb_refl.
Qed.

Lemma matches_class_inv (p : Z -> bool) (u : jsstring) :
  matches (Class p) u -> exists c, u = [c] /\ p c = true.
Proof. intros H. inversion H; subst. eauto. Qed.

Lemma matches_lit_inv (t u : jsstring) : matches (lit t) u -> u = t.
Proof.
  revert u. induction t as [|c t IH]; intros u H; simpl in H.
  - inversion H. reflexivity.
  - apply matches_cat_inv in H. destruct H as (s1 & s2 & -> & H1 & H2).
    apply matches_class_inv in H1. destruct H1 as (x & -> & Hx).
    apply Z.eqb_eq in Hx. subst x. simpl. f_equal. apply IH. exact H2.
Qed.

Lemma star_class_gen (r' : regex) (u : jsstring) :
  matches r' u ->
  forall p, r' = Star (Class p) -> Forall (fun c => p c = true) u.
Proof.
  induction 1 as [| | | | | |r0 s1 s2 H1 _ H2 IH2]; intros q Er; try discriminate.
  - constructor.
  - injection Er as ->. apply matches_class_inv in H1. destruct H1 as (x & -> & Hx).
    simpl. constructor; [exact Hx | apply IH2; reflexivity].
Qed.

Lemma star_class (p : Z -> bool) (u : jsstring) :
  matches (Star (Class p)) u <-> Forall (fun c => p c = true) u.
Proof.
  split; [intros H; exact (star_class_gen _ _ H p eq_refl)|].
  induction 1 as [|c u Hc _ IH]; [constructor|].
  change (c :: u) with ([c] ++ u). constructor; [constructor; exact Hc | exact IH].
Qed.

Lemma strip_prefix_spec (t s x : jsstring) : strip_prefix t s = Some x <-> s = t ++ x.
Proof.
  revert s. induction t as [|a t IH]; intros s; simpl.
  - destruct s; split; intros H; congruence.
  - destruct s as [|b s]; [split; discriminate|].
    destruct (Z.eqb_spec a b) as [->|N].
    + rewrite IH. split; intros H; congruence.
    + split; [discriminate | intros H; congruence].
Qed.

Lemma host_char_not_space (c : Z) : host_char c = true -> not_space c = true.
Proof.
  unfold host_char, not_space. destruct (is_space c); [|reflexivity].
  rewrite orb_true_r. discriminate.
Qed.

Lemma pattern_language (s : jsstring) :
  matches REDIRECT_URI_PATTERN s
  <-> exists c rest,
        s = js "https://" ++ c :: rest
        /\ host_char c = true /\ Forall (fun x => not_space x = true) rest.
Proof.
  unfold REDIRECT_URI_PATTERN, plus, opt. split.
  - intros H. apply matches_cat_inv in H. destruct H as (t & s' & -> & Ht & H).
    apply matches_lit_inv in Ht. subst t.
    apply matches_cat_inv in H. destruct H as (s1 & s2 & -> & H1 & H2).
    apply matches_cat_inv in H1. destruct H1 as (sa & sb & -> & Ha & Hb).
    apply matches_class_inv in Ha. destruct Ha as (c & -> & Hc).
    apply star_class in Hb.
    exists c, (sb ++ s2). split; [simpl; reflexivity|]. split; [exact Hc|].
    apply Forall_app. split.
    + eapply Forall_impl; [exact Hb|]. intros x. apply host_char_not_space.
    + inversion H2; subst; [apply star_class; assumption|].
      match goal with H : matches Eps _ |- _ => inversion H end. constructor.
  - intros (c & rest & -> & Hc & Hr).
    constructor; [apply matches_lit|].
    change (c :: rest) with (([c] ++ []) ++ rest).
    constructor.
    + constructor; [constructor; exact Hc | constructor].
    + apply matches_alt_l. apply star_class. exact Hr.
Qed.

Lemma host_char_order (c : Z) :
  negb ((c =? chr "/") || (c =? chr "?") || (c =? chr "#") || is_space c) = host_char c.
Proof.
  unfold host_char.
  generalize (c =? chr "/"), (c =? chr "?"), (c =? chr "#"), (is_space c).
  intros [] [] [] []; reflexivity.
Qed.

Lemma is_https_url_spec (s : jsstring) :
  is_https_url s = true
  <-> exists c rest,
        s = js "https://" ++ c :: rest
        /\ host_char c = true /\ Forall (fun x => not_space x = true) rest.
Proof.
  unfold is_https_url. split.
  - destruct (strip_prefix (js "https://") s) as [[|c rest]|] eqn:E; try discriminate.
    apply strip_prefix_spec in E. intros H. apply andb_true_iff in H. destruct H as [Hc Hr].
    exists c, rest. split; [exact E|]. split.
    + rewrite <- host_char_order. exact Hc.
    + apply List.Forall_forall. exact (proj1 (forallb_forall _ _) Hr).
  - intros (c & rest & -> & Hc & Hr).
    rewrite (proj2 (strip_prefix_spec (js "https://") _ (c :: rest)) eq_refl).
    apply andb_true_iff. split.
    + rewrite host_char_order. exact Hc.
    + apply (proj2 (forallb_forall _ _)). apply List.Forall_forall. exact Hr.
Qed.

Lemma is_https_url_test (s : jsstring) : is_https_url s = test REDIRECT_URI_PATTERN s.
Proof.
  destruct (is_https_url s) eqn:E1, (test REDIRECT_URI_PATTERN s) eqn:E2; try reflexivity.
  - apply is_https_url_spec, pattern_language, test_matches in E1. congruence.
  - apply test_matches, pattern_language, is_https_url_spec in E2. congruence.
Qed.

(** X17.  The pattern that [getRedirectUri] tests, read as a regular
    expression between [^] and [$], accepts exactly the strings made of
    [https://], then one character that is none of slash, question mark,
    hash and white space, then any characters that are not white space; of
    the host nothing but its first character is looked at. *)
Theorem redirect_uri_pattern (s : jsstring) :
  is_https_url s = test REDIRECT_URI_PATTERN s
  /\ (test REDIRECT_URI_PATTERN s = true <-> matches REDIRECT_URI_PATTERN s)
  /\ (test REDIRECT_URI_PATTERN s = true
      <-> exists c rest,
            s = js "https://" ++ c :: rest
            /\ host_char c = true /\ Forall (fun x => is_space x = false) rest).
Proof.
  split; [apply is_https_url_test|]. split; [apply test_matches|].
  rewrite test_matches, pattern_language.
  split; intros (c & rest & E & Hc & Hr); exists c, rest; (split; [exact E|]);
    (split; [exact Hc|]); eapply Forall_impl; try exact Hr;
    intros x; unfold not_space; destruct (is_space x); simpl; congruence.
Qed.

(** ** The redirect URI *)

Lemma trimStart_nil (s : jsstring) : trimStart s = [] <-> forallb is_space s = true.
Proof.
  induction s as [|c s IH]; simpl; [split; reflexivity|].
  destruct (is_space c); simpl; [exact IH | split; discriminate].
Qed.

Lemma trimStart_blank (s : jsstring) :
  forallb is_space (trimStart s) = true -> trimStart s = [].
Proof.
  induction s as [|c s IH]; simpl; [reflexivity|].
  destruct (is_space c) eqn:E; [exact IH|].
  simpl. rewrite E. discriminate.
Qed.

Lemma forallb_rev {A : Type} (p : A -> bool) (l : list A) :
  forallb p (rev l) = forallb p l.
Proof.
  induction l as [|x l IH]; [reflexivity|].
  simpl. rewrite forallb_app, IH. simpl. rewrite andb_true_r. apply andb_comm.
Qed.

Lemma trim_nil (s : jsstring) : trim s = [] <-> forallb is_space s = true.
Proof.
  unfold trim. split.
  - intros H. apply (f_equal (@rev Z)) in H. rewrite rev_involutive in H. simpl in H.
    apply trimStart_nil in H. rewrite forallb_rev in H.
    apply trimStart_blank in H. apply trimStart_nil. exact H.
  - intros H. apply trimStart_nil in H. rewrite H. reflexivity.
Qed.

Lemma getRedirectUri_unfold (P : Platform) :
  getRedirectUri P
  = match process_env P !! "EXPO_PUBLIC_OAUTH_REDIRECT_URI"%string with
    | Some v =>
        if forallb is_space v then inr (Linking_createURL P REDIRECT_PATH (js "mugimaru"))
        else if test REDIRECT_URI_PATTERN (trim v) then inr (trim v)
             else inl invalid_redirect_uri
    | None => inr (Linking_createURL P REDIRECT_PATH (js "mugimaru"))
    end.
Proof.
  unfold getRedirectUri.
  destruct (process_env P !! "EXPO_PUBLIC_OAUTH_REDIRECT_URI"%string) as [v|];
    [|reflexivity].
  cbn [option_map]. rewrite <- is_https_url_test.
  destruct (forallb is_space v) eqn:E.
  - apply trim_nil in E. rewrite E. reflexivity.
  - destruct (truthy (trim v)) eqn:Et.
    + destruct (is_https_url (trim v)); reflexivity.
    + apply truthy_false, trim_nil in Et. congruence.
Qed.

Lemma flows_without_redirect (P : Platform) (e : exn) (rng : Rng) (w : World) :
  getRedirectUri P = inl e ->
  calls w (authenticateWithLine P rng) = [] /\ calls w (authenticateWithX P rng) = [].
Proof.
  intros Hr. unfold calls. split.
  - destruct (getRequiredEnv P "EXPO_PUBLIC_LINE_CHANNEL_ID") as [e'|clientId] eqn:Hc.
    + rewrite (line_unconfigured P rng w e') by (left; exact Hc). reflexivity.
    + rewrite (line_unconfigured P rng w e)
        by (right; split; [exists clientId; exact Hc | exact Hr]).
      reflexivity.
  - destruct (getRequiredEnv P "EXPO_PUBLIC_X_CLIENT_ID") as [e'|clientId] eqn:Hc.
    + rewrite (x_unconfigured P rng w e') by (left; exact Hc). reflexivity.
    + rewrite (x_unconfigured P rng w e)
        by (right; split; [exists clientId; exact Hc | exact Hr]).
      reflexivity.
Qed.

(** X18.  [getRedirectUri]: without [EXPO_PUBLIC_OAUTH_REDIRECT_URI], or
    with a value that is empty or all white space, it returns the deep link
    that [Linking.createURL] makes of ['auth/callback'] and the scheme
    ['mugimaru']; with any other value it returns the value trimmed when
    the pattern accepts it and throws otherwise, and then neither flow
    makes a call.  Whatever it returns from the configuration starts with
    [https://] and holds no white space. *)
Theorem getRedirectUri_cases (P : Platform) :
  let configured := process_env P !! "EXPO_PUBLIC_OAUTH_REDIRECT_URI"%string in
  let fallback := Linking_createURL P (js "auth/callback") (js "mugimaru") in
  (configured = None \/ (exists v, configured = Some v /\ forallb is_space v = true) ->
   getRedirectUri P = inr fallback)
  /\ (forall v, configured = Some v -> forallb is_space v = false ->
        (test REDIRECT_URI_PATTERN (trim v) = true -> getRedirectUri P = inr (trim v))
        /\ (test REDIRECT_URI_PATTERN (trim v) = false ->
            getRedirectUri P
            = inl (Error (js "EXPO_PUBLIC_OAUTH_REDIRECT_URI must be a valid https URL. Example: https://your-app.vercel.app/auth/callback"))
            /\ forall (rng : Rng) (w : World),
                 calls w (authenticateWithLine P rng) = []
                 /\ calls w (authenticateWithX P rng) = []))
  /\ (forall r, getRedirectUri P = inr r ->
        r = fallback
        \/ (is_prefix (js "https://") r = true /\ Forall (fun c => is_space c = false) r)).
Proof.
  intros configured fallback. subst configured.
  pose proof (getRedirectUri_unfold P) as E.
  destruct (process_env P !! "EXPO_PUBLIC_OAUTH_REDIRECT_URI"%string) as [v|].
  - split; [|split].
    + intros [H|(v' & H & Hb)]; [discriminate|]. injection H as <-.
      rewrite E, Hb. reflexivity.
    + intros v' H Hb. injection H as <-. rewrite Hb in E. split; intros Ht.
      * rewrite E, Ht. reflexivity.
      * rewrite Ht in E. split; [exact E|].
        intros rng w. apply (flows_without_redirect P _ rng w E).
    + intros r Hr. rewrite E in Hr.
      destruct (forallb is_space v); [injection Hr as <-; left; reflexivity|].
      destruct (test REDIRECT_URI_PATTERN (trim v)) eqn:Ht; [|discriminate].
      injection Hr as <-. right.
      apply test_matches, pattern_language in Ht.
      destruct Ht as (c & rest & -> & Hc & Hrest).
      split; [reflexivity|].
      apply Forall_app. split; [repeat constructor|].
      constructor.
      * apply host_char_not_space in Hc. unfold not_space in Hc.
        destruct (is_space c); [discriminate | reflexivity].
      * eapply Forall_impl; [exact Hrest|]. intros x. unfold not_space.
        destruct (is_space x); [discriminate | reflexivity].
  - split; [intros _; exact E|].
    split; [intros v H; discriminate|].
    intros r Hr. rewrite E in Hr. injection Hr as <-. left. reflexivity.
Qed.

Lemma getRedirectUri_cases_witness :
  getRedirectUri (host_with_redirect (js "  https://mugimaru.example/auth/callback "))
  = inr (js "https://mugimaru.example/auth/callback").
Proof.
  destruct (getRedirectUri_cases
              (host_with_redirect (js "  https://mugimaru.example/auth/callback ")))
    as (_ & H & _).
  destruct (H (js "  https://mugimaru.example/auth/callback ")) as [H' _];
    [reflexivity | reflexivity |].
  apply H'. vm_compute. reflexivity.
Defined.

(** ** The segments of a token *)

Lemma split_on_head (sep : Z) (h t : jsstring) :
  ~ In sep h -> split_on sep (h ++ sep :: t) = h :: split_on sep t.
Proof.
  induction h as [|c h IH]; intros Hn; simpl.
  - rewrite Z.eqb_refl. reflexivity.
  - destruct (Z.eqb_spec c sep) as [->|N]; [destruct Hn; left; reflexivity|].
    rewrite IH by (intros H; apply Hn; right; exact H). reflexivity.
Qed.

Lemma split_on_whole (sep : Z) (p : jsstring) : ~ In sep p -> split_on sep p = [p].
Proof.
  induction p as [|c p IH]; intros Hn; simpl; [reflexivity|].
  destruct (Z.eqb_spec c sep) as [->|N]; [destruct Hn; left; reflexivity|].
  rewrite IH by (intros H; apply Hn; right; exact H). reflexivity.
Qed.

(** X19.  [parseJwtPayload] looks at the second segment of the token only:
    for a token made of a header, a dot, a payload and then nothing or a
    dot and anything, the result is what [JSON.parse] makes of the decoded
    payload, whatever the header and whatever follows the payload; the
    signature is not examined and need not be there. *)
Theorem parseJwtPayload_second_segment (P : Platform) (header payload rest : jsstring) :
  ~ In (chr ".") header -> ~ In (chr ".") payload ->
  rest = [] \/ (exists signature, rest = chr "." :: signature) ->
  parseJwtPayload P (Some (header ++ chr "." :: payload ++ rest))
  = inr (JSON_parse P (base64UrlToString (TextDecoder_decode P) payload)).
Proof.
  intros Hh Hp Hr.
  assert (Hs : exists more, split_on (chr ".") (header ++ chr "." :: payload ++ rest)
                            = header :: payload :: more).
  { rewrite split_on_head by exact Hh.
    destruct Hr as [->|(signature & ->)].
    - rewrite app_nil_r, split_on_whole by exact Hp. exists []. reflexivity.
    - rewrite split_on_head by exact Hp. eexists. reflexivity. }
  destruct Hs as (more & Hs).
  destruct (parseJwtPayload_cases P (Some (header ++ chr "." :: payload ++ rest)))
    as (_ & _ & _ & H).
  rewrite (H _ eq_refl) by (rewrite Hs; simpl; lia).
  rewrite Hs. reflexivity.
Qed.

Lemma parseJwtPayload_second_segment_witness :
  parseJwtPayload happy_host (Some (js "forged" ++ chr "." :: js "e30" ++ js ".unsigned"))
  = parseJwtPayload happy_host (Some (js "h" ++ chr "." :: js "e30" ++ [])).
Proof.
  rewrite (parseJwtPayload_second_segment happy_host (js "forged") (js "e30") (js ".unsigned"));
    [|vm_compute; intuition discriminate | vm_compute; intuition discriminate
     | right; eexists; reflexivity].
  rewrite (parseJwtPayload_second_segment happy_host (js "h") (js "e30") []);
    [reflexivity | vm_compute; intuition discriminate | vm_compute; intuition discriminate
    | left; reflexivity].
Defined.

(** ** Profiles that the flows return *)

Lemma lineProfile_id (P : Platform) (profile : LineProfileResponse)
    (token : LineTokenResponse) (p : SocialAuthProfile) :
  lineProfile P profile token = inr p -> externalId p <> [].
Proof.
  intros H. destruct (lineProfile_spec P profile token) as (idPayload & _ & Hnone & Hsome).
  cbv zeta in Hnone, Hsome.
  destruct (match userId profile with
            | Some u => Some u
            | None => idPayload ≫= sub
            end) as [[|c x]|].
  - rewrite Hnone in H by (right; reflexivity). discriminate.
  - rewrite (Hsome (c :: x) eq_refl) in H by discriminate.
    injection H as <-. discriminate.
  - rewrite Hnone in H by (left; reflexivity). discriminate.
Qed.

Lemma xProfile_id (me : XMeResponse) (p : SocialAuthProfile) :
  xProfile me = inr p -> externalId p <> [] /\ email p = None.
Proof.
  intros H. destruct (xProfile_spec me) as [Hnone Hsome].
  destruct (data me) as [u|] eqn:Ed.
  - destruct (id u) as [[|c i]|] eqn:Ei.
    + rewrite Hnone in H by (right; exists u; split; [reflexivity | right; exact Ei]).
      discriminate.
    + rewrite (Hsome u (c :: i) eq_refl Ei) in H by discriminate.
      injection H as <-. split; [discriminate | reflexivity].
    + rewrite Hnone in H by (right; exists u; split; [reflexivity | left; exact Ei]).
      discriminate.
  - rewrite Hnone in H by (left; reflexivity). discriminate.
Qed.

Lemma line_success (P : Platform) (rng : Rng) (w : World) (p : SocialAuthProfile) :
  outcome w (authenticateWithLine P rng) = inr p -> externalId p <> [].
Proof.
  unfold outcome.
  destruct (line_run_cases P rng w)
    as [(e & ->)|[(e & auth & ->)|[(auth & tokenInit & H)|(auth & tokenInit & H)]]];
    cbv zeta in *; try (destruct H as [Hok ->]); cbn [fst]; try discriminate.
  match goal with
  | |- context [if ?c then _ else _] => destruct c
  end; [apply lineProfile_id | discriminate].
Qed.

Lemma x_success (P : Platform) (rng : Rng) (w : World) (p : SocialAuthProfile) :
  outcome w (authenticateWithX P rng) = inr p -> externalId p <> [] /\ email p = None.
Proof.
  unfold outcome.
  destruct (x_run_cases P rng w)
    as [(e & ->)|[(e & auth & ->)|[(auth & tokenInit & H)|(auth & tokenInit & H)]]];
    cbv zeta in *; try (destruct H as [Hok ->]); cbn [fst]; try discriminate.
  match goal with
  | |- context [if ?c then _ else _] => destruct c
  end; [apply xProfile_id | discriminate].
Qed.

(** X20.  What a successful flow returns and what the sign-up screen makes
    of it: a profile returned by [authenticateWithLine] or by
    [authenticateWithX] has a user id that is not empty, so the profile
    [loginWithSocial] builds from it keeps that id (never a locally made
    one), keeps its provider and has a name that is not empty: the one
    returned or, when that is empty, "LINE User" or "X User". *)
Theorem social_login_profile (P : Platform) (rng : Rng) (w : World)
    (profile : SocialAuthProfile) :
  outcome w (authenticateWithLine P rng) = inr profile
  \/ outcome w (authenticateWithX P rng) = inr profile ->
  externalId profile <> []
  /\ forall (toLowerCase : jsstring -> jsstring) (now random : jsstring)
            (provider : AuthContext.AuthProvider),
       let next := nextProfile toLowerCase now random provider profile in
       AuthContext.externalId next = externalId profile
       /\ AuthContext.provider next = provider
       /\ AuthContext.name next <> []
       /\ (name profile <> [] -> AuthContext.name next = name profile)
       /\ (name profile = [] ->
           AuthContext.name next
           = match provider with
             | AuthContext.Line => js "LINE User"
             | _ => js "X User"
             end).
Proof.
  intros H.
  assert (Hid : externalId profile <> [])
    by (destruct H as [H|H]; [exact (line_success _ _ _ _ H) | exact (proj1 (x_success _ _ _ _ H))]).
  split; [exact Hid|].
  intros toLowerCase now random provider next. subst next.
  unfold nextProfile. cbn [AuthContext.externalId AuthContext.provider AuthContext.name].
  apply truthy_true in Hid. rewrite Hid.
  split; [reflexivity|]. split; [reflexivity|].
  destruct (truthy (name profile)) eqn:En.
  - apply truthy_true in En. split; [exact En|]. split; [reflexivity | congruence].
  - apply truthy_false in En. split; [destruct provider; discriminate|].
    split; [congruence | reflexivity].
Qed.

Lemma social_login_profile_witness :
  AuthContext.externalId
    (nextProfile (fun s => s) (js "1700000000000") (js "k3v9x2ab") AuthContext.X
       {| externalId := js "42"; name := js "mugi"; email := None; avatarUrl := None |})
  = js "42".
Proof.
  destruct (social_login_profile happy_host counting_rng happy_world
              {| externalId := js "42"; name := js "mugi"; email := None; avatarUrl := None |})
    as [_ H].
  - right. vm_compute. reflexivity.
  - destruct (H (fun s => s) (js "1700000000000") (js "k3v9x2ab") AuthContext.X) as [H' _].
    exact H'.
Defined.

(** ** The two revisions of the code challenge *)

(** X21.  The revision that asks the platform for the digest throws "Web
    Crypto API is unavailable on this device." when there is no
    [crypto.subtle]; where the platform's SHA-256 is the one of FIPS 180-4
    it returns the challenge that the revision with its own [sha256]
    computes. *)
Theorem createCodeChallenge_revisions (digest : list byte -> list byte)
    (codeVerifier : jsstring) :
  (forall message, digest message = FIPS.SHA256 message) ->
  WebCrypto.createCodeChallenge (Some digest) codeVerifier
  = inr (createCodeChallenge codeVerifier)
  /\ WebCrypto.createCodeChallenge None codeVerifier
     = inl (Error (js "Web Crypto API is unavailable on this device.")).
Proof.
  intros H. split; [|reflexivity].
  unfold WebCrypto.createCodeChallenge, createCodeChallenge. cbv zeta.
  rewrite H, sha256_is_FIPS. reflexivity.
Qed.

Lemma createCodeChallenge_revisions_witness :
  WebCrypto.createCodeChallenge (Some FIPS.SHA256)
    (js "dBjftJeZ4CVP-mB92K27uhbUJU1p1r_wW1gFWFOEjXk")
  = inr (js "E9Melhoa2OwvFrEMTJguCHaoeK1t8URWbuGJSstw-cM").
Proof.
  destruct (createCodeChallenge_revisions FIPS.SHA256
              (js "dBjftJeZ4CVP-mB92K27uhbUJU1p1r_wW1gFWFOEjXk")) as [H _].
  - intros message. reflexivity.
  - rewrite H. vm_compute. reflexivity.
Defined.

(** ** The Supabase environment *)

(** X22.  [hasSupabaseEnv] is true exactly when [requireSupabaseEnv] does
    not throw: when the URL and the key are both set and not empty.  The
    publishable key stands in for the anon key only when the anon key is
    not set at all: an anon key set to the empty string leaves the
    environment incomplete whatever the publishable key. *)
Theorem supabase_env (P : Platform) :
  (hasSupabaseEnv P = true <-> requireSupabaseEnv P = inr tt)
  /\ (hasSupabaseEnv P = true
      <-> (exists u k, SUPABASE_URL P = Some u /\ u <> []
                       /\ SUPABASE_ANON_KEY P = Some k /\ k <> []))
  /\ (process_env P !! "EXPO_PUBLIC_SUPABASE_ANON_KEY"%string = Some [] ->
      hasSupabaseEnv P = false).
Proof.
  unfold hasSupabaseEnv, requireSupabaseEnv.
  split; [|split].
  - destruct (SUPABASE_URL P) as [[|c u]|], (SUPABASE_ANON_KEY P) as [[|d k]|];
      cbn; split; congruence.
  - destruct (SUPABASE_URL P) as [[|c u]|], (SUPABASE_ANON_KEY P) as [[|d k]|]; cbn;
      (split; [try discriminate; intros _; eexists _, _; repeat split; discriminate
              | intros (u' & k' & Hu & Hun & Hk & Hkn); congruence]).
  - unfold SUPABASE_ANON_KEY. intros ->.
    destruct (SUPABASE_URL P) as [[|c u]|]; reflexivity.
Qed.

(** ** The challenge of a generated verifier *)

Lemma utf8_encode_ascii (s : jsstring) :
  Forall (fun c => 0 <= c < 0x80) s -> Utf8.encode s = map u8 s.
Proof.
  unfold Utf8.encode. induction 1 as [|c s Hc _ IH]; [reflexivity|].
  cbn [Utf8.scalars]. unfold Utf8.between.
  replace (0xD800 <=? c) with false by (symmetry; apply Z.leb_gt; lia).
  replace (0xDC00 <=? c) with false by (symmetry; apply Z.leb_gt; lia).
  cbn [andb map concat]. rewrite IH. unfold Utf8.encode_scalar.
  replace (c <? 0x80) with true by (symmetry; apply Z.ltb_lt; lia).
  reflexivity.
Qed.

Lemma pkce_unreserved_ascii (c : Z) : pkce_unreserved c = true -> 0 <= c < 0x80.
Proof.
  unfold pkce_unreserved.
  change (chr "A") with 65. change (chr "Z") with 90.
  change (chr "a") with 97. change (chr "z") with 122.
  change (chr "0") with 48. change (chr "9") with 57.
  change (chr "-") with 45. change (chr ".") with 46.
  change (chr "_") with 95. change (chr "~") with 126.
  destruct (Z.leb_spec 65 c), (Z.leb_spec c 90), (Z.leb_spec 97 c), (Z.leb_spec c 122),
    (Z.leb_spec 48 c), (Z.leb_spec c 57), (Z.eqb_spec c 45), (Z.eqb_spec c 46),
    (Z.eqb_spec c 95), (Z.eqb_spec c 126); cbn; intros Hp; try discriminate Hp; lia.
Qed.

(** X23.  The verifier that a sign-in attempt generates is plain ASCII, so
    its UTF-8 bytes are its characters and its challenge is the one RFC
    7636 defines for the method S256: the Base64URL text, without padding,
    of the SHA-256 digest of the ASCII bytes of the verifier.  So for
    every string that [randomString] returns, and it returns one for the
    64 characters of the verifier. *)
Theorem generated_verifier_challenge (n : nat) (rng : Rng) :
  (forall (codeVerifier : jsstring) (rng' : Rng),
     randomString n rng = inr (codeVerifier, rng') ->
     Forall (fun c => 0 <= c < 0x80) codeVerifier
     /\ Utf8.encode codeVerifier = map u8 codeVerifier
     /\ createCodeChallenge codeVerifier
        = RFC4648.encode_url (FIPS.SHA256 (map u8 codeVerifier)))
  /\ exists codeVerifier : jsstring,
       randomString 64 rng = inr (codeVerifier, advance 64 rng)
       /\ Forall (fun c => 0 <= c < 0x80) codeVerifier
       /\ Utf8.encode codeVerifier = map u8 codeVerifier
       /\ createCodeChallenge codeVerifier
          = RFC4648.encode_url (FIPS.SHA256 (map u8 codeVerifier)).
Proof.
  assert (G : forall (m : nat) (codeVerifier : jsstring) (rng' : Rng),
             randomString m rng = inr (codeVerifier, rng') ->
             Forall (fun c => 0 <= c < 0x80) codeVerifier
             /\ Utf8.encode codeVerifier = map u8 codeVerifier
             /\ createCodeChallenge codeVerifier
                = RFC4648.encode_url (FIPS.SHA256 (map u8 codeVerifier))).
  { intros m codeVerifier rng' E.
    assert (H : Forall (fun c => 0 <= c < 0x80) codeVerifier).
    { assert (Hc : secure rng = false \/ Z.of_nat m <= 65536).
      { destruct (secure rng) eqn:Hs; [|left; reflexivity].
        destruct (Z.le_gt_cases (Z.of_nat m) 65536) as [L|Gt]; [right; exact L|].
        rewrite (randomString_quota m rng Hs) in E by lia. discriminate. }
      destruct (randomString_spec m rng Hc) as (s & Es & _ & F).
      rewrite Es in E. injection E as <- _.
      eapply Forall_impl; [exact F|]. intros c. apply pkce_unreserved_ascii. }
    split; [exact H|]. split; [apply utf8_encode_ascii; exact H|].
    rewrite createCodeChallenge_spec, utf8_encode_ascii by exact H. reflexivity. }
  split; [apply G|].
  destruct (randomString_small 64 rng) as (v & E & _); [lia|].
  exists v. split; [exact E|]. exact (G _ _ _ E).
Qed.

Lemma generated_verifier_challenge_witness :
  exists codeVerifier : jsstring,
    randomString 64 (advance 32 counting_rng)
    = inr (codeVerifier, advance 64 (advance 32 counting_rng))
    /\ createCodeChallenge codeVerifier
       = RFC4648.encode_url (FIPS.SHA256 (map u8 codeVerifier)).
Proof.
  destruct (generated_verifier_challenge 64 (advance 32 counting_rng))
    as (_ & v & E & _ & _ & H).
  exists v. split; [exact E | exact H].
Defined.

(** ** The padded buffer *)

(** X24.  The buffer that [sha256] hashes: the message, the byte 0x80,
    zero bytes, and the bit length of the message as a 64-bit big-endian
    number, in all the least multiple of 64 bytes that holds the message
    and nine bytes more. *)
Theorem sha256_padding (message : list byte) :
  let n := Z.of_nat (length message) in
  let L := Sha256.paddedLength message in
  L = 64 * ((n + 8) / 64 + 1)
  /\ Z.of_nat (length (Sha256.padded_buffer message)) = L
  /\ Sha256.padded_buffer message
     = message ++ u8 0x80 :: replicate (Z.to_nat (L - n - 9)) x00
       ++ FIPS.big_endian 8 (8 * n).
Proof.
  intros n L.
  destruct (paddedLength_spec message) as (Hz & HL & Hm). cbv zeta in Hz, HL, Hm.
  fold n in Hz, HL. fold L in HL, Hm.
  split; [|split].
  - unfold L, Sha256.paddedLength, JS.ceil_div. cbv zeta. fold n. euclid.
  - rewrite padded_buffer_pad. apply pad_length.
  - rewrite padded_buffer_pad. unfold FIPS.pad. cbv zeta. fold n.
    cbn [app]. do 4 f_equal. lia.
Qed.

(** ** Encoding piece by piece *)

Lemma encode_app (a b : list byte) :
  (length a mod 3 = 0)%nat -> RFC4648.encode (a ++ b) = RFC4648.encode a ++ RFC4648.encode b.
Proof.
  induction a as [a IH] using (induction_ltof1 _ (@length byte)). unfold ltof in IH.
  intros Hm. destruct a as [|x [|y [|z rest]]]; try (simpl in Hm; discriminate Hm).
  - reflexivity.
  - change ((x :: y :: z :: rest) ++ b) with (x :: y :: z :: (rest ++ b)).
    cbn [RFC4648.encode]. cbv zeta. rewrite IH.
    + rewrite <- app_assoc. reflexivity.
    + simpl. lia.
    + simpl length in Hm.
      replace (S (S (S (length rest)))) with (length rest + 1 * 3)%nat in Hm by lia.
      rewrite Nat.Div0.mod_add in Hm. exact Hm.
Qed.

(** X25.  The encoder works group by group: when the first part has a
    multiple of three bytes, the Base64 text of two parts put together is
    the text of the first followed by the text of the second. *)
Theorem bytesToBase64_app (a b : list byte) :
  (length a mod 3 = 0)%nat ->
  bytesToBase64 (a ++ b) = bytesToBase64 a ++ bytesToBase64 b.
Proof. intros H. rewrite !bytesToBase64_rfc. apply encode_app. exact H. Qed.

Lemma bytesToBase64_app_witness :
  bytesToBase64 (bytes_of "foo" ++ bytes_of "ba")
  = bytesToBase64 (bytes_of "foo") ++ bytesToBase64 (bytes_of "ba").
Proof. apply (bytesToBase64_app (bytes_of "foo") (bytes_of "ba")). reflexivity. Defined.
